(** * podite: the bytes codec engine

    A shallow embedding of [pod/bytes.py] (the converter catalog, the format
    negotiation, the tag-type slot and the dataclass codec) and of
    [pod/types/array.py] (the fixed and variable container codecs), followed
    by the properties of the specification stated over that embedding.

    Python objects are dynamically typed, so values live in one inductive
    type [value]; exceptions are data ([exn]); the [BytesIO] buffer and the
    mutable cell [AutoTagType.TAG_TYPE] are threaded through a state and
    error monad [M].  A call of a hook goes through the binding of its
    arguments to the parameters the source declares, since a call that does
    not fit raises [TypeError] before the body runs.

    Not modelled: the [print] calls, the JSON hooks ([_to_dict],
    [_from_dict]), the helper classmethods of [generate_helpers], and the
    unfinished [register_arrays] that ends [array.py]. *)

From Stdlib Require Import ZArith NArith List String Bool Lia.
From Stdlib.Strings Require Import Byte.
Import ListNotations.

Set Warnings "-register-all".

Local Open Scope string_scope.
Local Open Scope list_scope.
Local Open Scope Z_scope.

(** ** Bytes and integers *)

Definition bytes := list byte.

Definition byte_of_N (n : N) : byte :=
  match Byte.of_N (n mod 256)%N with
  | Some b => b
  | None => x00
  end.

Definition byte_of_Z (z : Z) : byte := byte_of_N (Z.to_N (z mod 256)).

Definition Z_of_byte (b : byte) : Z := Z.of_N (Byte.to_N b).

(** [int.to_bytes(w, "little")] for an integer already known to fit. *)
Fixpoint to_little_endian (w : nat) (z : Z) : bytes :=
  match w with
  | O => []
  | S w' => byte_of_Z z :: to_little_endian w' (z / 256)
  end.

(** [int.from_bytes(b, "little")]. *)
Fixpoint from_little_endian (b : bytes) : Z :=
  match b with
  | [] => 0
  | x :: r => Z_of_byte x + 256 * from_little_endian r
  end.

(** [b.ljust(length, b"\x00")]: pads on the right, never truncates. *)
Definition ljust (b : bytes) (length : nat) : bytes :=
  b ++ repeat x00 (length - List.length b).

(** ** Python values and exceptions *)

(** A Python [str] is a sequence of code points. *)
Definition pystr := list N.

Fixpoint pystr_of_string (s : string) : pystr :=
  match s with
  | EmptyString => []
  | String c r => Ascii.N_of_ascii c :: pystr_of_string r
  end.

Inductive value : Type :=
| VNone
| VInt (n : Z)
| VBytes (b : bytes)
| VStr (s : pystr)
| VList (l : list value)
| VObj (cls : string) (attrs : list (string * value)).

Inductive exn : Type :=
| TypeError (msg : string)
| AttributeError (msg : string)
| ValueError (msg : string)
| RuntimeError (msg : string)
| OverflowError (msg : string)
| UnicodeError (msg : string)
| PodPathError (msg : string) (path : list string) (type_name : string)
               (val : value) (cause : option exn).

Inductive result (A : Type) : Type :=
| Ok (a : A)
| Raise (e : exn).
Arguments Ok {A} a.
Arguments Raise {A} e.

Definition result_bind {A B} (r : result A) (k : A -> result B) : result B :=
  match r with
  | Ok a => k a
  | Raise e => Raise e
  end.

(** ** Text encodings ([str.encode] and [bytes.decode]) *)

Inductive encoding := UTF_8 | ASCII | LATIN_1.

Definition utf8_encode_char (c : N) : option bytes :=
  (if c <? 0x80 then Some [byte_of_N c]
   else if c <? 0x800 then
     Some [byte_of_N (0xC0 + c / 0x40); byte_of_N (0x80 + c mod 0x40)]
   else if c <? 0x10000 then
     if (0xD800 <=? c) && (c <=? 0xDFFF) then None
     else Some [byte_of_N (0xE0 + c / 0x1000);
                byte_of_N (0x80 + (c / 0x40) mod 0x40);
                byte_of_N (0x80 + c mod 0x40)]
   else if c <? 0x110000 then
     Some [byte_of_N (0xF0 + c / 0x40000);
           byte_of_N (0x80 + (c / 0x1000) mod 0x40);
           byte_of_N (0x80 + (c / 0x40) mod 0x40);
           byte_of_N (0x80 + c mod 0x40)]
   else None)%N.

Definition encode_char (enc : encoding) (c : N) : option bytes :=
  match enc with
  | UTF_8 => utf8_encode_char c
  | ASCII => if (c <? 0x80)%N then Some [byte_of_N c] else None
  | LATIN_1 => if (c <? 0x100)%N then Some [byte_of_N c] else None
  end.

Fixpoint encode_str (enc : encoding) (s : pystr) : option bytes :=
  match s with
  | [] => Some []
  | c :: r =>
    match encode_char enc c, encode_str enc r with
    | Some b, Some br => Some (b ++ br)
    | _, _ => None
    end
  end.

Definition is_continuation (b : N) : bool := ((0x80 <=? b) && (b <=? 0xBF))%N.

(** Strict UTF-8 decoding: overlong forms, surrogates, code points above
    U+10FFFF and truncated sequences are rejected. *)
Fixpoint utf8_decode (b : list N) : option pystr :=
  match b with
  | [] => Some []
  | b0 :: r0 =>
    (if b0 <? 0x80 then option_map (cons b0) (utf8_decode r0)
     else if (0xC2 <=? b0) && (b0 <=? 0xDF) then
       match r0 with
       | b1 :: r1 =>
         if is_continuation b1
         then option_map (cons ((b0 - 0xC0) * 0x40 + (b1 - 0x80))) (utf8_decode r1)
         else None
       | _ => None
       end
     else if (0xE0 <=? b0) && (b0 <=? 0xEF) then
       match r0 with
       | b1 :: b2 :: r2 =>
         let c := (b0 - 0xE0) * 0x1000 + (b1 - 0x80) * 0x40 + (b2 - 0x80) in
         if is_continuation b1 && is_continuation b2 && (0x800 <=? c)
            && negb ((0xD800 <=? c) && (c <=? 0xDFFF))
         then option_map (cons c) (utf8_decode r2)
         else None
       | _ => None
       end
     else if (0xF0 <=? b0) && (b0 <=? 0xF4) then
       match r0 with
       | b1 :: b2 :: b3 :: r3 =>
         let c := (b0 - 0xF0) * 0x40000 + (b1 - 0x80) * 0x1000
                  + (b2 - 0x80) * 0x40 + (b3 - 0x80) in
         if is_continuation b1 && is_continuation b2 && is_continuation b3
            && (0x10000 <=? c) && (c <? 0x110000)
         then option_map (cons c) (utf8_decode r3)
         else None
       | _ => None
       end
     else None)%N
  end.

Definition decode_bytes (enc : encoding) (b : bytes) : option pystr :=
  let codes := map Byte.to_N b in
  match enc with
  | UTF_8 => utf8_decode codes
  | ASCII => if forallb (fun c => (c <? 0x80)%N) codes then Some codes else None
  | LATIN_1 => Some codes
  end.

(** ** Dynamically typed primitives used by the codecs *)

(** [obj.encode(encoding)] *)
Definition py_encode (obj : value) (enc : encoding) : result bytes :=
  match obj with
  | VStr s =>
    match encode_str enc s with
    | Some b => Ok b
    | None => Raise (UnicodeError "codec can't encode character")
    end
  | _ => Raise (AttributeError "encode")
  end.

(** [encoded.decode(encoding)] *)
Definition py_decode (b : bytes) (enc : encoding) : result value :=
  match decode_bytes enc b with
  | Some s => Ok (VStr s)
  | None => Raise (UnicodeError "codec can't decode byte")
  end.

(** [len(obj)] *)
Definition py_len (obj : value) : result Z :=
  match obj with
  | VBytes b => Ok (Z.of_nat (List.length b))
  | VStr s => Ok (Z.of_nat (List.length s))
  | VList l => Ok (Z.of_nat (List.length l))
  | _ => Raise (TypeError "object has no len()")
  end.

(** [for elem in obj]: the elements an iteration visits. *)
Definition py_iter (obj : value) : result (list value) :=
  match obj with
  | VBytes b => Ok (map (fun x => VInt (Z_of_byte x)) b)
  | VStr s => Ok (map (fun c => VStr [c]) s)
  | VList l => Ok l
  | _ => Raise (TypeError "object is not iterable")
  end.

(** [obj.ljust(length, b"\x00")] *)
Definition py_ljust (obj : value) (length : nat) : result bytes :=
  match obj with
  | VBytes b => Ok (ljust b length)
  | VStr _ => Raise (TypeError "The fill character must be a unicode character")
  | _ => Raise (AttributeError "ljust")
  end.

Fixpoint assoc {A} (k : string) (l : list (string * A)) : option A :=
  match l with
  | [] => None
  | (k', a) :: r => if String.eqb k k' then Some a else assoc k r
  end.

(** [getattr(obj, name)] on a record instance. *)
Definition py_getattr (obj : value) (name : string) : result value :=
  match obj with
  | VObj _ attrs =>
    match assoc name attrs with
    | Some v => Ok v
    | None => Raise (AttributeError name)
    end
  | _ => Raise (AttributeError name)
  end.

(** ** Types, formats and the world *)

(** Modelled from the spec: the atomic fixed-width unsigned integer types
    ([pod/types/atomic.py] is outside the covered sources).  [U8] is one byte,
    [U32] four bytes little-endian, [U64] eight bytes; each is statically
    sized and its maximum size is its byte width. *)
Inductive atomic := U8 | U32 | U64.

(** Modelled from the spec: the width of an atomic type in bytes, which is
    also what its [_calc_max_size] returns. *)
Definition atomic_size (a : atomic) : nat :=
  match a with
  | U8 => 1
  | U32 => 4
  | U64 => 8
  end.

(** Type descriptors: what [type_] ranges over.  The container descriptors
    carry the parameters their generator closes over. *)
Inductive PodType : Type :=
| Atomic (a : atomic)
| AutoTagType
| Dataclass (name : string) (fields : list (string * PodType))
| FixedLenArray (type_ : PodType) (length : nat)
| FixedLenBytes (length : nat)
| FixedLenStr (length : nat) (enc : encoding) (autopad : bool)
| Vec (type_ : PodType) (max_length : Z) (length_type : atomic)
| Bytes (max_length : Z) (length_type : atomic)
| Str (max_length : Z) (length_type : atomic) (enc : encoding).

(** [type_.__name__]; for generated containers the bracketed parameter
    suffix of the f-string is left out.  Field annotations are taken as
    resolved classes, so [field.type.__name__] is always defined. *)
Definition type_name (T : PodType) : string :=
  match T with
  | Atomic U8 => "U8"
  | Atomic U32 => "U32"
  | Atomic U64 => "U64"
  | AutoTagType => "AutoTagType"
  | Dataclass name _ => name
  | FixedLenArray _ _ => "FixedLenArray"
  | FixedLenBytes _ => "FixedLenBytes"
  | FixedLenStr _ _ _ => "FixedLenStr"
  | Vec _ _ _ => "Vec"
  | Bytes _ _ => "Bytes"
  | Str _ _ _ => "Str"
  end.

(** The [format] argument; [FORMAT_OTHER] stands for any other object. *)
Inductive Format :=
| FORMAT_BORSCH
| FORMAT_PASS
| FORMAT_AUTO
| FORMAT_ZERO_COPY
| FORMAT_OTHER (s : string).

(** The one [BytesIO] of a top-level call and the cell
    [AutoTagType.TAG_TYPE[0]].  The cell starts as [None] and the only
    objects ever stored in it are [U8] and [U64]. *)
Record world := mkWorld {
  buffer_data : bytes;
  buffer_pos : nat;
  TAG_TYPE : option atomic
}.

Definition set_buffer (d : bytes) (p : nat) (w : world) : world :=
  mkWorld d p (TAG_TYPE w).

Definition set_tag (t : option atomic) (w : world) : world :=
  mkWorld (buffer_data w) (buffer_pos w) t.

(** ** The state and error monad *)

Definition M (A : Type) : Type := world -> result A * world.

Definition ret {A} (a : A) : M A := fun w => (Ok a, w).

Definition raise {A} (e : exn) : M A := fun w => (Raise e, w).

Definition bind {A B} (m : M A) (k : A -> M B) : M B :=
  fun w =>
    match m w with
    | (Ok a, w') => k a w'
    | (Raise e, w') => (Raise e, w')
    end.

Definition lift {A} (r : result A) : M A := fun w => (r, w).

Notation "x <- m ;; k" := (bind m (fun x => k))
  (at level 61, m at next level, right associativity).
Notation "m ;;; k" := (bind m (fun _ => k))
  (at level 61, right associativity).

(** [try: m except Exception as e: raise h(e)] *)
Definition try_except {A} (m : M A) (h : exn -> exn) : M A :=
  fun w =>
    match m w with
    | (Ok a, w') => (Ok a, w')
    | (Raise e, w') => (Raise (h e), w')
    end.

Fixpoint for_each {A} (l : list A) (body : A -> M unit) : M unit :=
  match l with
  | [] => ret tt
  | a :: r => body a ;;; for_each r body
  end.

(** [result = []; for _ in range(n): result.append(body())] *)
Fixpoint collect (n : nat) (body : M value) : M (list value) :=
  match n with
  | O => ret []
  | S n' => v <- body ;; r <- collect n' body ;; ret (v :: r)
  end.

(** ** BytesIO *)

Definition tell : M nat := fun w => (Ok (buffer_pos w), w).

Definition seek (p : nat) : M unit :=
  fun w => (Ok tt, set_buffer (buffer_data w) p w).

(** [buffer.seek(0, 2)] *)
Definition seek_end : M unit :=
  fun w => (Ok tt, set_buffer (buffer_data w) (List.length (buffer_data w)) w).

(** [buffer.write(b)]: overwrites from the cursor on and extends the data
    as needed (zero-filling a gap when the cursor is past the end). *)
Definition write_at (d : bytes) (p : nat) (b : bytes) : bytes :=
  match b with
  | [] => d
  | _ => firstn p d ++ repeat x00 (p - List.length d) ++ b
         ++ skipn (p + List.length b) d
  end.

Definition buffer_write (b : bytes) : M unit :=
  fun w =>
    (Ok tt, set_buffer (write_at (buffer_data w) (buffer_pos w) b)
                       (buffer_pos w + List.length b) w).

(** [buffer.read(n)]: at most [n] bytes, fewer at the end of the data,
    never an error. *)
Definition buffer_read (n : nat) : M bytes :=
  fun w =>
    let chunk := firstn n (skipn (buffer_pos w) (buffer_data w)) in
    (Ok chunk, set_buffer (buffer_data w) (buffer_pos w + List.length chunk) w).

(** ** The tag-type slot *)

(** [with AutoTagTypeValueManager(tag_type): body].  [__enter__] saves the
    cell and installs [tag_type]; [__exit__] puts the saved object back and
    returns [None], so an exception of the body propagates. *)
Definition AutoTagTypeValueManager {A} (tag_type : atomic) (body : M A) : M A :=
  fun w =>
    let old := TAG_TYPE w in
    let (r, w') := body (set_tag (Some tag_type) w) in
    (r, set_tag old w').

(** ** Calling a hook: how Python binds the arguments *)

Definition IS_STATIC := "_is_static".
Definition CALC_MAX_SIZE := "_calc_max_size".
Definition TO_BYTES_PARTIAL := "_to_bytes_partial".
Definition FROM_BYTES_PARTIAL := "_from_bytes_partial".

(** The parameters of a classmethod after [cls], and whether it ends in
    [**kwargs]. *)
Record signature := mkSig {
  sig_params : list string;
  sig_var_keyword : bool
}.

(** What the catalog passes to a hook: the buffer, an object, a format. *)
Inductive arg :=
| ABuffer
| AValue (v : value)
| AFormat (f : Format).

Definition environment := list (string * arg).

Fixpoint bind_positional (params : list string) (args : list arg)
  : result environment :=
  match args, params with
  | [], _ => Ok []
  | _ :: _, [] => Raise (TypeError "takes fewer positional arguments")
  | a :: ar, p :: pr =>
    result_bind (bind_positional pr ar) (fun env => Ok ((p, a) :: env))
  end.

Definition bind_keyword (sg : signature) (env : environment)
    (kw : string * arg) : result environment :=
  if existsb (String.eqb (fst kw)) (sig_params sg) then
    match assoc (fst kw) env with
    | Some _ => Raise (TypeError "got multiple values for argument")
    | None => Ok (kw :: env)
    end
  else if sig_var_keyword sg then Ok (kw :: env)
  else Raise (TypeError "got an unexpected keyword argument").

Fixpoint bind_keywords (sg : signature) (env : environment)
    (kws : list (string * arg)) : result environment :=
  match kws with
  | [] => Ok env
  | kw :: r =>
    result_bind (bind_keyword sg env kw) (fun env' => bind_keywords sg env' r)
  end.

(** Python binds the arguments of a call before the body runs, and raises
    [TypeError] when they do not fit the signature. *)
Definition bind_arguments (sg : signature) (args : list arg)
    (kws : list (string * arg)) : result environment :=
  result_bind (bind_positional (sig_params sg) args) (fun env0 =>
  result_bind (bind_keywords sg env0 kws) (fun env =>
  if forallb (fun p => match assoc p env with Some _ => true | None => false end)
             (sig_params sg)
  then Ok env
  else Raise (TypeError "missing required positional argument"))).

Definition conforming_hooks : list (string * signature) :=
  [ (IS_STATIC, mkSig [] false);
    (CALC_MAX_SIZE, mkSig [] false);
    (TO_BYTES_PARTIAL, mkSig ["buffer"; "obj"] true);
    (FROM_BYTES_PARTIAL, mkSig ["buffer"] true) ].

(** The hooks each class defines, under the names and with the parameters
    the source gives them.  Dataclasses receive the four functions of
    [_generate_packers]; [AutoTagType] and the containers define their own.
    The atomic types are modelled from the spec: they implement the
    converter contract.  [_var_len_array] names its static check
    [is_static]. *)
Definition class_dict (T : PodType) : list (string * signature) :=
  match T with
  | Atomic _ | AutoTagType | Dataclass _ _ => conforming_hooks
  | FixedLenArray _ _ | FixedLenBytes _ | FixedLenStr _ _ _
  | Bytes _ _ | Str _ _ _ =>
    [ (IS_STATIC, mkSig [] false);
      (CALC_MAX_SIZE, mkSig [] false);
      (FROM_BYTES_PARTIAL, mkSig ["buffer"] false);
      (TO_BYTES_PARTIAL, mkSig ["obj"; "buffer"] false) ]
  | Vec _ _ _ =>
    [ ("is_static", mkSig [] false);
      (CALC_MAX_SIZE, mkSig [] false);
      (FROM_BYTES_PARTIAL, mkSig ["buffer"] false);
      (TO_BYTES_PARTIAL, mkSig ["obj"; "buffer"] false) ]
  end.

(** [getattr(type_, name)] called with [args] and the keywords [kws], up to
    the entry into the body. *)
Definition call_hook (T : PodType) (name : string) (args : list arg)
    (kws : list (string * arg)) : result environment :=
  match assoc name (class_dict T) with
  | None => Raise (AttributeError name)
  | Some sg => bind_arguments sg args kws
  end.

(** The object bound to [obj], provided [buffer] is bound to the buffer.
    With the two exchanged the body would use a [BytesIO] as the value and
    the value as the buffer. *)
Definition env_obj (env : environment) : result value :=
  match assoc "obj" env, assoc "buffer" env with
  | Some (AValue v), Some ABuffer => Ok v
  | _, _ => Raise (AttributeError "arguments bound in exchanged positions")
  end.

Definition env_buffer (env : environment) : result unit :=
  match assoc "buffer" env with
  | Some ABuffer => Ok tt
  | _ => Raise (AttributeError "read")
  end.

(** ** Format negotiation (the body of the catalog's partial methods) *)

Definition format_error : exn :=
  ValueError "Format argument must be auto, borsch, or zero_copy".

(** The [if]/[elif] chain of [pack_partial], shared by [unpack_partial]
    once the format is concrete. *)
Definition negotiate {A} (format : Format) (step : M A) : M A :=
  match format with
  | FORMAT_BORSCH => AutoTagTypeValueManager U8 step
  | FORMAT_PASS => step
  | FORMAT_ZERO_COPY => AutoTagTypeValueManager U64 step
  | _ => raise format_error
  end.

(** The [FORMAT_AUTO] block of [unpack_partial]. *)
Definition detect_format (max_size : option atomic -> result Z) : M Format :=
  AutoTagTypeValueManager U64
    (pos <- tell ;;
     seek_end ;;;
     size <- (fun w => (max_size (TAG_TYPE w), w)) ;;
     end_ <- tell ;;
     let format := if size =? Z.of_nat end_
                   then FORMAT_ZERO_COPY else FORMAT_BORSCH in
     seek pos ;;;
     ret format).

Definition auto_or (format : Format) (max_size : option atomic -> result Z)
  : M Format :=
  match format with
  | FORMAT_AUTO => detect_format max_size
  | _ => ret format
  end.

(** ** Atomic integers *)

(** Modelled from the spec: the pack step of an atomic type writes the
    little-endian bytes of an integer of its range. *)
Definition atomic_to_bytes_partial (a : atomic) (obj : value) : M unit :=
  match obj with
  | VInt n =>
    if (0 <=? n) && (n <? 2 ^ (8 * Z.of_nat (atomic_size a)))
    then buffer_write (to_little_endian (atomic_size a) n)
    else raise (OverflowError "int too big to convert")
  | _ => raise (AttributeError "to_bytes")
  end.

(** Modelled from the spec: the unpack step of an atomic type reads its
    width and interprets the bytes little-endian. *)
Definition atomic_from_bytes_partial (a : atomic) : M value :=
  b <- buffer_read (atomic_size a) ;;
  ret (VInt (from_little_endian b)).

Definition format_kw (format : Format) : list (string * arg) :=
  [("format", AFormat format)].

(** The catalog's methods at an atomic type. *)
Definition atomic_calc_max_size (a : atomic) : result Z :=
  result_bind (call_hook (Atomic a) CALC_MAX_SIZE [] []) (fun _ =>
  Ok (Z.of_nat (atomic_size a))).

Definition atomic_pack_partial (a : atomic) (obj : value) (format : Format)
  : M unit :=
  negotiate format
    (env <- lift (call_hook (Atomic a) TO_BYTES_PARTIAL
                            [ABuffer; AValue obj] (format_kw format)) ;;
     o <- lift (env_obj env) ;;
     atomic_to_bytes_partial a o).

Definition atomic_unpack_partial (a : atomic) (format : Format) : M value :=
  format' <- auto_or format (fun _ => atomic_calc_max_size a) ;;
  negotiate format'
    (env <- lift (call_hook (Atomic a) FROM_BYTES_PARTIAL
                            [ABuffer] (format_kw format')) ;;
     lift (env_buffer env) ;;;
     atomic_from_bytes_partial a).

(** Modelled from the spec: [_get_converter_or_raise] (in [pod/core.py])
    fails when no resolver matches; every descriptor of [PodType] carries
    the self-converter marker, the empty slot [None] does not. *)
Definition no_converter (error_msg : string) : exn := ValueError error_msg.

(** ** AutoTagType *)

Definition AutoTagType_calc_max_size (tag : option atomic) : result Z :=
  match tag with
  | None => Raise (no_converter "No converter was able to calculate maximum size of type")
  | Some ty => atomic_calc_max_size ty
  end.

Definition AutoTagType_to_bytes_partial (obj : value) (format : Format)
  : M unit :=
  fun w =>
    match TAG_TYPE w with
    | None => (Raise (no_converter "No converter was able to pack raw data"), w)
    | Some ty => atomic_pack_partial ty obj format w
    end.

Definition AutoTagType_from_bytes_partial (format : Format) : M value :=
  fun w =>
    match TAG_TYPE w with
    | None => (Raise (no_converter "No converter was able to unpack object"), w)
    | Some ty => atomic_unpack_partial ty format w
    end.

(** ** The dataclass codec ([pod/bytes.py]) *)

(** The two [except] clauses around a field: a [PodPathError] gets the field
    name and the class name appended to its path and is raised again; any
    other exception is replaced by a fresh [PodPathError] chained to it. *)
Definition enrich (msg field_name cls_name field_type_name : string)
    (val : value) (e : exn) : exn :=
  match e with
  | PodPathError m path tn v c =>
    PodPathError m (path ++ [field_name; cls_name]) tn v c
  | _ => PodPathError msg [field_name; cls_name] field_type_name val (Some e)
  end.

Section DataclassCodec.

Variable is_static_ : PodType -> result bool.
Variable calc_max_size_ : PodType -> result Z.
Variable pack_partial_ : PodType -> value -> M unit.
Variable unpack_partial_ : PodType -> M value.
Variable cls_name : string.

Fixpoint fields_is_static (fields : list (string * PodType)) : result bool :=
  match fields with
  | [] => Ok true
  | field :: rest =>
    result_bind (is_static_ (snd field)) (fun b =>
    if b then fields_is_static rest else Ok false)
  end.

Fixpoint fields_calc_max_size (fields : list (string * PodType)) (total : Z)
  : result Z :=
  match fields with
  | [] => Ok total
  | field :: rest =>
    result_bind (calc_max_size_ (snd field)) (fun n =>
    fields_calc_max_size rest (total + n))
  end.

Definition field_to_bytes_partial (obj : value) (field : string * PodType)
  : M unit :=
  let handler := enrich "Failed to serialize dataclass"
                        (fst field) cls_name (type_name (snd field)) in
  match py_getattr obj (fst field) with
  | Raise e => raise (handler VNone e)
  | Ok val => try_except (pack_partial_ (snd field) val) (handler val)
  end.

Fixpoint fields_to_bytes_partial (fields : list (string * PodType))
    (obj : value) : M unit :=
  match fields with
  | [] => ret tt
  | field :: rest =>
    field_to_bytes_partial obj field ;;;
    fields_to_bytes_partial rest obj
  end.

Definition field_from_bytes_partial (field : string * PodType) : M value :=
  try_except (unpack_partial_ (snd field))
             (enrich "Failed to deserialize dataclass"
                     (fst field) cls_name (type_name (snd field)) VNone).

Fixpoint fields_from_bytes_partial (fields : list (string * PodType))
  : M (list (string * value)) :=
  match fields with
  | [] => ret []
  | field :: rest =>
    v <- field_from_bytes_partial field ;;
    values <- fields_from_bytes_partial rest ;;
    ret ((fst field, v) :: values)
  end.

End DataclassCodec.

(** ** The container codecs ([pod/types/array.py]) *)

(** [buffer.write(obj)] for an arbitrary object *)
Definition py_write (obj : value) : M unit :=
  match obj with
  | VBytes b => buffer_write b
  | _ => raise (TypeError "a bytes-like object is required")
  end.

(** [buffer.read(length)] for a Python integer; a negative size reads all. *)
Definition buffer_read_int (length : Z) : M bytes :=
  if length <? 0
  then (fun w => buffer_read (List.length (buffer_data w)) w)
  else buffer_read (Z.to_nat length).

Definition bounds_error : exn := RuntimeError "actual_length > max_length".

(** [length = BYTES_CATALOG.unpack_partial(length_type, buffer)] followed
    by the bounds check; the prefix is an integer. *)
Definition read_length (length_type : atomic) (max_length : Z) : M Z :=
  length <- atomic_unpack_partial length_type FORMAT_AUTO ;;
  match length with
  | VInt n => if n >? max_length then raise bounds_error else ret n
  | _ => raise (TypeError "'>' not supported")
  end.

(** [len(obj)], the bounds check, then the prefix written through the
    catalog. *)
Definition write_length (length_type : atomic) (max_length : Z) (obj : value)
  : M unit :=
  n <- lift (py_len obj) ;;
  if n >? max_length then raise bounds_error
  else atomic_pack_partial length_type (VInt n) FORMAT_BORSCH.

(** *** [_fixed_len_array] *)

Definition fixed_len_array_from_bytes_partial (unpack_elem : M value)
    (length : nat) : M value :=
  result <- collect length unpack_elem ;;
  ret (VList result).

Definition fixed_len_array_to_bytes_partial (pack_elem : value -> M unit)
    (obj : value) : M unit :=
  elems <- lift (py_iter obj) ;;
  for_each elems pack_elem.

(** *** [_fixed_len_bytes] *)

Definition fixed_len_bytes_from_bytes_partial (length : nat) : M value :=
  b <- buffer_read length ;;
  ret (VBytes b).

Definition fixed_len_bytes_to_bytes_partial (length : nat) (obj : value)
  : M unit :=
  padded <- lift (py_ljust obj length) ;;
  buffer_write padded.

(** *** [_fixed_len_str] *)

(** The value of [last] when the [while] loop ends: the index of the first
    zero byte, or the length when there is none. *)
Fixpoint first_zero (encoded : bytes) : nat :=
  match encoded with
  | [] => O
  | x :: r => if Byte.eqb x x00 then O else S (first_zero r)
  end.

Definition fixed_len_str_from_bytes_partial (length : nat) (enc : encoding)
    (autopad : bool) : M value :=
  encoded <- buffer_read length ;;
  let encoded :=
    if autopad then firstn (first_zero encoded) encoded else encoded in
  lift (py_decode encoded enc).

Definition fixed_len_str_to_bytes_partial (length : nat) (enc : encoding)
    (autopad : bool) (obj : value) : M unit :=
  encoded <- lift (py_encode obj enc) ;;
  if (length <? List.length encoded)%nat
  then raise (ValueError "len(value) > length")
  else if (List.length encoded <? length)%nat && negb autopad
  then raise (ValueError "len(value) < size")
  else buffer_write (ljust encoded length).

(** *** [_var_len_array] *)

Definition var_len_array_from_bytes_partial (unpack_elem : M value)
    (max_length : Z) (length_type : atomic) : M value :=
  length <- read_length length_type max_length ;;
  result <- collect (Z.to_nat length) unpack_elem ;;
  ret (VList result).

Definition var_len_array_to_bytes_partial (pack_elem : value -> M unit)
    (max_length : Z) (length_type : atomic) (obj : value) : M unit :=
  write_length length_type max_length obj ;;;
  elems <- lift (py_iter obj) ;;
  for_each elems pack_elem.

(** *** [_var_len_bytes] *)

Definition var_len_bytes_from_bytes_partial (max_length : Z)
    (length_type : atomic) : M value :=
  length <- read_length length_type max_length ;;
  b <- buffer_read_int length ;;
  ret (VBytes b).

Definition var_len_bytes_to_bytes_partial (max_length : Z)
    (length_type : atomic) (obj : value) : M unit :=
  write_length length_type max_length obj ;;;
  py_write obj.

(** *** [_var_len_str] *)

Definition var_len_str_from_bytes_partial (max_length : Z)
    (length_type : atomic) (enc : encoding) : M value :=
  length <- read_length length_type max_length ;;
  b <- buffer_read_int length ;;
  lift (py_decode b enc).

Definition var_len_str_to_bytes_partial (max_length : Z)
    (length_type : atomic) (enc : encoding) (obj : value) : M unit :=
  write_length length_type max_length obj ;;;
  encoded <- lift (py_encode obj enc) ;;
  buffer_write encoded.

(** ** The catalog ([BytesPodConverterCatalog] over [SelfBytesPodConverter]) *)

(** [BYTES_CATALOG.is_static(type_)] *)
Fixpoint is_static (T : PodType) : result bool :=
  result_bind (call_hook T IS_STATIC [] []) (fun _ =>
  match T with
  | Atomic _ => Ok true
  | AutoTagType => Ok false
  | Dataclass _ fields => fields_is_static is_static fields
  | FixedLenArray type_ _ => is_static type_
  | FixedLenBytes _ => Ok true
  | FixedLenStr _ _ _ => Ok true
  | Vec _ _ _ => Ok false
  | Bytes _ _ => Ok false
  | Str _ _ _ => Ok false
  end).

(** [BYTES_CATALOG.calc_max_size(type_)], with the content of the tag slot
    at the time of the call. *)
Fixpoint calc_max_size (T : PodType) (tag : option atomic) : result Z :=
  result_bind (call_hook T CALC_MAX_SIZE [] []) (fun _ =>
  match T with
  | Atomic a => Ok (Z.of_nat (atomic_size a))
  | AutoTagType => AutoTagType_calc_max_size tag
  | Dataclass _ fields =>
    fields_calc_max_size (fun ty => calc_max_size ty tag) fields 0
  | FixedLenArray type_ length =>
    result_bind (calc_max_size type_ tag) (fun n => Ok (n * Z.of_nat length))
  | FixedLenBytes length => Ok (Z.of_nat length)
  | FixedLenStr length _ _ => Ok (Z.of_nat length)
  | Vec type_ max_length length_type =>
    result_bind (atomic_calc_max_size length_type) (fun len_size =>
    result_bind (calc_max_size type_ tag) (fun n =>
    Ok (len_size + n * max_length)))
  | Bytes max_length length_type =>
    result_bind (atomic_calc_max_size length_type) (fun len_size =>
    Ok (len_size + max_length))
  | Str max_length length_type _ =>
    result_bind (atomic_calc_max_size length_type) (fun len_size =>
    Ok (len_size + max_length))
  end).

(** [BYTES_CATALOG.pack_partial(type_, buffer, obj, format=format)] *)
Fixpoint pack_partial (T : PodType) (obj : value) (format : Format)
  {struct T} : M unit :=
  negotiate format
    (env <- lift (call_hook T TO_BYTES_PARTIAL
                            [ABuffer; AValue obj] (format_kw format)) ;;
     o <- lift (env_obj env) ;;
     match T with
     | Atomic a => atomic_to_bytes_partial a o
     | AutoTagType => AutoTagType_to_bytes_partial o format
     | Dataclass name fields =>
       fields_to_bytes_partial (fun ty v => pack_partial ty v format)
                               name fields o
     | FixedLenArray type_ _ =>
       fixed_len_array_to_bytes_partial
         (fun elem => pack_partial type_ elem FORMAT_BORSCH) o
     | FixedLenBytes length => fixed_len_bytes_to_bytes_partial length o
     | FixedLenStr length enc autopad =>
       fixed_len_str_to_bytes_partial length enc autopad o
     | Vec type_ max_length length_type =>
       var_len_array_to_bytes_partial
         (fun elem => pack_partial type_ elem FORMAT_BORSCH)
         max_length length_type o
     | Bytes max_length length_type =>
       var_len_bytes_to_bytes_partial max_length length_type o
     | Str max_length length_type enc =>
       var_len_str_to_bytes_partial max_length length_type enc o
     end).

(** [BYTES_CATALOG.unpack_partial(type_, buffer, format=format)] *)
Fixpoint unpack_partial (T : PodType) (format : Format) {struct T} : M value :=
  format' <- auto_or format (calc_max_size T) ;;
  negotiate format'
    (env <- lift (call_hook T FROM_BYTES_PARTIAL
                            [ABuffer] (format_kw format')) ;;
     lift (env_buffer env) ;;;
     match T with
     | Atomic a => atomic_from_bytes_partial a
     | AutoTagType => AutoTagType_from_bytes_partial format'
     | Dataclass name fields =>
       values <- fields_from_bytes_partial
                   (fun ty => unpack_partial ty format') name fields ;;
       ret (VObj name values)
     | FixedLenArray type_ length =>
       fixed_len_array_from_bytes_partial
         (unpack_partial type_ FORMAT_AUTO) length
     | FixedLenBytes length => fixed_len_bytes_from_bytes_partial length
     | FixedLenStr length enc autopad =>
       fixed_len_str_from_bytes_partial length enc autopad
     | Vec type_ max_length length_type =>
       var_len_array_from_bytes_partial
         (unpack_partial type_ FORMAT_AUTO) max_length length_type
     | Bytes max_length length_type =>
       var_len_bytes_from_bytes_partial max_length length_type
     | Str max_length length_type enc =>
       var_len_str_from_bytes_partial max_length length_type enc
     end).

(** [BYTES_CATALOG.pack(type_, obj, format)]: a fresh buffer, one partial
    step, the bytes written; the second component is the tag slot after
    the call. *)
Definition pack (T : PodType) (obj : value) (format : Format)
    (tag : option atomic) : result bytes * option atomic :=
  let (r, w) := pack_partial T obj format (mkWorld [] 0 tag) in
  (match r with
   | Ok _ => Ok (buffer_data w)
   | Raise e => Raise e
   end, TAG_TYPE w).

(** [BYTES_CATALOG.unpack(type_, raw, checked, format)] *)
Definition unpack (T : PodType) (raw : bytes) (checked : bool)
    (format : Format) (tag : option atomic) : result value * option atomic :=
  let (r, w) := unpack_partial T format (mkWorld raw 0 tag) in
  (match r with
   | Ok obj =>
     if checked && (buffer_pos w <? List.length (buffer_data w))%nat
     then Raise (RuntimeError "Unused bytes in provided raw data")
     else Ok obj
   | Raise e => Raise e
   end, TAG_TYPE w).

(** ** The generators of the variable containers and their defaults *)

Definition default_length_type (length_type : option atomic) : atomic :=
  match length_type with
  | None => U32
  | Some t => t
  end.

(** [if max_length is None:
       max_length = 2 ** BYTES_CATALOG.calc_max_size(length_type)] *)
Definition default_max_length (max_length : option Z) (length_type : atomic)
    (tag : option atomic) : result Z :=
  match max_length with
  | None =>
    result_bind (calc_max_size (Atomic length_type) tag) (fun n => Ok (2 ^ n))
  | Some m => Ok m
  end.

Definition _var_len_array (type_ : PodType) (max_length : option Z)
    (length_type : option atomic) (tag : option atomic) : result PodType :=
  let length_type := default_length_type length_type in
  result_bind (default_max_length max_length length_type tag) (fun max_length =>
  Ok (Vec type_ max_length length_type)).

Definition _var_len_bytes (max_length : option Z)
    (length_type : option atomic) (tag : option atomic) : result PodType :=
  let length_type := default_length_type length_type in
  result_bind (default_max_length max_length length_type tag) (fun max_length =>
  Ok (Bytes max_length length_type)).

Definition _var_len_str (max_length : option Z) (length_type : option atomic)
    (enc : encoding) (tag : option atomic) : result PodType :=
  let length_type := default_length_type length_type in
  result_bind (default_max_length max_length length_type tag) (fun max_length =>
  Ok (Str max_length length_type enc)).

(** ** The hooks of a dataclass, as the catalog reaches them *)

(** The four functions of [_generate_packers], as the catalog reaches them
    at a dataclass. *)
Definition dataclass_is_static (fields : list (string * PodType))
  : result bool :=
  fields_is_static is_static fields.

Definition dataclass_calc_max_size (fields : list (string * PodType))
    (tag : option atomic) : result Z :=
  fields_calc_max_size (fun ty => calc_max_size ty tag) fields 0.

Definition dataclass_to_bytes_partial (name : string)
    (fields : list (string * PodType)) (obj : value) (format : Format)
  : M unit :=
  fields_to_bytes_partial (fun ty v => pack_partial ty v format)
                          name fields obj.

Definition dataclass_from_bytes_partial (name : string)
    (fields : list (string * PodType)) (format : Format) : M value :=
  values <- fields_from_bytes_partial
              (fun ty => unpack_partial ty format) name fields ;;
  ret (VObj name values).

(** ** Auxiliary notions for the statements *)

(** The path carried by an exception; empty unless it is a [PodPathError]. *)
Definition path_of (e : exn) : list string :=
  match e with
  | PodPathError _ path _ _ _ => path
  | _ => []
  end.

Section FieldAttempt.

Variable pack_ : PodType -> value -> M unit.

(** The outcome of one field of the pack loop, before the handlers. *)
Definition field_attempt (obj : value) (field : string * PodType)
  : M unit :=
  val <- lift (py_getattr obj (fst field)) ;;
  pack_ (snd field) val.

(** The value the handler reports: the attribute once it was read. *)
Definition reported (obj : value) (field : string * PodType) : value :=
  match py_getattr obj (fst field) with
  | Ok val => val
  | Raise _ => VNone
  end.

End FieldAttempt.

(** A step that leaves in the tag slot what it found there. *)
Definition keeps_tag {A} (m : M A) : Prop :=
  forall w, TAG_TYPE (snd (m w)) = TAG_TYPE w.

(** The generated container classes, as opposed to atomic types,
    [AutoTagType] and dataclasses. *)
Definition is_container (T : PodType) : bool :=
  match T with
  | Atomic _ | AutoTagType | Dataclass _ _ => false
  | _ => true
  end.

(** The formats under which the catalog installs a tag type. *)
Definition negotiated (format : Format) : bool :=
  match format with
  | FORMAT_BORSCH | FORMAT_ZERO_COPY => true
  | _ => false
  end.

(** The formats [pack_partial] accepts. *)
Definition concrete (format : Format) : bool :=
  match format with
  | FORMAT_BORSCH | FORMAT_ZERO_COPY | FORMAT_PASS => true
  | _ => false
  end.

(** The exception of a call whose keyword the callee does not declare. *)
Definition keyword_error : exn :=
  TypeError "got an unexpected keyword argument".

(** No name occurs twice, as among the fields of a dataclass. *)
Fixpoint distinct (l : list string) : bool :=
  match l with
  | [] => true
  | x :: r => negb (existsb (String.eqb x) r) && distinct r
  end.

(** Descriptors built from atomic integers and dataclasses only, with the
    field names of each dataclass distinct. *)
Fixpoint plain (T : PodType) : bool :=
  match T with
  | Atomic _ => true
  | Dataclass _ fields =>
    forallb (fun f => plain (snd f)) fields && distinct (map fst fields)
  | _ => false
  end.

Section Lockstep.

Variable legal_ : PodType -> value -> bool.
Variable wire_ : PodType -> value -> bytes.

Fixpoint legal_fields (fields : list (string * PodType))
    (attrs : list (string * value)) : bool :=
  match fields, attrs with
  | [], [] => true
  | f :: fr, a :: ar =>
    String.eqb (fst a) (fst f) && legal_ (snd f) (snd a) && legal_fields fr ar
  | _, _ => false
  end.

Fixpoint wire_fields (fields : list (string * PodType))
    (attrs : list (string * value)) : bytes :=
  match fields, attrs with
  | f :: fr, a :: ar => wire_ (snd f) (snd a) ++ wire_fields fr ar
  | _, _ => []
  end.

End Lockstep.

(** The values of a plain descriptor: integers of the range of the atomic
    type, and instances of the dataclass holding a legal value for each
    field, in field order. *)
Fixpoint legal (T : PodType) (v : value) {struct T} : bool :=
  match T, v with
  | Atomic a, VInt n => (0 <=? n) && (n <? 2 ^ (8 * Z.of_nat (atomic_size a)))
  | Dataclass name fields, VObj cls attrs =>
    String.eqb cls name && legal_fields legal fields attrs
  | _, _ => false
  end.

(** The bytes a legal value of a plain descriptor is laid out as: the
    little-endian integers of its fields, in field order. *)
Fixpoint wire (T : PodType) (v : value) {struct T} : bytes :=
  match T, v with
  | Atomic a, VInt n => to_little_endian (atomic_size a) n
  | Dataclass _ fields, VObj _ attrs => wire_fields wire fields attrs
  | _, _ => []
  end.

(** What the spec says the probe of [FORMAT_AUTO] compares the static size
    with: the length of what remains of the buffer after the cursor. *)
Definition remaining_length (w : world) : Z :=
  Z.of_nat (List.length (buffer_data w) - buffer_pos w).

(** What [unpack_partial] compares it with: the offset of the end. *)
Definition end_offset (w : world) : Z :=
  Z.of_nat (List.length (buffer_data w)).

(** The format the probe selects for a type of maximum size [size]. *)
Definition selected_format (size : Z) (w : world) : Format :=
  if size =? end_offset w then FORMAT_ZERO_COPY else FORMAT_BORSCH.

(** The selection as the spec words it: against what remains after the
    cursor. *)
Definition spec_selected_format (size : Z) (w : world) : Format :=
  if size =? remaining_length w then FORMAT_ZERO_COPY else FORMAT_BORSCH.

(** A buffer written front to back: the cursor is at the end. *)
Definition at_end (w : world) : Prop :=
  buffer_pos w = List.length (buffer_data w).

(** Such a buffer after [b] was written. *)
Definition appended (w : world) (b : bytes) : world :=
  mkWorld (buffer_data w ++ b)
          (List.length (buffer_data w) + List.length b) (TAG_TYPE w).

(** ** Induction over type descriptors *)

Section PodType_induction.

Variable P : PodType -> Prop.
Hypothesis H_atomic : forall a, P (Atomic a).
Hypothesis H_auto : P AutoTagType.
Hypothesis H_dataclass : forall name fields,
    Forall (fun f => P (snd f)) fields -> P (Dataclass name fields).
Hypothesis H_fixed_array : forall type_ length,
    P type_ -> P (FixedLenArray type_ length).
Hypothesis H_fixed_bytes : forall length, P (FixedLenBytes length).
Hypothesis H_fixed_str : forall length enc autopad,
    P (FixedLenStr length enc autopad).
Hypothesis H_vec : forall type_ max_length length_type,
    P type_ -> P (Vec type_ max_length length_type).
Hypothesis H_bytes : forall max_length length_type,
    P (Bytes max_length length_type).
Hypothesis H_str : forall max_length length_type enc,
    P (Str max_length length_type enc).

Fixpoint PodType_nested_ind (T : PodType) : P T :=
  match T with
  | Atomic a => H_atomic a
  | AutoTagType => H_auto
  | Dataclass name fields =>
    H_dataclass name fields
      ((fix all (fs : list (string * PodType))
          : Forall (fun f => P (snd f)) fs :=
          match fs with
          | [] => Forall_nil _
          | f :: r => Forall_cons f (PodType_nested_ind (snd f)) (all r)
          end) fields)
  | FixedLenArray type_ length =>
    H_fixed_array type_ length (PodType_nested_ind type_)
  | FixedLenBytes length => H_fixed_bytes length
  | FixedLenStr length enc autopad => H_fixed_str length enc autopad
  | Vec type_ max_length length_type =>
    H_vec type_ max_length length_type (PodType_nested_ind type_)
  | Bytes max_length length_type => H_bytes max_length length_type
  | Str max_length length_type enc => H_str max_length length_type enc
  end.

End PodType_induction.

(** ** Types with tags: atomic integers, [AutoTagType] and dataclasses *)

(** The tag type a format installs. *)
Definition tag_type_of (format : Format) : option atomic :=
  match format with
  | FORMAT_BORSCH => Some U8
  | FORMAT_ZERO_COPY => Some U64
  | _ => None
  end.

(** Descriptors built from atomic integers, [AutoTagType] and dataclasses
    (the classes whose hooks take the keywords the catalog passes), with
    the field names of each dataclass distinct. *)
Fixpoint tagged (T : PodType) : bool :=
  match T with
  | Atomic _ => true
  | AutoTagType => true
  | Dataclass _ fields =>
    forallb (fun f => tagged (snd f)) fields && distinct (map fst fields)
  | _ => false
  end.

(** The integers an atomic type can hold. *)
Definition in_range (a : atomic) (n : Z) : bool :=
  (0 <=? n) && (n <? 2 ^ (8 * Z.of_nat (atomic_size a))).

(** The values of a tagged descriptor when tags are of type [tag]. *)
Fixpoint legal_under (tag : atomic) (T : PodType) (v : value) {struct T}
  : bool :=
  match T, v with
  | Atomic a, VInt n => in_range a n
  | AutoTagType, VInt n => in_range tag n
  | Dataclass name fields, VObj cls attrs =>
    String.eqb cls name && legal_fields (legal_under tag) fields attrs
  | _, _ => false
  end.

(** Their layout: every integer little-endian at the width of its type,
    tags at the width of [tag], fields in order. *)
Fixpoint wire_under (tag : atomic) (T : PodType) (v : value) {struct T}
  : bytes :=
  match T, v with
  | Atomic a, VInt n => to_little_endian (atomic_size a) n
  | AutoTagType, VInt n => to_little_endian (atomic_size tag) n
  | Dataclass _ fields, VObj _ attrs => wire_fields (wire_under tag) fields attrs
  | _, _ => []
  end.

(** The number of bytes of that layout. *)
Fixpoint size_under (tag : atomic) (T : PodType) : nat :=
  match T with
  | Atomic a => atomic_size a
  | AutoTagType => atomic_size tag
  | Dataclass _ fields =>
    list_sum (map (fun f => size_under tag (snd f)) fields)
  | _ => O
  end.

(** The exception of [calc_max_size] when no converter resolves. *)
Definition size_error : exn :=
  no_converter "No converter was able to calculate maximum size of type".


(** A step that only appends to a buffer written front to back, whether
    it returns or raises. *)
Definition appends {A} (m : M A) : Prop :=
  forall w, at_end w ->
            at_end (snd (m w)) /\
            exists b, buffer_data (snd (m w)) = buffer_data w ++ b.

(** A step that leaves the data of the buffer alone and moves the cursor
    forward only, and not past the end of the data. *)
Definition reads_forward {A} (m : M A) : Prop :=
  forall w,
    buffer_data (snd (m w)) = buffer_data w /\
    (buffer_pos w <= buffer_pos (snd (m w)))%nat /\
    (buffer_pos (snd (m w))
     <= Nat.max (buffer_pos w) (List.length (buffer_data w)))%nat.

(** The layouts of the elements of a list, one after the other. *)
Definition wire_elements (T : PodType) (elems : list value) : bytes :=
  flat_map (wire T) elems.

(** The length prefix of a variable container. *)
Definition length_prefix (length_type : atomic) (n : nat) : bytes :=
  to_little_endian (atomic_size length_type) (Z.of_nat n).

(** The code points of a string before its first zero code point. *)
Fixpoint before_zero (s : pystr) : pystr :=
  match s with
  | [] => []
  | c :: r => if (c =? 0)%N then [] else c :: before_zero r
  end.

(** Descriptors of fixed size: no [AutoTagType] and no variable container
    anywhere inside. *)
Fixpoint fixed_size (T : PodType) : bool :=
  match T with
  | Atomic _ => true
  | AutoTagType => false
  | Dataclass _ fields => forallb (fun f => fixed_size (snd f)) fields
  | FixedLenArray type_ _ => fixed_size type_
  | FixedLenBytes _ => true
  | FixedLenStr _ _ _ => true
  | Vec _ _ _ => false
  | Bytes _ _ => false
  | Str _ _ _ => false
  end.

(** ** The JSON hooks of the byte containers ([_to_dict], [_from_dict]) *)

(** [bytes(raw)] on the elements of a list, in order: each must be an
    integer of [range(256)]. *)
Fixpoint bytes_of_ints (l : list value) : result bytes :=
  match l with
  | [] => Ok []
  | VInt n :: r =>
    if (0 <=? n) && (n <? 256)
    then result_bind (bytes_of_ints r) (fun b =>
         Ok (byte_of_N (Z.to_N n) :: b))
    else Raise (ValueError "bytes must be in range(0, 256)")
  | _ :: _ => Raise (TypeError "object cannot be interpreted as an integer")
  end.

(** [bytes(raw)]: a copy of a byte string, the bytes of a list of integers,
    or that many zero bytes for an integer. *)
Definition py_bytes (raw : value) : result bytes :=
  match raw with
  | VBytes b => Ok b
  | VList l => bytes_of_ints l
  | VInt n =>
    if n <? 0 then Raise (ValueError "negative count")
    else if 2 ^ 63 <=? n
    then Raise (OverflowError "cannot fit 'int' into an index-sized integer")
    else Ok (repeat x00 (Z.to_nat n))
  | VStr _ => Raise (TypeError "string argument without an encoding")
  | VNone | VObj _ _ => Raise (TypeError "cannot convert object to bytes")
  end.

(** [list(obj)] *)
Definition py_list (obj : value) : result value :=
  result_bind (py_iter obj) (fun l => Ok (VList l)).

Definition fixed_len_bytes_to_dict (obj : value) : result value :=
  py_list obj.

Definition fixed_len_bytes_from_dict (raw : value) : result value :=
  result_bind (py_bytes raw) (fun b => Ok (VBytes b)).

Definition var_len_bytes_to_dict (obj : value) : result value :=
  py_list obj.

Definition var_len_bytes_from_dict (raw : value) : result value :=
  result_bind (py_bytes raw) (fun b => Ok (VBytes b)).

(** * Properties *)

(** ** Bytes and little-endian integers *)

Lemma Z_of_byte_of_Z (z : Z) : Z_of_byte (byte_of_Z z) = z mod 256.
Proof.
  unfold Z_of_byte, byte_of_Z, byte_of_N.
  assert (Hz : 0 <= z mod 256 < 256) by (apply Z.mod_pos_bound; lia).
  set (n := Z.to_N (z mod 256)).
  assert (Hn : (n mod 256 = n)%N) by (apply N.mod_small; subst n; lia).
  rewrite Hn.
  destruct (Byte.of_N n) as [b|] eqn:E.
  - apply Byte.to_of_N in E. rewrite E. subst n. lia.
  - apply Byte.of_N_None_iff in E. subst n. lia.
Qed.

Lemma Z_of_byte_range (b : byte) : 0 <= Z_of_byte b < 256.
Proof.
  unfold Z_of_byte. pose proof (Byte.to_N_bounded b). lia.
Qed.

Lemma to_little_endian_length (w : nat) (z : Z) :
  List.length (to_little_endian w z) = w.
Proof.
  revert z. induction w as [|w IH]; intros z; simpl; [reflexivity|].
  now rewrite IH.
Qed.

Lemma from_to_little_endian (w : nat) (z : Z) :
  from_little_endian (to_little_endian w z) = z mod 256 ^ Z.of_nat w.
Proof.
  revert z. induction w as [|w IH]; intros z.
  - simpl. now rewrite Z.mod_1_r.
  - cbn [to_little_endian from_little_endian].
    rewrite Z_of_byte_of_Z, IH.
    replace (Z.of_nat (S w)) with (1 + Z.of_nat w) by lia.
    rewrite Z.pow_add_r by lia. rewrite Z.pow_1_r.
    rewrite Z.rem_mul_r by lia. reflexivity.
Qed.

Lemma from_to_little_endian_small (w : nat) (z : Z) :
  0 <= z < 2 ^ (8 * Z.of_nat w) ->
  from_little_endian (to_little_endian w z) = z.
Proof.
  intros Hz. rewrite from_to_little_endian.
  apply Z.mod_small.
  replace (256 ^ Z.of_nat w) with (2 ^ (8 * Z.of_nat w)); [exact Hz|].
  rewrite Z.pow_mul_r by lia. reflexivity.
Qed.

Lemma ljust_length (b : bytes) (length : nat) :
  List.length (ljust b length) = Nat.max (List.length b) length.
Proof.
  unfold ljust. rewrite length_app, repeat_length. lia.
Qed.

Lemma write_at_end (d b : bytes) : write_at d (List.length d) b = d ++ b.
Proof.
  unfold write_at. destruct b as [|x b]; [now rewrite app_nil_r|].
  rewrite firstn_all, Nat.sub_diag, skipn_all2 by (simpl; lia).
  simpl. now rewrite app_nil_r.
Qed.

(** ** The tag slot is preserved by every step *)

Lemma keeps_tag_ret {A} (a : A) : keeps_tag (ret a).
Proof. intros w; reflexivity. Qed.

Lemma keeps_tag_raise {A} (e : exn) : keeps_tag (@raise A e).
Proof. intros w; reflexivity. Qed.

Lemma keeps_tag_lift {A} (r : result A) : keeps_tag (lift r).
Proof. intros w; reflexivity. Qed.

Lemma keeps_tag_bind {A B} (m : M A) (k : A -> M B) :
  keeps_tag m -> (forall a, keeps_tag (k a)) -> keeps_tag (bind m k).
Proof.
  intros Hm Hk w. unfold bind.
  specialize (Hm w). destruct (m w) as [[a|e] w']; simpl in *.
  - now rewrite Hk.
  - exact Hm.
Qed.

Lemma keeps_tag_try_except {A} (m : M A) (h : exn -> exn) :
  keeps_tag m -> keeps_tag (try_except m h).
Proof.
  intros Hm w. unfold try_except.
  specialize (Hm w). destruct (m w) as [[a|e] w']; exact Hm.
Qed.

Lemma keeps_tag_manager {A} (t : atomic) (body : M A) :
  keeps_tag (AutoTagTypeValueManager t body).
Proof.
  intros w. unfold AutoTagTypeValueManager.
  destruct (body (set_tag (Some t) w)) as [r w']. reflexivity.
Qed.

Lemma keeps_tag_negotiate {A} (format : Format) (step : M A) :
  keeps_tag step -> keeps_tag (negotiate format step).
Proof.
  intros Hs. destruct format; simpl;
    auto using keeps_tag_manager, keeps_tag_raise.
Qed.

Lemma keeps_tag_for_each {A} (l : list A) (body : A -> M unit) :
  (forall a, keeps_tag (body a)) -> keeps_tag (for_each l body).
Proof.
  intros Hb. induction l as [|a l IH]; simpl.
  - apply keeps_tag_ret.
  - apply keeps_tag_bind; auto.
Qed.

Lemma keeps_tag_collect (n : nat) (body : M value) :
  keeps_tag body -> keeps_tag (collect n body).
Proof.
  intros Hb. induction n as [|n IH]; simpl.
  - apply keeps_tag_ret.
  - apply keeps_tag_bind; [exact Hb|intros v].
    apply keeps_tag_bind; [exact IH|intros r]. apply keeps_tag_ret.
Qed.

Lemma keeps_tag_buffer_write (b : bytes) : keeps_tag (buffer_write b).
Proof. intros w; reflexivity. Qed.

Lemma keeps_tag_buffer_read (n : nat) : keeps_tag (buffer_read n).
Proof. intros w; reflexivity. Qed.

Lemma keeps_tag_buffer_read_int (n : Z) : keeps_tag (buffer_read_int n).
Proof. intros w. unfold buffer_read_int. destruct (n <? 0); reflexivity. Qed.

Lemma keeps_tag_py_write (obj : value) : keeps_tag (py_write obj).
Proof.
  destruct obj; simpl; auto using keeps_tag_raise, keeps_tag_buffer_write.
Qed.

Lemma keeps_tag_auto_or (format : Format) (max_size : option atomic -> result Z) :
  keeps_tag (auto_or format max_size).
Proof.
  destruct format; simpl; auto using keeps_tag_ret.
  apply keeps_tag_manager.
Qed.

Create HintDb keeps_tag_db.
#[local] Hint Resolve keeps_tag_ret keeps_tag_raise keeps_tag_lift
  keeps_tag_try_except keeps_tag_manager keeps_tag_negotiate
  keeps_tag_for_each keeps_tag_collect keeps_tag_buffer_write
  keeps_tag_buffer_read keeps_tag_buffer_read_int keeps_tag_py_write
  keeps_tag_auto_or : keeps_tag_db.

Ltac keeps_tag_step :=
  repeat (first
    [ solve [auto with keeps_tag_db]
    | apply keeps_tag_bind; [|intros ?] ]).

Lemma keeps_tag_atomic_to_bytes_partial (a : atomic) (obj : value) :
  keeps_tag (atomic_to_bytes_partial a obj).
Proof.
  unfold atomic_to_bytes_partial. destruct obj; auto with keeps_tag_db.
  destruct (_ && _); auto with keeps_tag_db.
Qed.

Lemma keeps_tag_atomic_pack_partial (a : atomic) (obj : value) (format : Format) :
  keeps_tag (atomic_pack_partial a obj format).
Proof.
  unfold atomic_pack_partial. apply keeps_tag_negotiate.
  keeps_tag_step. apply keeps_tag_atomic_to_bytes_partial.
Qed.

Lemma keeps_tag_atomic_from_bytes_partial (a : atomic) :
  keeps_tag (atomic_from_bytes_partial a).
Proof. unfold atomic_from_bytes_partial. keeps_tag_step. Qed.

Lemma keeps_tag_atomic_unpack_partial (a : atomic) (format : Format) :
  keeps_tag (atomic_unpack_partial a format).
Proof.
  unfold atomic_unpack_partial. keeps_tag_step.
  apply keeps_tag_negotiate. keeps_tag_step.
Qed.

Lemma keeps_tag_AutoTagType_to_bytes_partial (obj : value) (format : Format) :
  keeps_tag (AutoTagType_to_bytes_partial obj format).
Proof.
  intros w. unfold AutoTagType_to_bytes_partial.
  destruct (TAG_TYPE w) as [ty|] eqn:E; [|exact E].
  now rewrite keeps_tag_atomic_pack_partial.
Qed.

Lemma keeps_tag_AutoTagType_from_bytes_partial (format : Format) :
  keeps_tag (AutoTagType_from_bytes_partial format).
Proof.
  intros w. unfold AutoTagType_from_bytes_partial.
  destruct (TAG_TYPE w) as [ty|] eqn:E; [|exact E].
  now rewrite keeps_tag_atomic_unpack_partial.
Qed.

Lemma keeps_tag_read_length (length_type : atomic) (max_length : Z) :
  keeps_tag (read_length length_type max_length).
Proof.
  unfold read_length.
  apply keeps_tag_bind; [apply keeps_tag_atomic_unpack_partial|intros v].
  destruct v; auto with keeps_tag_db.
  destruct (_ >? _); auto with keeps_tag_db.
Qed.

Lemma keeps_tag_write_length (length_type : atomic) (max_length : Z)
    (obj : value) :
  keeps_tag (write_length length_type max_length obj).
Proof.
  unfold write_length. apply keeps_tag_bind; [auto with keeps_tag_db|intros n].
  destruct (_ >? _); [auto with keeps_tag_db|].
  apply keeps_tag_atomic_pack_partial.
Qed.

#[local] Hint Resolve keeps_tag_atomic_to_bytes_partial
  keeps_tag_atomic_pack_partial keeps_tag_atomic_from_bytes_partial
  keeps_tag_atomic_unpack_partial keeps_tag_AutoTagType_to_bytes_partial
  keeps_tag_AutoTagType_from_bytes_partial keeps_tag_read_length
  keeps_tag_write_length : keeps_tag_db.

Lemma keeps_tag_fields_to_bytes_partial
    (pack_ : PodType -> value -> M unit) (name : string)
    (fields : list (string * PodType)) (obj : value) :
  Forall (fun f => forall v, keeps_tag (pack_ (snd f) v)) fields ->
  keeps_tag (fields_to_bytes_partial pack_ name fields obj).
Proof.
  induction 1 as [|f fs Hf _ IH]; simpl; [apply keeps_tag_ret|].
  apply keeps_tag_bind; [|intros _; exact IH].
  unfold field_to_bytes_partial.
  destruct (py_getattr obj (fst f)); auto with keeps_tag_db.
Qed.

Lemma keeps_tag_fields_from_bytes_partial
    (unpack_ : PodType -> M value) (name : string)
    (fields : list (string * PodType)) :
  Forall (fun f => keeps_tag (unpack_ (snd f))) fields ->
  keeps_tag (fields_from_bytes_partial unpack_ name fields).
Proof.
  induction 1 as [|f fs Hf _ IH]; simpl; [apply keeps_tag_ret|].
  unfold field_from_bytes_partial. keeps_tag_step.
Qed.

Lemma keeps_tag_pack_partial (T : PodType) :
  forall obj format, keeps_tag (pack_partial T obj format).
Proof.
  induction T using PodType_nested_ind; intros obj format;
    cbn [pack_partial]; apply keeps_tag_negotiate;
    (apply keeps_tag_bind; [auto with keeps_tag_db|intros env]);
    (apply keeps_tag_bind; [auto with keeps_tag_db|intros o]).
  - auto with keeps_tag_db.
  - auto with keeps_tag_db.
  - apply keeps_tag_fields_to_bytes_partial.
    eapply Forall_impl; [|eassumption]. intros f Hf v. apply Hf.
  - unfold fixed_len_array_to_bytes_partial. keeps_tag_step.
  - unfold fixed_len_bytes_to_bytes_partial. keeps_tag_step.
  - unfold fixed_len_str_to_bytes_partial. keeps_tag_step.
    destruct (_ <? _)%nat; [auto with keeps_tag_db|].
    destruct (_ && _); auto with keeps_tag_db.
  - unfold var_len_array_to_bytes_partial. keeps_tag_step.
  - unfold var_len_bytes_to_bytes_partial. keeps_tag_step.
  - unfold var_len_str_to_bytes_partial. keeps_tag_step.
Qed.

Lemma keeps_tag_unpack_partial (T : PodType) :
  forall format, keeps_tag (unpack_partial T format).
Proof.
  induction T using PodType_nested_ind; intros format;
    cbn [unpack_partial];
    (apply keeps_tag_bind; [auto with keeps_tag_db|intros format']);
    apply keeps_tag_negotiate;
    (apply keeps_tag_bind; [auto with keeps_tag_db|intros env]);
    (apply keeps_tag_bind; [auto with keeps_tag_db|intros _]).
  - auto with keeps_tag_db.
  - auto with keeps_tag_db.
  - apply keeps_tag_bind; [|auto with keeps_tag_db].
    apply keeps_tag_fields_from_bytes_partial.
    eapply Forall_impl; [|eassumption]. intros f Hf. apply Hf.
  - unfold fixed_len_array_from_bytes_partial. keeps_tag_step.
  - unfold fixed_len_bytes_from_bytes_partial. keeps_tag_step.
  - unfold fixed_len_str_from_bytes_partial. keeps_tag_step.
  - unfold var_len_array_from_bytes_partial. keeps_tag_step.
  - unfold var_len_bytes_from_bytes_partial. keeps_tag_step.
  - unfold var_len_str_from_bytes_partial. keeps_tag_step.
Qed.

(** ** Calls through the self-converter *)

Lemma call_to_bytes_conforming (T : PodType) (obj : value) (format : Format) :
  is_container T = false ->
  result_bind (call_hook T TO_BYTES_PARTIAL [ABuffer; AValue obj]
                         (format_kw format)) env_obj = Ok obj.
Proof. destruct T; intros H; try discriminate H; reflexivity. Qed.

Lemma call_from_bytes_conforming (T : PodType) (format : Format) :
  is_container T = false ->
  result_bind (call_hook T FROM_BYTES_PARTIAL [ABuffer] (format_kw format))
              env_buffer = Ok tt.
Proof. destruct T; intros H; try discriminate H; reflexivity. Qed.

(** The container hooks are declared as [(cls, obj, buffer)] and
    [(cls, buffer)], without [**kwargs]; the self-converter always passes
    [format=...], so binding the arguments fails. *)
Lemma call_to_bytes_container (T : PodType) (obj : value) (format : Format) :
  is_container T = true ->
  call_hook T TO_BYTES_PARTIAL [ABuffer; AValue obj] (format_kw format)
  = Raise (TypeError "got an unexpected keyword argument").
Proof. destruct T; intros H; try discriminate H; reflexivity. Qed.

Lemma call_from_bytes_container (T : PodType) (format : Format) :
  is_container T = true ->
  call_hook T FROM_BYTES_PARTIAL [ABuffer] (format_kw format)
  = Raise (TypeError "got an unexpected keyword argument").
Proof. destruct T; intros H; try discriminate H; reflexivity. Qed.

Lemma world_eta (w : world) :
  mkWorld (buffer_data w) (buffer_pos w) (TAG_TYPE w) = w.
Proof. destruct w; reflexivity. Qed.

Lemma atomic_to_bytes_partial_tag (a : atomic) (obj : value) (t : option atomic)
    (w : world) :
  atomic_to_bytes_partial a obj (set_tag t w)
  = (fst (atomic_to_bytes_partial a obj w),
     set_tag t (snd (atomic_to_bytes_partial a obj w))).
Proof.
  unfold atomic_to_bytes_partial. destruct obj; try reflexivity.
  destruct (_ && _); reflexivity.
Qed.

(** A body that ignores the slot and leaves it alone runs under the
    manager as it runs without it. *)
Lemma manager_transparent {A} (t : atomic) (body : M A) (w : world) :
  body (set_tag (Some t) w)
  = (fst (body w), set_tag (Some t) (snd (body w))) ->
  TAG_TYPE (snd (body w)) = TAG_TYPE w ->
  AutoTagTypeValueManager t body w = body w.
Proof.
  intros Hind Hkeep. unfold AutoTagTypeValueManager. rewrite Hind.
  destruct (body w) as [r w']. simpl in *. rewrite <- Hkeep.
  destruct w'; reflexivity.
Qed.

(** Through the catalog an atomic pack step is the hook itself: the
    negotiation only installs and restores the tag slot. *)
Lemma atomic_pack_partial_concrete (a : atomic) (obj : value)
    (format : Format) (w : world) :
  concrete format = true ->
  atomic_pack_partial a obj format w = atomic_to_bytes_partial a obj w.
Proof.
  intros Hf. unfold atomic_pack_partial.
  destruct format; try discriminate Hf; try reflexivity;
    (apply (manager_transparent _ (atomic_to_bytes_partial a obj));
     [apply atomic_to_bytes_partial_tag
     |apply keeps_tag_atomic_to_bytes_partial]).
Qed.

Lemma atomic_unpack_partial_any (a : atomic) (format : Format) (w : world) :
  (concrete format = true \/ format = FORMAT_AUTO) ->
  atomic_unpack_partial a format w = atomic_from_bytes_partial a w.
Proof.
  intros [Hf|Hf]; [destruct format; try discriminate Hf|subst format];
    try reflexivity.
  unfold atomic_unpack_partial, auto_or, detect_format, atomic_calc_max_size.
  cbn. unfold AutoTagTypeValueManager, bind. cbn.
  destruct (Z.of_nat (atomic_size a) =? _); reflexivity.
Qed.

(** ** Defaults of the variable containers *)

(** C3 (the code departs from the claim).  When [max_length] is not given,
    every variable-container generator sets it to 2 raised to
    [calc_max_size(length_type)], which is the width of the length type in
    bytes, not in bits: with the default [U32] length type the default
    [max_length] is 2^4 = 16 and not 2^32. *)
Theorem default_max_length_uses_byte_width :
  forall (type_ : PodType) (enc : encoding) (tag : option atomic),
    _var_len_array type_ None None tag = Ok (Vec type_ 16 U32) /\
    _var_len_bytes None None tag = Ok (Bytes 16 U32) /\
    _var_len_str None None enc tag = Ok (Str 16 U32 enc) /\
    (forall length_type,
        default_max_length None length_type tag
        = Ok (2 ^ Z.of_nat (atomic_size length_type))) /\
    8 * Z.of_nat (atomic_size U32) = 32 /\
    16 <> 2 ^ 32.
Proof.
  intros type_ enc tag. repeat split; try reflexivity.
  intros H. discriminate H.
Qed.

(** ** The static check of the variable containers *)

(** C4 (the code departs from the claim).  Asking the catalog whether a
    variable array is static raises [AttributeError]: [_var_len_array]
    defines its check as [is_static], while the self-converter looks up
    [_is_static].  Variable bytes and variable strings, which define
    [_is_static], answer false. *)
Theorem var_len_array_static_check_unreachable :
  forall (type_ : PodType) (max_length : Z) (length_type : atomic)
         (enc : encoding),
    is_static (Vec type_ max_length length_type)
    = Raise (AttributeError IS_STATIC) /\
    assoc "is_static" (class_dict (Vec type_ max_length length_type))
    = Some (mkSig [] false) /\
    is_static (Bytes max_length length_type) = Ok false /\
    is_static (Str max_length length_type enc) = Ok false.
Proof. intros. repeat split. Qed.

(** ** Fixed-length bytes *)

(** C10.  [FixedLenBytes[N]] packs a byte string longer than [N] without an
    error and without truncation: all its bytes are written, more than the
    declared size [N]; an input of at most [N] bytes is written zero-padded
    to exactly [N] bytes. *)
Theorem fixed_len_bytes_pack_never_truncates :
  forall (length : nat) (b : bytes) (w : world) (tag : option atomic),
    is_static (FixedLenBytes length) = Ok true /\
    calc_max_size (FixedLenBytes length) tag = Ok (Z.of_nat length) /\
    ((length < List.length b)%nat ->
     fixed_len_bytes_to_bytes_partial length (VBytes b) w
     = (Ok tt, set_buffer (write_at (buffer_data w) (buffer_pos w) b)
                          (buffer_pos w + List.length b) w) /\
     fixed_len_bytes_to_bytes_partial length (VBytes b) (mkWorld [] 0 tag)
     = (Ok tt, mkWorld b (List.length b) tag)) /\
    ((List.length b <= length)%nat ->
     fixed_len_bytes_to_bytes_partial length (VBytes b) w
     = (Ok tt, set_buffer
                 (write_at (buffer_data w) (buffer_pos w)
                           (b ++ repeat x00 (length - List.length b)))
                 (buffer_pos w + length) w) /\
     List.length (b ++ repeat x00 (length - List.length b)) = length).
Proof.
  intros length b w tag.
  split; [reflexivity|]. split; [reflexivity|].
  unfold fixed_len_bytes_to_bytes_partial, bind, lift, buffer_write; simpl.
  split; intros Hlen.
  - unfold ljust. replace (length - List.length b)%nat with O by lia.
    simpl. rewrite app_nil_r. split; [reflexivity|].
    unfold set_buffer; simpl.
    pose proof (write_at_end [] b) as E. simpl in E. rewrite E. reflexivity.
  - assert (Hl : List.length (ljust b length) = length)
      by (rewrite ljust_length; lia).
    unfold ljust in *. split; [now rewrite Hl|exact Hl].
Qed.

Lemma fixed_len_bytes_pack_never_truncates_witness :
  fixed_len_bytes_to_bytes_partial 2 (VBytes [x01; x02; x03]) (mkWorld [] 0 None)
  = (Ok tt, mkWorld [x01; x02; x03] 3 None)
  /\ fixed_len_bytes_to_bytes_partial 4 (VBytes [x01; x02]) (mkWorld [] 0 None)
     = (Ok tt, mkWorld [x01; x02; x00; x00] 4 None).
Proof.
  split.
  - apply (fixed_len_bytes_pack_never_truncates
             2 [x01; x02; x03] (mkWorld [] 0 None) None).
    simpl. lia.
  - destruct (fixed_len_bytes_pack_never_truncates
                4 [x01; x02] (mkWorld [] 0 None) None)
      as (_ & _ & _ & H).
    apply H. simpl. lia.
Defined.

(** ** Fixed-length strings *)

Lemma first_zero_le (b : bytes) : (first_zero b <= List.length b)%nat.
Proof.
  induction b as [|x b IH]; simpl; [lia|].
  destruct (Byte.eqb x x00); simpl; lia.
Qed.

Lemma first_zero_prefix (b : bytes) : ~ In x00 (firstn (first_zero b) b).
Proof.
  induction b as [|x b IH]; simpl; [tauto|].
  destruct (Byte.eqb x x00) eqn:E; simpl; [tauto|].
  intros [H|H]; [|exact (IH H)].
  subst x. discriminate E.
Qed.

Lemma first_zero_hit (b : bytes) :
  (first_zero b < List.length b)%nat -> nth (first_zero b) b x01 = x00.
Proof.
  induction b as [|x b IH]; simpl; [lia|].
  destruct (Byte.eqb x x00) eqn:E; intros H.
  - apply Byte.byte_dec_bl in E. exact E.
  - apply IH. lia.
Qed.

Lemma encode_char_nonempty (enc : encoding) (c : N) (b : bytes) :
  encode_char enc c = Some b -> (1 <= List.length b)%nat.
Proof.
  destruct enc; simpl; unfold utf8_encode_char;
    repeat match goal with
           | |- context [if ?c then _ else _] => destruct c
           end;
    intros H; inversion H; simpl; lia.
Qed.

Lemma encode_str_length (enc : encoding) (s : pystr) (b : bytes) :
  encode_str enc s = Some b -> (List.length s <= List.length b)%nat.
Proof.
  revert b. induction s as [|c s IH]; intros b; simpl.
  - intros H; inversion H; simpl; lia.
  - destruct (encode_char enc c) as [bc|] eqn:Ec; [|discriminate].
    destruct (encode_str enc s) as [bs|]; [|discriminate].
    intros H; inversion H; subst.
    apply encode_char_nonempty in Ec. specialize (IH bs eq_refl).
    rewrite length_app. lia.
Qed.

(** C9.  The fixed string codec ([_fixed_len_str], called with its own
    parameters).  Packing raises [ValueError] when the encoding is longer
    than [N], and when it is shorter and [autopad] is off; otherwise the
    encoding is written zero-padded to exactly [N] bytes.  A string of more
    than [N] characters never packs.  Unpacking reads [N] bytes (what is
    left of the buffer when it holds fewer) and, with [autopad], cuts them at
    the first zero byte before decoding. *)
Theorem fixed_len_str_codec :
  forall (length : nat) (enc : encoding) (autopad : bool) (s : pystr)
         (w : world),
    let to_bytes := fixed_len_str_to_bytes_partial length enc autopad (VStr s) in
    let chunk := firstn length (skipn (buffer_pos w) (buffer_data w)) in
    (forall encoded, encode_str enc s = Some encoded ->
       ((length < List.length encoded)%nat ->
        to_bytes w = (Raise (ValueError "len(value) > length"), w)) /\
       ((List.length encoded < length)%nat -> autopad = false ->
        to_bytes w = (Raise (ValueError "len(value) < size"), w)) /\
       ((List.length encoded <= length)%nat ->
        autopad = true \/ List.length encoded = length ->
        to_bytes w
        = (Ok tt,
           set_buffer
             (write_at (buffer_data w) (buffer_pos w)
                       (encoded ++ repeat x00 (length - List.length encoded)))
             (buffer_pos w + length) w) /\
        List.length (encoded ++ repeat x00 (length - List.length encoded))
        = length)) /\
    ((length < List.length s)%nat -> exists e, to_bytes w = (Raise e, w)) /\
    fixed_len_str_from_bytes_partial length enc autopad w
    = (py_decode (if autopad then firstn (first_zero chunk) chunk else chunk) enc,
       set_buffer (buffer_data w) (buffer_pos w + List.length chunk) w) /\
    ((buffer_pos w + length <= List.length (buffer_data w))%nat ->
     List.length chunk = length) /\
    ~ In x00 (firstn (first_zero chunk) chunk) /\
    ((first_zero chunk < List.length chunk)%nat ->
     nth (first_zero chunk) chunk x01 = x00).
Proof.
  intros length enc autopad s w to_bytes chunk.
  assert (Hto : forall encoded, encode_str enc s = Some encoded ->
            to_bytes w
            = (if (length <? List.length encoded)%nat
               then raise (ValueError "len(value) > length")
               else if (List.length encoded <? length)%nat && negb autopad
                    then raise (ValueError "len(value) < size")
                    else buffer_write (ljust encoded length)) w).
  { intros encoded He. subst to_bytes.
    unfold fixed_len_str_to_bytes_partial, bind, lift, py_encode.
    rewrite He. reflexivity. }
  split; [|split; [|split; [|split; [|split]]]].
  - intros encoded He. rewrite (Hto encoded He). repeat split.
    + intros Hlt. apply Nat.ltb_lt in Hlt. now rewrite Hlt.
    + intros Hlt Hpad. subst autopad.
      destruct (length <? List.length encoded)%nat eqn:E1;
        [apply Nat.ltb_lt in E1; lia|].
      apply Nat.ltb_lt in Hlt. now rewrite Hlt.
    + destruct (length <? List.length encoded)%nat eqn:E1;
        [apply Nat.ltb_lt in E1; lia|].
      assert (E2 : (List.length encoded <? length)%nat && negb autopad = false).
      { destruct H0 as [->|Heq]; [apply andb_false_r|].
        rewrite Heq, Nat.ltb_irrefl. reflexivity. }
      rewrite E2. unfold buffer_write.
      assert (Hl : List.length (ljust encoded length) = length)
        by (rewrite ljust_length; lia).
      rewrite Hl. reflexivity.
    + pose proof (ljust_length encoded length) as Hl. unfold ljust in Hl. lia.
  - intros Hlen. subst to_bytes.
    destruct (encode_str enc s) as [encoded|] eqn:He.
    + rewrite (Hto encoded eq_refl).
      apply encode_str_length in He.
      assert (E : (length <? List.length encoded)%nat = true)
        by (apply Nat.ltb_lt; lia).
      rewrite E. eexists; reflexivity.
    + unfold fixed_len_str_to_bytes_partial, bind, lift, py_encode.
      rewrite He. eexists; reflexivity.
  - unfold fixed_len_str_from_bytes_partial, bind, lift, buffer_read.
    fold chunk. destruct autopad; reflexivity.
  - intros Hfit. subst chunk. rewrite length_firstn, length_skipn. lia.
  - apply first_zero_prefix.
  - apply first_zero_hit.
Qed.

Lemma fixed_len_str_codec_witness :
  let hi := pystr_of_string "hi" in
  let packed := [x68; x69; x00; x00; x00; x00; x00; x00] in
  fixed_len_str_to_bytes_partial 8 UTF_8 true (VStr hi) (mkWorld [] 0 None)
  = (Ok tt, mkWorld packed 8 None) /\
  fixed_len_str_from_bytes_partial 8 UTF_8 true (mkWorld packed 0 None)
  = (Ok (VStr hi), mkWorld packed 8 None) /\
  exists e,
    fixed_len_str_to_bytes_partial 8 UTF_8 true
      (VStr (pystr_of_string "123456789")) (mkWorld [] 0 None)
    = (Raise e, mkWorld [] 0 None).
Proof.
  cbv zeta. split; [|split].
  - destruct (fixed_len_str_codec 8 UTF_8 true (pystr_of_string "hi")
                (mkWorld [] 0 None)) as (H & _).
    destruct (H [x68; x69] eq_refl) as (_ & _ & H3).
    apply H3; simpl; [lia|left; reflexivity].
  - destruct (fixed_len_str_codec 8 UTF_8 true (pystr_of_string "hi")
                (mkWorld [x68; x69; x00; x00; x00; x00; x00; x00] 0 None))
      as (_ & _ & H & _).
    exact H.
  - destruct (fixed_len_str_codec 8 UTF_8 true (pystr_of_string "123456789")
                (mkWorld [] 0 None)) as (_ & H & _).
    apply H. simpl. lia.
Defined.

(** ** What the catalog does at a container type *)

Lemma set_tag_restore (t : option atomic) (w : world) :
  set_tag (TAG_TYPE w) (set_tag t w) = w.
Proof. destruct w; reflexivity. Qed.

Lemma negotiate_raise {A} (format : Format) (e : exn) (k : environment -> M A)
    (w : world) :
  concrete format = true ->
  negotiate format (bind (lift (Raise e)) k) w = (Raise e, w).
Proof.
  intros Hf. destruct format; try discriminate Hf;
    unfold negotiate, AutoTagTypeValueManager, bind, lift; simpl;
    try rewrite set_tag_restore; reflexivity.
Qed.

Lemma negotiate_invalid {A} (format : Format) (step : M A) (w : world) :
  concrete format = false ->
  negotiate format step w = (Raise format_error, w).
Proof. intros Hf. destruct format; try discriminate Hf; reflexivity. Qed.

Lemma container_pack_partial (T : PodType) (obj : value) (format : Format)
    (w : world) :
  is_container T = true ->
  pack_partial T obj format w
  = (Raise (if concrete format then keyword_error else format_error), w).
Proof.
  intros HT. destruct (concrete format) eqn:Hf.
  - destruct T; try discriminate HT; cbn [pack_partial];
      rewrite call_to_bytes_container by reflexivity;
      apply negotiate_raise; exact Hf.
  - destruct T; try discriminate HT; cbn [pack_partial];
      apply negotiate_invalid; exact Hf.
Qed.

Lemma fields_calc_max_size_some (tag : atomic)
    (fields : list (string * PodType)) :
  Forall (fun f => exists n, calc_max_size (snd f) (Some tag) = Ok n) fields ->
  forall total, exists n,
    fields_calc_max_size (fun ty => calc_max_size ty (Some tag)) fields total
    = Ok n.
Proof.
  induction 1 as [|f fs [n Hn] _ IH]; intros total; simpl.
  - now exists total.
  - rewrite Hn. simpl. apply IH.
Qed.

(** With a tag type installed, the maximum size of every descriptor is
    defined. *)
Lemma calc_max_size_some (T : PodType) (tag : atomic) :
  exists n, calc_max_size T (Some tag) = Ok n.
Proof.
  induction T using PodType_nested_ind; cbn [calc_max_size];
    try (eexists; reflexivity).
  - apply (fields_calc_max_size_some tag fields H 0).
  - destruct IHT as [n Hn]. cbn. rewrite Hn. eexists; reflexivity.
  - destruct IHT as [n Hn]. cbn. rewrite Hn. eexists; reflexivity.
Qed.

(** The probe of [FORMAT_AUTO]: the size is computed with [U64] installed
    and compared with the offset of the end of the buffer; cursor and slot
    are back where they were. *)
Lemma detect_format_ok (max_size : option atomic -> result Z) (n : Z)
    (w : world) :
  max_size (Some U64) = Ok n ->
  detect_format max_size w
  = (Ok (if n =? Z.of_nat (List.length (buffer_data w))
         then FORMAT_ZERO_COPY else FORMAT_BORSCH), w).
Proof.
  intros Hn. unfold detect_format, AutoTagTypeValueManager, bind, tell,
    seek_end, seek, ret. simpl. rewrite Hn. simpl.
  destruct w; reflexivity.
Qed.

Lemma bind_ok {A B} (m : M A) (k : A -> M B) (w w' : world) (a : A) :
  m w = (Ok a, w') -> bind m k w = k a w'.
Proof. intros H. unfold bind. now rewrite H. Qed.

Lemma bind_raise {A B} (m : M A) (k : A -> M B) (w w' : world) (e : exn) :
  m w = (Raise e, w') -> bind m k w = (Raise e, w').
Proof. intros H. unfold bind. now rewrite H. Qed.

Lemma bind_ret {A B} (a : A) (k : A -> M B) (w : world) :
  bind (ret a) k w = k a w.
Proof. reflexivity. Qed.

Lemma container_unpack_partial (T : PodType) (format : Format) (w : world) :
  is_container T = true ->
  unpack_partial T format w
  = (Raise (match format with
            | FORMAT_OTHER _ => format_error
            | _ => keyword_error
            end), w).
Proof.
  intros HT.
  destruct (calc_max_size_some T U64) as [n Hn].
  destruct T; try discriminate HT; cbn [unpack_partial]; unfold auto_or;
    (destruct format;
     [ rewrite bind_ret
     | rewrite bind_ret
     | rewrite (bind_ok _ _ _ _ _ (detect_format_ok _ n w Hn));
       destruct (n =? _)
     | rewrite bind_ret
     | rewrite bind_ret; apply negotiate_invalid; reflexivity ];
     rewrite call_from_bytes_container by reflexivity;
     apply negotiate_raise; reflexivity).
Qed.

(** ** Bounds of the variable containers *)

Lemma write_length_too_long (length_type : atomic) (max_length : Z)
    (obj : value) (n : Z) (w : world) :
  py_len obj = Ok n -> n > max_length ->
  write_length length_type max_length obj w = (Raise bounds_error, w).
Proof.
  intros Hlen Hn. unfold write_length, bind, lift. rewrite Hlen.
  assert (E : (n >? max_length) = true) by (apply Z.gtb_lt; lia).
  now rewrite E.
Qed.

Lemma read_length_too_long (length_type : atomic) (max_length : Z)
    (w : world) :
  let prefix :=
    firstn (atomic_size length_type) (skipn (buffer_pos w) (buffer_data w)) in
  from_little_endian prefix > max_length ->
  read_length length_type max_length w
  = (Raise bounds_error,
     set_buffer (buffer_data w) (buffer_pos w + List.length prefix) w).
Proof.
  intros prefix Hn. unfold read_length.
  unfold bind at 1.
  rewrite atomic_unpack_partial_any by (right; reflexivity).
  unfold atomic_from_bytes_partial, bind, buffer_read, ret. fold prefix.
  assert (E : (from_little_endian prefix >? max_length) = true)
    by (apply Z.gtb_lt; lia).
  now rewrite E.
Qed.

(** C7.  Packing a variable array, variable bytes or variable string whose
    length exceeds [max_length] raises before anything is written: the
    buffer is as it was.  Unpacking a length prefix that exceeds
    [max_length] raises with the cursor just past the prefix: no element
    and no body byte has been read.  The hooks, called with their own
    parameters, raise "actual_length > max_length"; reached through the
    catalog they raise as well, and the buffer is untouched. *)
Theorem bounds_rejection :
  forall (type_ : PodType) (max_length : Z) (length_type : atomic)
         (enc : encoding) (w : world),
    let prefix :=
      firstn (atomic_size length_type) (skipn (buffer_pos w) (buffer_data w)) in
    let after_prefix :=
      set_buffer (buffer_data w) (buffer_pos w + List.length prefix) w in
    (forall obj n, py_len obj = Ok n -> n > max_length ->
       var_len_array_to_bytes_partial
         (fun elem => pack_partial type_ elem FORMAT_BORSCH)
         max_length length_type obj w = (Raise bounds_error, w) /\
       var_len_bytes_to_bytes_partial max_length length_type obj w
       = (Raise bounds_error, w) /\
       var_len_str_to_bytes_partial max_length length_type enc obj w
       = (Raise bounds_error, w)) /\
    (from_little_endian prefix > max_length ->
       var_len_array_from_bytes_partial
         (unpack_partial type_ FORMAT_AUTO) max_length length_type w
       = (Raise bounds_error, after_prefix) /\
       var_len_bytes_from_bytes_partial max_length length_type w
       = (Raise bounds_error, after_prefix) /\
       var_len_str_from_bytes_partial max_length length_type enc w
       = (Raise bounds_error, after_prefix)) /\
    (forall T obj format,
       In T [Vec type_ max_length length_type; Bytes max_length length_type;
             Str max_length length_type enc] ->
       (exists e, pack_partial T obj format w = (Raise e, w)) /\
       (exists e, unpack_partial T format w = (Raise e, w))).
Proof.
  intros type_ max_length length_type enc w prefix after_prefix.
  split; [|split].
  - intros obj n Hlen Hn.
    pose proof (write_length_too_long length_type max_length obj n w Hlen Hn)
      as Hw.
    repeat split.
    + unfold var_len_array_to_bytes_partial. now apply bind_raise.
    + unfold var_len_bytes_to_bytes_partial. now apply bind_raise.
    + unfold var_len_str_to_bytes_partial. now apply bind_raise.
  - intros Hn.
    pose proof (read_length_too_long length_type max_length w Hn) as Hr.
    repeat split.
    + unfold var_len_array_from_bytes_partial. now apply bind_raise.
    + unfold var_len_bytes_from_bytes_partial. now apply bind_raise.
    + unfold var_len_str_from_bytes_partial. now apply bind_raise.
  - intros T obj format HT.
    assert (Hc : is_container T = true).
    { simpl in HT. destruct HT as [<-|[<-|[<-|[]]]]; reflexivity. }
    split.
    + rewrite container_pack_partial by exact Hc. eexists; reflexivity.
    + rewrite container_unpack_partial by exact Hc. eexists; reflexivity.
Qed.

Lemma bounds_rejection_witness :
  let w := mkWorld [x09; x00; x00; x00; x01; x02] 0 None in
  var_len_bytes_to_bytes_partial 2 U32 (VBytes [x01; x02; x03]) (mkWorld [] 0 None)
  = (Raise bounds_error, mkWorld [] 0 None) /\
  var_len_bytes_from_bytes_partial 2 U32 w
  = (Raise bounds_error, mkWorld [x09; x00; x00; x00; x01; x02] 4 None) /\
  exists e, pack_partial (Bytes 2 U32) (VBytes [x01; x02; x03]) FORMAT_BORSCH w
            = (Raise e, w).
Proof.
  cbv zeta. split; [|split].
  - destruct (bounds_rejection (Atomic U8) 2 U32 UTF_8 (mkWorld [] 0 None))
      as (H & _).
    apply (H (VBytes [x01; x02; x03]) 3); [reflexivity|lia].
  - destruct (bounds_rejection (Atomic U8) 2 U32 UTF_8
                (mkWorld [x09; x00; x00; x00; x01; x02] 0 None))
      as (_ & H & _).
    apply H. vm_compute. reflexivity.
  - destruct (bounds_rejection (Atomic U8) 2 U32 UTF_8
                (mkWorld [x09; x00; x00; x00; x01; x02] 0 None))
      as (_ & _ & H).
    apply (H (Bytes 2 U32)). simpl. tauto.
Defined.

(** ** The tag context *)

(** C6.  The manager runs its body with the new tag type installed and
    puts the saved one back whether the body returns or raises; a
    negotiated call is the step under that manager; so every partial call,
    and every top-level [pack] or [unpack], successful or failed, leaves in
    the slot what it found there. *)
Theorem tag_context_stack_discipline :
  (forall (A : Type) (tag_type : atomic) (body : M A) (w : world),
      AutoTagTypeValueManager tag_type body w
      = (fst (body (set_tag (Some tag_type) w)),
         set_tag (TAG_TYPE w) (snd (body (set_tag (Some tag_type) w))))) /\
  (forall (A : Type) (step : M A),
      negotiate FORMAT_BORSCH step = AutoTagTypeValueManager U8 step /\
      negotiate FORMAT_ZERO_COPY step = AutoTagTypeValueManager U64 step) /\
  (forall T obj format w,
      TAG_TYPE (snd (pack_partial T obj format w)) = TAG_TYPE w) /\
  (forall T format w,
      TAG_TYPE (snd (unpack_partial T format w)) = TAG_TYPE w) /\
  (forall T obj format tag, snd (pack T obj format tag) = tag) /\
  (forall T raw checked format tag,
      snd (unpack T raw checked format tag) = tag).
Proof.
  split; [|split; [|split; [|split; [|split]]]].
  - intros A tag_type body w. unfold AutoTagTypeValueManager.
    destruct (body (set_tag (Some tag_type) w)); reflexivity.
  - intros A step. split; reflexivity.
  - intros T obj format w. apply keeps_tag_pack_partial.
  - intros T format w. apply keeps_tag_unpack_partial.
  - intros T obj format tag. unfold pack.
    pose proof (keeps_tag_pack_partial T obj format (mkWorld [] 0 tag)) as H.
    destruct (pack_partial T obj format (mkWorld [] 0 tag)) as [r w'].
    exact H.
  - intros T raw checked format tag. unfold unpack.
    pose proof (keeps_tag_unpack_partial T format (mkWorld raw 0 tag)) as H.
    destruct (unpack_partial T format (mkWorld raw 0 tag)) as [r w'].
    exact H.
Qed.

(** ** The dataclass codec: failures and their path *)

Lemma dataclass_hooks (name : string) (fields : list (string * PodType))
    (obj : value) (format : Format) (tag : option atomic) :
  is_static (Dataclass name fields) = dataclass_is_static fields /\
  calc_max_size (Dataclass name fields) tag
  = dataclass_calc_max_size fields tag /\
  pack_partial (Dataclass name fields) obj format
  = negotiate format (dataclass_to_bytes_partial name fields obj format) /\
  unpack_partial (Dataclass name fields) format
  = bind (auto_or format (calc_max_size (Dataclass name fields)))
         (fun format' =>
            negotiate format' (dataclass_from_bytes_partial name fields format')).
Proof. repeat split. Qed.

Lemma path_of_enrich (msg f c t : string) (v : value) (e : exn) :
  path_of (enrich msg f c t v e) = path_of e ++ [f; c].
Proof. destruct e; reflexivity. Qed.

Section FieldLoops.

Variable pack_ : PodType -> value -> M unit.
Variable unpack_ : PodType -> M value.
Variable name : string.

Lemma field_to_bytes_partial_spec (obj : value) (field : string * PodType)
    (w : world) :
  field_to_bytes_partial pack_ name obj field w
  = match field_attempt pack_ obj field w with
    | (Ok a, w1) => (Ok a, w1)
    | (Raise e, w1) =>
      (Raise (enrich "Failed to serialize dataclass" (fst field) name
                     (type_name (snd field)) (reported obj field) e), w1)
    end.
Proof.
  unfold field_to_bytes_partial, field_attempt, reported, bind, lift,
    try_except, raise.
  destruct (py_getattr obj (fst field)) as [val|e]; reflexivity.
Qed.

(** Either every field succeeds, or the loop stops at the first field
    that fails and raises its exception enriched. *)
Lemma fields_to_bytes_partial_outcome (fields : list (string * PodType))
    (obj : value) (w : world) :
  (exists w', fields_to_bytes_partial pack_ name fields obj w = (Ok tt, w') /\
     forall pre field post, fields = pre ++ field :: post ->
       exists w1 w2,
         fields_to_bytes_partial pack_ name pre obj w = (Ok tt, w1) /\
         field_attempt pack_ obj field w1 = (Ok tt, w2)) \/
  (exists pre field post w1 e w2,
      fields = pre ++ field :: post /\
      fields_to_bytes_partial pack_ name pre obj w = (Ok tt, w1) /\
      field_attempt pack_ obj field w1 = (Raise e, w2) /\
      fields_to_bytes_partial pack_ name fields obj w
      = (Raise (enrich "Failed to serialize dataclass" (fst field) name
                       (type_name (snd field)) (reported obj field) e), w2)).
Proof.
  revert w. induction fields as [|f fields IH]; intros w.
  - left. exists w. split; [reflexivity|].
    intros pre field post H. destruct pre; discriminate H.
  - cbn [fields_to_bytes_partial]. unfold bind at 1 2.
    rewrite field_to_bytes_partial_spec.
    destruct (field_attempt pack_ obj f w) as [[[]|e] w1] eqn:Ef.
    + destruct (IH w1) as [(w' & Hok & Hall)
                          |(pre & field & post & w2 & e & w3 & -> & Hpre & Hf & Hr)].
      * left. exists w'. split; [exact Hok|].
        intros pre field post H. destruct pre as [|f0 pre].
        -- simpl in H. inversion H; subst.
           exists w, w1. split; [reflexivity|exact Ef].
        -- simpl in H. inversion H; subst.
           destruct (Hall pre field post eq_refl) as (w2 & w3 & H2 & H3).
           exists w2, w3. split; [|exact H3].
           cbn [fields_to_bytes_partial]. unfold bind.
           rewrite field_to_bytes_partial_spec, Ef. exact H2.
      * right. exists (f :: pre), field, post, w2, e, w3.
        repeat split; try assumption.
        cbn [fields_to_bytes_partial]. unfold bind.
        rewrite field_to_bytes_partial_spec, Ef. exact Hpre.
    + right. exists [], f, fields, w, e, w1.
      repeat split; try assumption.
Qed.

Lemma fields_from_bytes_partial_outcome (fields : list (string * PodType))
    (w : world) :
  (exists values w',
      fields_from_bytes_partial unpack_ name fields w = (Ok values, w') /\
      map fst values = map fst fields /\
      forall pre field post, fields = pre ++ field :: post ->
        exists vals w1 v w2,
          fields_from_bytes_partial unpack_ name pre w = (Ok vals, w1) /\
          unpack_ (snd field) w1 = (Ok v, w2) /\
          nth_error values (List.length pre) = Some (fst field, v)) \/
  (exists pre field post vals w1 e w2,
      fields = pre ++ field :: post /\
      fields_from_bytes_partial unpack_ name pre w = (Ok vals, w1) /\
      unpack_ (snd field) w1 = (Raise e, w2) /\
      fields_from_bytes_partial unpack_ name fields w
      = (Raise (enrich "Failed to deserialize dataclass" (fst field) name
                       (type_name (snd field)) VNone e), w2)).
Proof.
  revert w. induction fields as [|f fields IH]; intros w.
  - left. exists [], w. repeat split.
    intros pre field post H. destruct pre; discriminate H.
  - cbn [fields_from_bytes_partial]. unfold bind at 1 3.
    unfold field_from_bytes_partial at 1 2. unfold try_except.
    destruct (unpack_ (snd f) w) as [[v|e] w1] eqn:Ef.
    + unfold bind at 1 2.
      destruct (IH w1) as [(values & w' & Hok & Hnames & Hall)
                          |(pre & field & post & vals & w2 & e & w3
                            & -> & Hpre & Hf & Hr)].
      * left. rewrite Hok. exists ((fst f, v) :: values), w'.
        split; [reflexivity|]. split; [simpl; now rewrite Hnames|].
        intros pre field post H. destruct pre as [|f0 pre].
        -- simpl in H. inversion H; subst.
           exists [], w, v, w1. repeat split. exact Ef.
        -- simpl in H. inversion H; subst.
           destruct (Hall pre field post eq_refl)
             as (vals & w2 & v2 & w3 & H2 & H3 & H4).
           exists ((fst f0, v) :: vals), w2, v2, w3.
           split; [|split; [exact H3|exact H4]].
           cbn [fields_from_bytes_partial]. unfold bind.
           unfold field_from_bytes_partial, try_except. rewrite Ef, H2.
           reflexivity.
      * right. rewrite Hr.
        exists (f :: pre), field, post, ((fst f, v) :: vals), w2, e, w3.
        repeat split; try assumption.
        cbn [fields_from_bytes_partial]. unfold bind.
        unfold field_from_bytes_partial, try_except. rewrite Ef, Hpre.
        reflexivity.
    + right. exists [], f, fields, [], w, e, w1.
      repeat split; try assumption.
Qed.

End FieldLoops.

Section FirstFailure.

Variable pack_ : PodType -> value -> M unit.
Variable unpack_ : PodType -> M value.
Variable name : string.

Lemma fields_to_bytes_partial_fails_at
    (pre post : list (string * PodType)) (field : string * PodType)
    (obj : value) (w w1 w2 : world) (e : exn) :
  fields_to_bytes_partial pack_ name pre obj w = (Ok tt, w1) ->
  field_attempt pack_ obj field w1 = (Raise e, w2) ->
  fields_to_bytes_partial pack_ name (pre ++ field :: post) obj w
  = (Raise (enrich "Failed to serialize dataclass" (fst field) name
                   (type_name (snd field)) (reported obj field) e), w2).
Proof.
  revert w. induction pre as [|f pre IH]; intros w Hpre Hf.
  - inversion Hpre; subst. cbn [app fields_to_bytes_partial].
    unfold bind. rewrite field_to_bytes_partial_spec, Hf. reflexivity.
  - cbn [app fields_to_bytes_partial] in *. unfold bind in *.
    destruct (field_to_bytes_partial pack_ name obj f w) as [[[]|e0] w0];
      [|discriminate Hpre].
    now apply IH.
Qed.

Lemma fields_from_bytes_partial_fails_at
    (pre post : list (string * PodType)) (field : string * PodType)
    (vals : list (string * value)) (w w1 w2 : world) (e : exn) :
  fields_from_bytes_partial unpack_ name pre w = (Ok vals, w1) ->
  unpack_ (snd field) w1 = (Raise e, w2) ->
  fields_from_bytes_partial unpack_ name (pre ++ field :: post) w
  = (Raise (enrich "Failed to deserialize dataclass" (fst field) name
                   (type_name (snd field)) VNone e), w2).
Proof.
  revert w vals. induction pre as [|f pre IH]; intros w vals Hpre Hf.
  - inversion Hpre; subst. cbn [app fields_from_bytes_partial].
    unfold bind, field_from_bytes_partial, try_except. rewrite Hf.
    reflexivity.
  - cbn [app fields_from_bytes_partial] in *. unfold bind at 1.
    unfold bind at 1 in Hpre.
    destruct (field_from_bytes_partial unpack_ name f w) as [[v|e0] w0];
      [|discriminate Hpre].
    unfold bind at 1. unfold bind at 1 in Hpre.
    destruct (fields_from_bytes_partial unpack_ name pre w0)
      as [[vs|e0] w3] eqn:E; [|discriminate Hpre].
    inversion Hpre; subst.
    rewrite (IH w0 vs E Hf). reflexivity.
Qed.

End FirstFailure.

(** C8.  When a field of a record fails to pack or to unpack (the fields
    before it having succeeded), the dataclass codec raises a
    [PodPathError] whose path is the path of the failure followed by the
    name of the field and the name of the record, so that nested records
    accumulate the chain from the failure up to the root.  Nothing is
    swallowed: the codec returns only when every field has succeeded, and
    on unpack the record is built from the values of all its fields. *)
Theorem dataclass_failures_carry_their_path :
  forall (name : string) (format : Format) (w : world),
    (forall pre field post obj w1 w2 e,
        dataclass_to_bytes_partial name pre obj format w = (Ok tt, w1) ->
        field_attempt (fun ty v => pack_partial ty v format) obj field w1
        = (Raise e, w2) ->
        exists e',
          dataclass_to_bytes_partial name (pre ++ field :: post) obj format w
          = (Raise e', w2) /\
          e' = enrich "Failed to serialize dataclass" (fst field) name
                      (type_name (snd field))
                      (reported obj field) e /\
          path_of e' = path_of e ++ [fst field; name]) /\
    (forall pre field post vals w1 w2 e,
        fields_from_bytes_partial (fun ty => unpack_partial ty format)
                                  name pre w = (Ok vals, w1) ->
        unpack_partial (snd field) format w1 = (Raise e, w2) ->
        exists e',
          dataclass_from_bytes_partial name (pre ++ field :: post) format w
          = (Raise e', w2) /\
          e' = enrich "Failed to deserialize dataclass" (fst field) name
                      (type_name (snd field)) VNone e /\
          path_of e' = path_of e ++ [fst field; name]) /\
    (forall fields obj w',
        dataclass_to_bytes_partial name fields obj format w = (Ok tt, w') ->
        forall pre field post, fields = pre ++ field :: post ->
          exists w1 w2,
            dataclass_to_bytes_partial name pre obj format w = (Ok tt, w1) /\
            field_attempt (fun ty v => pack_partial ty v format) obj field w1
            = (Ok tt, w2)) /\
    (forall fields v w',
        dataclass_from_bytes_partial name fields format w = (Ok v, w') ->
        exists values,
          v = VObj name values /\
          map fst values = map fst fields /\
          forall pre field post, fields = pre ++ field :: post ->
            exists vals w1 fv w2,
              fields_from_bytes_partial (fun ty => unpack_partial ty format)
                                        name pre w = (Ok vals, w1) /\
              unpack_partial (snd field) format w1 = (Ok fv, w2) /\
              nth_error values (List.length pre) = Some (fst field, fv)).
Proof.
  intros name format w. split; [|split; [|split]].
  - intros pre field post obj w1 w2 e Hpre Hf.
    eexists. split; [|split; [reflexivity|apply path_of_enrich]].
    unfold dataclass_to_bytes_partial in *.
    now apply fields_to_bytes_partial_fails_at with (w1 := w1).
  - intros pre field post vals w1 w2 e Hpre Hf.
    eexists. split; [|split; [reflexivity|apply path_of_enrich]].
    unfold dataclass_from_bytes_partial.
    apply bind_raise.
    now apply fields_from_bytes_partial_fails_at with (vals := vals) (w1 := w1).
  - intros fields obj w' Hok. unfold dataclass_to_bytes_partial in *.
    destruct (fields_to_bytes_partial_outcome
                (fun ty v => pack_partial ty v format) name fields obj w)
      as [(w0 & _ & Hall)|(pre & field & post & w1 & e & w2 & _ & _ & _ & Hr)].
    + exact Hall.
    + rewrite Hr in Hok. discriminate Hok.
  - intros fields v w' Hok. unfold dataclass_from_bytes_partial, bind in Hok.
    destruct (fields_from_bytes_partial_outcome
                (fun ty => unpack_partial ty format) name fields w)
      as [(values & w0 & Hv & Hnames & Hall)
         |(pre & field & post & vals & w1 & e & w2 & _ & _ & _ & Hr)].
    + rewrite Hv in Hok. inversion Hok; subst.
      exists values. repeat split; assumption.
    + rewrite Hr in Hok. discriminate Hok.
Qed.

(** A failure two records deep, seen from the top-level [pack]. *)
Example nested_failure_path :
  let Inner := Dataclass "Inner" [("y", Atomic U8)] in
  let Outer := Dataclass "Outer" [("x", Inner)] in
  let obj := VObj "Outer" [("x", VObj "Inner" [("y", VInt 300)])] in
  pack Outer obj FORMAT_BORSCH None
  = (Raise (PodPathError "Failed to serialize dataclass"
              ["y"; "Inner"; "x"; "Outer"] "U8" (VInt 300)
              (Some (OverflowError "int too big to convert"))), None).
Proof. reflexivity. Qed.

Lemma dataclass_failures_carry_their_path_witness :
  let Inner := Dataclass "Inner" [("y", Atomic U8)] in
  let obj := VObj "Outer" [("x", VObj "Inner" [("y", VInt 300)])] in
  let w := mkWorld [] 0 None in
  exists e',
    dataclass_to_bytes_partial "Outer" ([] ++ ("x", Inner) :: []) obj
                               FORMAT_BORSCH w
    = (Raise e', w) /\
    path_of e' = ["y"; "Inner"; "x"; "Outer"].
Proof.
  cbv zeta.
  destruct (dataclass_failures_carry_their_path
              "Outer" FORMAT_BORSCH (mkWorld [] 0 None)) as (H & _).
  destruct (H [] ("x", Dataclass "Inner" [("y", Atomic U8)]) []
              (VObj "Outer" [("x", VObj "Inner" [("y", VInt 300)])])
              (mkWorld [] 0 None) (mkWorld [] 0 None)
              (PodPathError "Failed to serialize dataclass" ["y"; "Inner"]
                 "U8" (VInt 300)
                 (Some (OverflowError "int too big to convert")))
              eq_refl eq_refl)
    as (e' & Hr & _ & Hp).
  exists e'. split; [exact Hr|exact Hp].
Defined.

(** ** Records of integers: packing appends the wire image *)

Lemma appended_at_end (w : world) (b : bytes) : at_end (appended w b).
Proof. unfold at_end, appended; simpl. now rewrite length_app. Qed.

Lemma appended_appended (w : world) (b1 b2 : bytes) :
  appended (appended w b1) b2 = appended w (b1 ++ b2).
Proof.
  unfold appended; simpl. rewrite !length_app, app_assoc.
  f_equal. lia.
Qed.

Lemma appended_nil (w : world) : at_end w -> appended w [] = w.
Proof.
  unfold at_end, appended. destruct w as [d p t]; simpl. intros ->.
  now rewrite app_nil_r, Nat.add_0_r.
Qed.

Lemma negotiate_concrete {A} (format : Format) (step : M A) (w : world)
    (r : result A) (d : bytes) (p : nat) :
  concrete format = true ->
  (forall t, step (set_tag t w) = (r, mkWorld d p t)) ->
  negotiate format step w = (r, mkWorld d p (TAG_TYPE w)).
Proof.
  intros Hf Hstep. destruct format; try discriminate Hf; simpl.
  - unfold AutoTagTypeValueManager. now rewrite Hstep.
  - specialize (Hstep (TAG_TYPE w)).
    replace (set_tag (TAG_TYPE w) w) with w in Hstep by (now destruct w).
    exact Hstep.
  - unfold AutoTagTypeValueManager. now rewrite Hstep.
Qed.

Lemma distinct_not_in (x : string) (l : list string) :
  existsb (String.eqb x) l = false -> forall y, In y l -> String.eqb y x = false.
Proof.
  intros H y Hy. destruct (String.eqb y x) eqn:E; [|reflexivity].
  apply String.eqb_eq in E. subst y.
  assert (Ht : existsb (String.eqb x) l = true).
  { apply existsb_exists. exists x. split; [exact Hy|apply String.eqb_refl]. }
  congruence.
Qed.

Lemma legal_fields_names (fields : list (string * PodType))
    (attrs : list (string * value)) :
  legal_fields legal fields attrs = true -> map fst attrs = map fst fields.
Proof.
  revert attrs. induction fields as [|f fr IH]; intros [|a ar] H;
    simpl in *; try discriminate H; [reflexivity|].
  apply andb_prop in H. destruct H as [H Hr].
  apply andb_prop in H. destruct H as [Hn _].
  apply String.eqb_eq in Hn. rewrite Hn. f_equal. now apply IH.
Qed.

(** With distinct names, looking a field up by name finds the attribute at
    the position of the field. *)
Lemma assoc_lockstep (fields : list (string * PodType))
    (attrs : list (string * value)) :
  legal_fields legal fields attrs = true ->
  distinct (map fst fields) = true ->
  forall f a, In (f, a) (combine fields attrs) ->
              assoc (fst f) attrs = Some (snd a).
Proof.
  revert attrs. induction fields as [|f0 fr IH]; intros [|a0 ar] Hl Hd f a Hin;
    simpl in *; try discriminate Hl; try contradiction.
  apply andb_prop in Hl. destruct Hl as [Hl Hr].
  apply andb_prop in Hl. destruct Hl as [Hn _].
  apply andb_prop in Hd. destruct Hd as [Hx Hd].
  apply negb_true_iff in Hx. apply String.eqb_eq in Hn.
  destruct a0 as [n0 v0]; simpl in *. subst n0.
  destruct Hin as [Heq|Hin].
  - inversion Heq; subst. simpl. now rewrite String.eqb_refl.
  - assert (Hne : String.eqb (fst f) (fst f0) = false).
    { apply (distinct_not_in _ _ Hx). apply in_map_iff.
      exists f. split; [reflexivity|]. now apply in_combine_l in Hin. }
    rewrite Hne. now apply IH.
Qed.

Lemma plain_atomic_pack (a : atomic) (v : value) (format : Format) (w : world) :
  legal (Atomic a) v = true -> concrete format = true -> at_end w ->
  pack_partial (Atomic a) v format w = (Ok tt, appended w (wire (Atomic a) v)).
Proof.
  intros Hl Hf Hend.
  change (pack_partial (Atomic a) v format) with (atomic_pack_partial a v format).
  rewrite atomic_pack_partial_concrete by exact Hf.
  destruct v; try discriminate Hl. cbn [legal] in Hl.
  unfold atomic_to_bytes_partial. rewrite Hl.
  unfold buffer_write, appended, set_buffer. rewrite Hend, write_at_end.
  reflexivity.
Qed.

Section PlainPackLoop.

Variable format : Format.
Variable name : string.
Variable obj : value.
Hypothesis Hformat : concrete format = true.

Lemma plain_fields_pack (fields : list (string * PodType)) :
  Forall (fun f => forall v w,
              legal (snd f) v = true -> at_end w ->
              pack_partial (snd f) v format w
              = (Ok tt, appended w (wire (snd f) v))) fields ->
  forall attrs w,
    legal_fields legal fields attrs = true ->
    (forall f a, In (f, a) (combine fields attrs) ->
                 py_getattr obj (fst f) = Ok (snd a)) ->
    at_end w ->
    fields_to_bytes_partial (fun ty v => pack_partial ty v format)
                            name fields obj w
    = (Ok tt, appended w (wire_fields wire fields attrs)).
Proof.
  induction 1 as [|f fr Hf _ IH]; intros [|a ar] w Hl Hget Hend;
    simpl in Hl; try discriminate Hl.
  - simpl. unfold ret. now rewrite appended_nil.
  - apply andb_prop in Hl. destruct Hl as [Hl Hr].
    apply andb_prop in Hl. destruct Hl as [_ Hv].
    cbn [fields_to_bytes_partial wire_fields].
    assert (Hstep : field_to_bytes_partial
                      (fun ty v => pack_partial ty v format) name obj f w
                    = (Ok tt, appended w (wire (snd f) (snd a)))).
    { unfold field_to_bytes_partial.
      rewrite (Hget f a) by (left; reflexivity).
      unfold try_except. now rewrite Hf. }
    rewrite (bind_ok _ _ _ _ _ Hstep).
    rewrite (IH ar (appended w (wire (snd f) (snd a))) Hr).
    + now rewrite appended_appended.
    + intros f' a' Hin. apply Hget. right. exact Hin.
    + apply appended_at_end.
Qed.

End PlainPackLoop.

Lemma at_end_set_tag (t : option atomic) (w : world) :
  at_end w -> at_end (set_tag t w).
Proof. unfold at_end. destruct w; simpl. auto. Qed.

(** Packing a legal value of a plain descriptor appends its wire image. *)
Lemma plain_pack_partial (T : PodType) :
  plain T = true ->
  forall v format w,
    legal T v = true -> concrete format = true -> at_end w ->
    pack_partial T v format w = (Ok tt, appended w (wire T v)).
Proof.
  induction T using PodType_nested_ind; intros Hp v format w Hl Hf Hend;
    try discriminate Hp.
  - now apply plain_atomic_pack.
  - destruct v as [| | | | |cls attrs]; try discriminate Hl.
    cbn [plain] in Hp. apply andb_prop in Hp. destruct Hp as [Hp Hd].
    cbn [legal] in Hl. apply andb_prop in Hl. destruct Hl as [Hc Hl].
    cbn [wire].
    destruct (dataclass_hooks name fields (VObj cls attrs) format None)
      as (_ & _ & Hpack & _).
    rewrite Hpack. unfold appended.
    apply negotiate_concrete; [exact Hf|]. intros t.
    unfold dataclass_to_bytes_partial.
    rewrite (plain_fields_pack format name (VObj cls attrs) fields)
      with (attrs := attrs).
    + reflexivity.
    + rewrite Forall_forall in H. apply Forall_forall. intros f Hin v w0 Hv He.
      apply H; try assumption.
      rewrite forallb_forall in Hp. now apply Hp.
    + exact Hl.
    + intros f a Hin. unfold py_getattr.
      now rewrite (assoc_lockstep fields attrs Hl Hd f a Hin).
    + now apply at_end_set_tag.
Qed.

(** ** Records of integers: unpacking reads the wire image back *)

Lemma plain_atomic_unpack (a : atomic) (v : value) (format : Format)
    (d post : bytes) (p : nat) (tag : option atomic) :
  legal (Atomic a) v = true ->
  (concrete format = true \/ format = FORMAT_AUTO) ->
  skipn p d = wire (Atomic a) v ++ post ->
  unpack_partial (Atomic a) format (mkWorld d p tag)
  = (Ok v, mkWorld d (p + List.length (wire (Atomic a) v)) tag).
Proof.
  intros Hl Hf Hd.
  change (unpack_partial (Atomic a) format) with (atomic_unpack_partial a format).
  rewrite atomic_unpack_partial_any by exact Hf.
  destruct v; try discriminate Hl. cbn [legal] in Hl. cbn [wire] in *.
  unfold atomic_from_bytes_partial, bind, buffer_read, ret, set_buffer.
  cbn [buffer_data buffer_pos TAG_TYPE]. rewrite Hd.
  rewrite firstn_app, to_little_endian_length, Nat.sub_diag, firstn_O,
    app_nil_r.
  rewrite firstn_all2 by (rewrite to_little_endian_length; lia).
  rewrite from_to_little_endian_small, to_little_endian_length; [reflexivity|].
  apply andb_prop in Hl. destruct Hl as [H0 H1].
  apply Z.leb_le in H0. apply Z.ltb_lt in H1. lia.
Qed.

Section PlainUnpackLoop.

Variable format : Format.
Variable name : string.
Variable d : bytes.
Variable tag : option atomic.

Lemma plain_fields_unpack (fields : list (string * PodType)) :
  Forall (fun f => forall v post p,
              legal (snd f) v = true ->
              skipn p d = wire (snd f) v ++ post ->
              unpack_partial (snd f) format (mkWorld d p tag)
              = (Ok v, mkWorld d (p + List.length (wire (snd f) v)) tag))
         fields ->
  forall attrs post p,
    legal_fields legal fields attrs = true ->
    skipn p d = wire_fields wire fields attrs ++ post ->
    fields_from_bytes_partial (fun ty => unpack_partial ty format)
                              name fields (mkWorld d p tag)
    = (Ok attrs,
       mkWorld d (p + List.length (wire_fields wire fields attrs)) tag).
Proof.
  induction 1 as [|f fr Hf _ IH]; intros [|a ar] post p Hl Hd;
    simpl in Hl; try discriminate Hl.
  - simpl. unfold ret. now rewrite Nat.add_0_r.
  - apply andb_prop in Hl. destruct Hl as [Hl Hr].
    apply andb_prop in Hl. destruct Hl as [Hn Hv].
    apply String.eqb_eq in Hn.
    cbn [fields_from_bytes_partial wire_fields] in *.
    rewrite <- app_assoc in Hd.
    assert (Hstep : field_from_bytes_partial
                      (fun ty => unpack_partial ty format) name f
                      (mkWorld d p tag)
                    = (Ok (snd a),
                       mkWorld d (p + List.length (wire (snd f) (snd a))) tag)).
    { unfold field_from_bytes_partial, try_except.
      now rewrite (Hf (snd a) _ p Hv Hd). }
    rewrite (bind_ok _ _ _ _ _ Hstep).
    assert (Hrest : skipn (p + List.length (wire (snd f) (snd a))) d
                    = wire_fields wire fr ar ++ post).
    { rewrite Nat.add_comm, <- skipn_skipn, Hd.
      rewrite skipn_app, Nat.sub_diag, skipn_all. reflexivity. }
    rewrite (bind_ok _ _ _ _ _ (IH ar post _ Hr Hrest)).
    unfold ret. rewrite length_app, Nat.add_assoc.
    destruct a as [n v]; simpl in *. subst n. reflexivity.
Qed.

End PlainUnpackLoop.

(** Unpacking, under a concrete format, a buffer that holds the wire image
    of a legal value at the cursor returns the value and moves the cursor
    past the image. *)
Lemma plain_unpack_partial (T : PodType) :
  plain T = true ->
  forall v format d post p tag,
    legal T v = true -> concrete format = true ->
    skipn p d = wire T v ++ post ->
    unpack_partial T format (mkWorld d p tag)
    = (Ok v, mkWorld d (p + List.length (wire T v)) tag).
Proof.
  induction T using PodType_nested_ind;
    intros Hp v format d post p tag Hl Hf Hd; try discriminate Hp.
  - apply plain_atomic_unpack with (post := post); auto.
  - destruct v as [| | | | |cls attrs]; try discriminate Hl.
    cbn [plain] in Hp. apply andb_prop in Hp. destruct Hp as [Hp Hdis].
    cbn [legal] in Hl. apply andb_prop in Hl. destruct Hl as [Hc Hl].
    apply String.eqb_eq in Hc. subst cls.
    cbn [wire] in *.
    destruct (dataclass_hooks name fields VNone format None)
      as (_ & _ & _ & Hunpack).
    rewrite Hunpack.
    assert (Hauto : auto_or format (calc_max_size (Dataclass name fields))
                    = ret format)
      by (destruct format; try discriminate Hf; reflexivity).
    rewrite Hauto, bind_ret.
    change tag with (TAG_TYPE (mkWorld d p tag)) at 2.
    apply negotiate_concrete; [exact Hf|]. intros t.
    unfold dataclass_from_bytes_partial, set_tag.
    cbn [buffer_data buffer_pos TAG_TYPE].
    erewrite bind_ok; [reflexivity|].
    apply plain_fields_unpack with (post := post); try assumption.
    rewrite Forall_forall in H. apply Forall_forall.
    intros f Hin v post0 p0 Hv Hs.
    apply H with (post := post0); try assumption.
    rewrite forallb_forall in Hp. now apply Hp.
Qed.

(** ** Records of integers: static, and of exactly the reported size *)

Lemma plain_fields_calc_max_size (tag : option atomic)
    (fields : list (string * PodType)) :
  Forall (fun f => forall v, legal (snd f) v = true ->
                             calc_max_size (snd f) tag
                             = Ok (Z.of_nat (List.length (wire (snd f) v))))
         fields ->
  forall attrs total,
    legal_fields legal fields attrs = true ->
    fields_calc_max_size (fun ty => calc_max_size ty tag) fields total
    = Ok (total + Z.of_nat (List.length (wire_fields wire fields attrs))).
Proof.
  induction 1 as [|f fr Hf _ IH]; intros [|a ar] total Hl;
    simpl in Hl; try discriminate Hl.
  - simpl. now rewrite Z.add_0_r.
  - apply andb_prop in Hl. destruct Hl as [Hl Hr].
    apply andb_prop in Hl. destruct Hl as [_ Hv].
    cbn [fields_calc_max_size wire_fields].
    rewrite (Hf (snd a) Hv). cbn [result_bind].
    rewrite (IH ar _ Hr), length_app. f_equal. lia.
Qed.

Lemma plain_calc_max_size (T : PodType) :
  plain T = true ->
  forall v tag, legal T v = true ->
                calc_max_size T tag = Ok (Z.of_nat (List.length (wire T v))).
Proof.
  induction T using PodType_nested_ind; intros Hp v tag Hl;
    try discriminate Hp.
  - destruct v; try discriminate Hl. cbn [wire].
    now rewrite to_little_endian_length.
  - destruct v as [| | | | |cls attrs]; try discriminate Hl.
    cbn [plain] in Hp. apply andb_prop in Hp. destruct Hp as [Hp _].
    cbn [legal] in Hl. apply andb_prop in Hl. destruct Hl as [_ Hl].
    cbn [wire].
    destruct (dataclass_hooks name fields VNone FORMAT_PASS tag)
      as (_ & Hsize & _).
    rewrite Hsize. unfold dataclass_calc_max_size.
    rewrite (plain_fields_calc_max_size tag fields) with (attrs := attrs);
      [reflexivity| |exact Hl].
    rewrite Forall_forall in H. apply Forall_forall. intros f Hin v Hv.
    apply H; try assumption.
    rewrite forallb_forall in Hp. now apply Hp.
Qed.

Lemma plain_fields_is_static (fields : list (string * PodType)) :
  Forall (fun f => is_static (snd f) = Ok true) fields ->
  fields_is_static is_static fields = Ok true.
Proof.
  induction 1 as [|f fr Hf _ IH]; [reflexivity|].
  cbn [fields_is_static]. rewrite Hf. exact IH.
Qed.

Lemma plain_is_static (T : PodType) : plain T = true -> is_static T = Ok true.
Proof.
  induction T using PodType_nested_ind; intros Hp; try discriminate Hp.
  - reflexivity.
  - cbn [plain] in Hp. apply andb_prop in Hp. destruct Hp as [Hp _].
    destruct (dataclass_hooks name fields VNone FORMAT_PASS None)
      as (Hs & _).
    rewrite Hs. apply plain_fields_is_static.
    rewrite forallb_forall in Hp. rewrite Forall_forall in H.
    apply Forall_forall. intros f Hin. apply H; [exact Hin|now apply Hp].
Qed.

(** ** Automatic detection of the format *)

Lemma unpack_partial_auto (T : PodType) (w : world) (n : Z) :
  calc_max_size T (Some U64) = Ok n ->
  unpack_partial T FORMAT_AUTO w = unpack_partial T (selected_format n w) w.
Proof.
  intros Hn.
  destruct T; cbn [unpack_partial]; unfold auto_or at 1;
    rewrite (bind_ok _ _ _ _ _ (detect_format_ok _ n w Hn));
    unfold selected_format, end_offset;
    destruct (n =? _); reflexivity.
Qed.

Lemma plain_pack (T : PodType) (v : value) (format : Format)
    (tag : option atomic) :
  plain T = true -> legal T v = true -> concrete format = true ->
  pack T v format tag = (Ok (wire T v), tag).
Proof.
  intros Hp Hl Hf. unfold pack.
  rewrite (plain_pack_partial T Hp v format (mkWorld [] 0 tag) Hl Hf)
    by reflexivity.
  reflexivity.
Qed.

Lemma plain_unpack (T : PodType) (v : value) (format : Format)
    (checked : bool) (tag : option atomic) :
  plain T = true -> legal T v = true ->
  concrete format = true \/ format = FORMAT_AUTO ->
  unpack T (wire T v) checked format tag = (Ok v, tag).
Proof.
  intros Hp Hl Hf. unfold unpack.
  assert (Hc : forall f, concrete f = true ->
             unpack_partial T f (mkWorld (wire T v) 0 tag)
             = (Ok v, mkWorld (wire T v) (0 + List.length (wire T v)) tag)).
  { intros f Hcf. apply plain_unpack_partial with (post := []); auto.
    simpl. now rewrite app_nil_r. }
  assert (Hu : unpack_partial T format (mkWorld (wire T v) 0 tag)
               = (Ok v, mkWorld (wire T v) (0 + List.length (wire T v)) tag)).
  { destruct Hf as [Hf|Hf]; [now apply Hc|subst format].
    rewrite (unpack_partial_auto T _ _ (plain_calc_max_size T Hp v _ Hl)).
    apply Hc. unfold selected_format. destruct (_ =? _); reflexivity. }
  rewrite Hu. cbn [buffer_pos buffer_data TAG_TYPE].
  rewrite Nat.add_0_l, Nat.ltb_irrefl, andb_false_r. reflexivity.
Qed.

(** C5 (the claim as amended).  Under [FORMAT_AUTO], [unpack_partial]
    computes the maximum size of the type with [U64] installed as tag type
    and selects ZeroCopy when it equals the offset of the end of the buffer
    (its total length), Canonical otherwise; cursor and slot are restored
    and decoding proceeds under the selected format.  At a top-level
    [unpack] the cursor is at 0, so the total length is what remains.  For
    a record type whose fields are atomic integers or such records (it is
    static) and every legal value [v], [pack] succeeds under ZeroCopy and
    under Canonical, and [unpack] of the result under Auto returns [v]. *)
Theorem auto_format_detection :
  (forall T w n,
      calc_max_size T (Some U64) = Ok n ->
      detect_format (calc_max_size T) w = (Ok (selected_format n w), w) /\
      unpack_partial T FORMAT_AUTO w
      = unpack_partial T (selected_format n w) w) /\
  (forall raw tag,
      remaining_length (mkWorld raw 0 tag) = end_offset (mkWorld raw 0 tag)) /\
  (forall name fields v format checked tag,
      plain (Dataclass name fields) = true ->
      legal (Dataclass name fields) v = true ->
      negotiated format = true ->
      is_static (Dataclass name fields) = Ok true /\
      exists raw,
        pack (Dataclass name fields) v format tag = (Ok raw, tag) /\
        calc_max_size (Dataclass name fields) (Some U64)
        = Ok (Z.of_nat (List.length raw)) /\
        unpack (Dataclass name fields) raw checked FORMAT_AUTO tag
        = (Ok v, tag)).
Proof.
  split; [|split].
  - intros T w n Hn. split.
    + apply detect_format_ok. exact Hn.
    + apply unpack_partial_auto. exact Hn.
  - intros raw tag. unfold remaining_length, end_offset. simpl.
    now rewrite Nat.sub_0_r.
  - intros name fields v format checked tag Hp Hl Hf.
    split; [now apply plain_is_static|].
    exists (wire (Dataclass name fields) v). split; [|split].
    + apply plain_pack; auto. destruct format; try discriminate Hf; reflexivity.
    + now apply plain_calc_max_size.
    + apply plain_unpack; auto.
Qed.

Lemma auto_format_detection_witness :
  let R := Dataclass "R" [("a", Atomic U8); ("b", Atomic U32)] in
  let v := VObj "R" [("a", VInt 5); ("b", VInt 3)] in
  (calc_max_size R (Some U64) = Ok 5 /\
   detect_format (calc_max_size R) (mkWorld [x05; x03; x00; x00; x00] 0 None)
   = (Ok FORMAT_ZERO_COPY, mkWorld [x05; x03; x00; x00; x00] 0 None)) /\
  exists raw,
    pack R v FORMAT_ZERO_COPY None = (Ok raw, None) /\
    unpack R raw true FORMAT_AUTO None = (Ok v, None).
Proof.
  cbv zeta.
  destruct auto_format_detection as (Hm & _ & Hr).
  split.
  - split; [reflexivity|].
    apply (Hm (Dataclass "R" [("a", Atomic U8); ("b", Atomic U32)])
              (mkWorld [x05; x03; x00; x00; x00] 0 None) 5 eq_refl).
  - destruct (Hr "R" [("a", Atomic U8); ("b", Atomic U32)]
                 (VObj "R" [("a", VInt 5); ("b", VInt 3)])
                 FORMAT_ZERO_COPY true None eq_refl eq_refl eq_refl)
      as (_ & raw & Hpack & _ & Hunpack).
    exists raw. split; assumption.
Defined.

(** C5 (the claim as stated fails).  With the cursor past a one-byte
    header, the eight bytes that remain are the ZeroCopy encoding of the
    tag 513, and the maximum size of [AutoTagType] under [U64] is eight:
    size and remaining length agree, yet the probe compares the size with
    the total length nine, selects Canonical, and one byte is decoded. *)
Lemma auto_format_detection_counterexample :
  let w := mkWorld [x09; x01; x02; x00; x00; x00; x00; x00; x00] 1 None in
  calc_max_size AutoTagType (Some U64) = Ok 8 /\
  remaining_length w = 8 /\
  spec_selected_format 8 w = FORMAT_ZERO_COPY /\
  detect_format (calc_max_size AutoTagType) w <> (Ok (spec_selected_format 8 w), w) /\
  detect_format (calc_max_size AutoTagType) w = (Ok FORMAT_BORSCH, w) /\
  pack AutoTagType (VInt 513) FORMAT_ZERO_COPY None
  = (Ok [x01; x02; x00; x00; x00; x00; x00; x00], None) /\
  fst (unpack_partial AutoTagType FORMAT_AUTO w) = Ok (VInt 1) /\
  fst (unpack_partial AutoTagType FORMAT_ZERO_COPY w) = Ok (VInt 513).
Proof.
  cbv zeta. repeat split; try reflexivity.
  intros H. discriminate H.
Qed.

(** ** Containers through the catalog *)

(** C1 (the code departs from the claim).  No container value makes the
    round trip through the catalog: the self-converter calls the pack hook
    as [(buffer, obj, format=...)] and the unpack hook as
    [(buffer, format=...)], while the container hooks are declared
    [(cls, obj, buffer)] and [(cls, buffer)]; binding [format] raises
    [TypeError] before the body runs.  Here a two-byte value of a variable
    bytes type: [pack] raises under both formats, and so does [unpack] of
    the bytes the hook itself writes.  The variable string hook, even
    called as declared, writes the number of characters as prefix in front
    of a longer UTF-8 body, which it then cannot read back. *)
Theorem container_round_trip_broken :
  forall tag : option atomic,
    let T := Bytes 16 U32 in
    let v := VBytes [x61; x62] in
    let raw := [x02; x00; x00; x00; x61; x62] in
    let e_acute := VStr [233%N] in
    let raw_str := [x01; x00; x00; x00; xc3; xa9] in
    pack T v FORMAT_BORSCH tag = (Raise keyword_error, tag) /\
    pack T v FORMAT_ZERO_COPY tag = (Raise keyword_error, tag) /\
    var_len_bytes_to_bytes_partial 16 U32 v (mkWorld [] 0 tag)
    = (Ok tt, mkWorld raw 6 tag) /\
    unpack T raw false FORMAT_AUTO tag = (Raise keyword_error, tag) /\
    unpack T raw false FORMAT_BORSCH tag = (Raise keyword_error, tag) /\
    unpack T raw false FORMAT_ZERO_COPY tag = (Raise keyword_error, tag) /\
    var_len_str_to_bytes_partial 16 U32 UTF_8 e_acute (mkWorld [] 0 tag)
    = (Ok tt, mkWorld raw_str 6 tag) /\
    var_len_str_from_bytes_partial 16 U32 UTF_8 (mkWorld raw_str 0 tag)
    = (Raise (UnicodeError "codec can't decode byte"), mkWorld raw_str 5 tag).
Proof. intros tag. cbv zeta. repeat split. Qed.

(** C2 (the code departs from the claim).  [FixedLenBytes[2]] is static
    and its maximum size is 2, but [pack] of a two-byte value produces no
    bytes: it raises, for the reason given at C1.  A record with such a
    field is static with maximum size 3 and cannot be packed either.  The
    hook itself, called as declared with three bytes, writes all three. *)
Theorem static_size_exactness_broken :
  forall tag : option atomic,
    let T := FixedLenBytes 2 in
    let R := Dataclass "R" [("a", Atomic U8); ("b", T)] in
    let r := VObj "R" [("a", VInt 5); ("b", VBytes [x61; x62])] in
    is_static T = Ok true /\
    calc_max_size T tag = Ok 2 /\
    pack T (VBytes [x61; x62]) FORMAT_BORSCH tag = (Raise keyword_error, tag) /\
    pack T (VBytes [x61; x62]) FORMAT_ZERO_COPY tag
    = (Raise keyword_error, tag) /\
    is_static R = Ok true /\
    calc_max_size R tag = Ok 3 /\
    pack R r FORMAT_BORSCH tag
    = (Raise (PodPathError "Failed to serialize dataclass" ["b"; "R"]
                "FixedLenBytes" (VBytes [x61; x62]) (Some keyword_error)),
       tag) /\
    fixed_len_bytes_to_bytes_partial 2 (VBytes [x61; x62; x63])
                                     (mkWorld [] 0 tag)
    = (Ok tt, mkWorld [x61; x62; x63] 3 tag).
Proof. intros tag. cbv zeta. repeat split. Qed.

(** The record of the spec's scenario, [R { a: U8, b: Vec<U8, U32> }]:
    its variable array field stops [pack] as every container does, and the
    static check of the record fails on the field's missing hook. *)
Example record_with_variable_array :
  let R := Dataclass "R" [("a", Atomic U8); ("b", Vec (Atomic U8) 16 U32)] in
  let r := VObj "R" [("a", VInt 5); ("b", VList [VInt 1; VInt 2; VInt 3])] in
  pack R r FORMAT_BORSCH None
  = (Raise (PodPathError "Failed to serialize dataclass" ["b"; "R"] "Vec"
              (VList [VInt 1; VInt 2; VInt 3]) (Some keyword_error)), None) /\
  is_static R = Raise (AttributeError IS_STATIC) /\
  var_len_array_to_bytes_partial
    (fun elem => pack_partial (Atomic U8) elem FORMAT_BORSCH) 16 U32
    (VList [VInt 1; VInt 2; VInt 3]) (mkWorld [x05] 1 None)
  = (Ok tt, mkWorld [x05; x03; x00; x00; x00; x01; x02; x03] 8 None).
Proof. cbv zeta. repeat split. Qed.

(** The fixed codecs, called as declared, pad with zero bytes and cannot
    tell padding from content: a short byte string comes back padded, and a
    string is cut at its first zero code point. *)
Example fixed_codecs_padding :
  let w := mkWorld [] 0 None in
  fixed_len_bytes_to_bytes_partial 2 (VBytes [x61]) w
  = (Ok tt, mkWorld [x61; x00] 2 None) /\
  fixed_len_bytes_from_bytes_partial 2 (mkWorld [x61; x00] 0 None)
  = (Ok (VBytes [x61; x00]), mkWorld [x61; x00] 2 None) /\
  fixed_len_str_to_bytes_partial 4 UTF_8 true (VStr [97; 0; 98]%N) w
  = (Ok tt, mkWorld [x61; x00; x62; x00] 4 None) /\
  fixed_len_str_from_bytes_partial 4 UTF_8 true
    (mkWorld [x61; x00; x62; x00] 0 None)
  = (Ok (VStr [97%N]), mkWorld [x61; x00; x62; x00] 4 None).
Proof. cbv zeta. repeat split. Qed.

(** * Further properties of the code *)

(** ** Field loops over an arbitrary layout *)

Section FieldLoopsOverLayout.

Variable L : PodType -> value -> bool.
Variable W : PodType -> value -> bytes.
Variable format : Format.
Variable name : string.

Lemma assoc_in_lockstep (fields : list (string * PodType))
    (attrs : list (string * value)) :
  legal_fields L fields attrs = true ->
  distinct (map fst fields) = true ->
  forall f a, In (f, a) (combine fields attrs) ->
              assoc (fst f) attrs = Some (snd a).
Proof.
  revert attrs. induction fields as [|f0 fr IH]; intros [|a0 ar] Hl Hd f a Hin;
    simpl in *; try discriminate Hl; try contradiction.
  apply andb_prop in Hl. destruct Hl as [Hl Hr].
  apply andb_prop in Hl. destruct Hl as [Hn _].
  apply andb_prop in Hd. destruct Hd as [Hx Hd].
  apply negb_true_iff in Hx. apply String.eqb_eq in Hn.
  destruct a0 as [n0 v0]; simpl in *. subst n0.
  destruct Hin as [Heq|Hin].
  - inversion Heq; subst. simpl. now rewrite String.eqb_refl.
  - assert (Hne : String.eqb (fst f) (fst f0) = false).
    { apply (distinct_not_in _ _ Hx). apply in_map_iff.
      exists f. split; [reflexivity|]. now apply in_combine_l in Hin. }
    rewrite Hne. now apply IH.
Qed.

Lemma layout_fields_pack (obj : value) (fields : list (string * PodType)) :
  Forall (fun f => forall v w,
              L (snd f) v = true -> at_end w ->
              pack_partial (snd f) v format w
              = (Ok tt, appended w (W (snd f) v))) fields ->
  forall attrs w,
    legal_fields L fields attrs = true ->
    (forall f a, In (f, a) (combine fields attrs) ->
                 py_getattr obj (fst f) = Ok (snd a)) ->
    at_end w ->
    fields_to_bytes_partial (fun ty v => pack_partial ty v format)
                            name fields obj w
    = (Ok tt, appended w (wire_fields W fields attrs)).
Proof.
  induction 1 as [|f fr Hf _ IH]; intros [|a ar] w Hl Hget Hend;
    simpl in Hl; try discriminate Hl.
  - simpl. unfold ret. now rewrite appended_nil.
  - apply andb_prop in Hl. destruct Hl as [Hl Hr].
    apply andb_prop in Hl. destruct Hl as [_ Hv].
    cbn [fields_to_bytes_partial wire_fields].
    assert (Hstep : field_to_bytes_partial
                      (fun ty v => pack_partial ty v format) name obj f w
                    = (Ok tt, appended w (W (snd f) (snd a)))).
    { unfold field_to_bytes_partial.
      rewrite (Hget f a) by (left; reflexivity).
      unfold try_except. now rewrite Hf. }
    rewrite (bind_ok _ _ _ _ _ Hstep).
    rewrite (IH ar (appended w (W (snd f) (snd a))) Hr).
    + now rewrite appended_appended.
    + intros f' a' Hin. apply Hget. right. exact Hin.
    + apply appended_at_end.
Qed.

Lemma layout_fields_unpack (d : bytes) (tag : option atomic)
    (fields : list (string * PodType)) :
  Forall (fun f => forall v post p,
              L (snd f) v = true ->
              skipn p d = W (snd f) v ++ post ->
              unpack_partial (snd f) format (mkWorld d p tag)
              = (Ok v, mkWorld d (p + List.length (W (snd f) v)) tag))
         fields ->
  forall attrs post p,
    legal_fields L fields attrs = true ->
    skipn p d = wire_fields W fields attrs ++ post ->
    fields_from_bytes_partial (fun ty => unpack_partial ty format)
                              name fields (mkWorld d p tag)
    = (Ok attrs,
       mkWorld d (p + List.length (wire_fields W fields attrs)) tag).
Proof.
  induction 1 as [|f fr Hf _ IH]; intros [|a ar] post p Hl Hd;
    simpl in Hl; try discriminate Hl.
  - simpl. unfold ret. now rewrite Nat.add_0_r.
  - apply andb_prop in Hl. destruct Hl as [Hl Hr].
    apply andb_prop in Hl. destruct Hl as [Hn Hv].
    apply String.eqb_eq in Hn.
    cbn [fields_from_bytes_partial wire_fields] in *.
    rewrite <- app_assoc in Hd.
    assert (Hstep : field_from_bytes_partial
                      (fun ty => unpack_partial ty format) name f
                      (mkWorld d p tag)
                    = (Ok (snd a),
                       mkWorld d (p + List.length (W (snd f) (snd a))) tag)).
    { unfold field_from_bytes_partial, try_except.
      now rewrite (Hf (snd a) _ p Hv Hd). }
    rewrite (bind_ok _ _ _ _ _ Hstep).
    assert (Hrest : skipn (p + List.length (W (snd f) (snd a))) d
                    = wire_fields W fr ar ++ post).
    { rewrite Nat.add_comm, <- skipn_skipn, Hd.
      rewrite skipn_app, Nat.sub_diag, skipn_all. reflexivity. }
    rewrite (bind_ok _ _ _ _ _ (IH ar post _ Hr Hrest)).
    unfold ret. rewrite length_app, Nat.add_assoc.
    destruct a as [n v]; simpl in *. subst n. reflexivity.
Qed.

End FieldLoopsOverLayout.

(** ** Tagged types: layout, size and round trip *)

Lemma tag_type_of_concrete (format : Format) (t : atomic) :
  tag_type_of format = Some t -> concrete format = true.
Proof. destruct format; intros H; try discriminate H; reflexivity. Qed.

Lemma negotiate_installed {A} (format : Format) (t : atomic) (step : M A)
    (w : world) (r : result A) (d : bytes) (p : nat) :
  tag_type_of format = Some t ->
  step (set_tag (Some t) w) = (r, mkWorld d p (Some t)) ->
  negotiate format step w = (r, mkWorld d p (TAG_TYPE w)).
Proof.
  intros Hf Hstep.
  destruct format; try discriminate Hf; inversion Hf; subst t; simpl;
    unfold AutoTagTypeValueManager; now rewrite Hstep.
Qed.

Lemma atomic_pack_in_range (a : atomic) (n : Z) (format : Format) (w : world) :
  in_range a n = true -> concrete format = true -> at_end w ->
  atomic_pack_partial a (VInt n) format w
  = (Ok tt, appended w (to_little_endian (atomic_size a) n)).
Proof.
  intros Hr Hf Hend.
  rewrite atomic_pack_partial_concrete by exact Hf.
  unfold atomic_to_bytes_partial. unfold in_range in Hr. rewrite Hr.
  unfold buffer_write, appended, set_buffer. rewrite Hend, write_at_end.
  now rewrite to_little_endian_length.
Qed.

Lemma atomic_unpack_in_range (a : atomic) (n : Z) (format : Format)
    (d post : bytes) (p : nat) (tag : option atomic) :
  in_range a n = true ->
  (concrete format = true \/ format = FORMAT_AUTO) ->
  skipn p d = to_little_endian (atomic_size a) n ++ post ->
  atomic_unpack_partial a format (mkWorld d p tag)
  = (Ok (VInt n), mkWorld d (p + atomic_size a) tag).
Proof.
  intros Hr Hf Hd.
  rewrite atomic_unpack_partial_any by exact Hf.
  unfold atomic_from_bytes_partial, bind, buffer_read, ret, set_buffer.
  cbn [buffer_data buffer_pos TAG_TYPE]. rewrite Hd.
  rewrite firstn_app, to_little_endian_length, Nat.sub_diag, firstn_O,
    app_nil_r.
  rewrite firstn_all2 by (rewrite to_little_endian_length; lia).
  rewrite from_to_little_endian_small, to_little_endian_length; [reflexivity|].
  unfold in_range in Hr. apply andb_prop in Hr. destruct Hr as [H0 H1].
  apply Z.leb_le in H0. apply Z.ltb_lt in H1. lia.
Qed.

(** Packing a legal value of a tagged descriptor under Canonical or
    ZeroCopy appends its layout under the tag type of the format. *)
Lemma tagged_pack_partial (T : PodType) :
  tagged T = true ->
  forall v format t w,
    tag_type_of format = Some t -> legal_under t T v = true -> at_end w ->
    pack_partial T v format w = (Ok tt, appended w (wire_under t T v)).
Proof.
  induction T using PodType_nested_ind; intros Hp v format t w Hf Hl Hend;
    try discriminate Hp.
  - destruct v; try discriminate Hl. cbn [legal_under wire_under] in *.
    change (pack_partial (Atomic a) (VInt n) format)
      with (atomic_pack_partial a (VInt n) format).
    apply atomic_pack_in_range; eauto using tag_type_of_concrete.
  - destruct v; try discriminate Hl. cbn [legal_under wire_under] in *.
    assert (Hp' : pack_partial AutoTagType (VInt n) format
                  = negotiate format (AutoTagType_to_bytes_partial (VInt n) format))
      by reflexivity.
    rewrite Hp'. unfold appended.
    apply (negotiate_installed format t); [exact Hf|].
    unfold AutoTagType_to_bytes_partial. cbn [set_tag TAG_TYPE].
    rewrite atomic_pack_in_range;
      [reflexivity|exact Hl|eauto using tag_type_of_concrete
      |now apply at_end_set_tag].
  - destruct v as [| | | | |cls attrs]; try discriminate Hl.
    cbn [tagged] in Hp. apply andb_prop in Hp. destruct Hp as [Hp Hd].
    cbn [legal_under] in Hl. apply andb_prop in Hl. destruct Hl as [Hc Hl].
    cbn [wire_under].
    destruct (dataclass_hooks name fields (VObj cls attrs) format None)
      as (_ & _ & Hpack & _).
    rewrite Hpack. unfold appended.
    apply (negotiate_installed format t); [exact Hf|].
    unfold dataclass_to_bytes_partial.
    rewrite (layout_fields_pack (legal_under t) (wire_under t) format name
                                (VObj cls attrs) fields)
      with (attrs := attrs).
    + reflexivity.
    + rewrite Forall_forall in H. apply Forall_forall. intros f Hin v w0 Hv He.
      apply H; try assumption.
      rewrite forallb_forall in Hp. now apply Hp.
    + exact Hl.
    + intros f a Hin. unfold py_getattr.
      now rewrite (assoc_in_lockstep (legal_under t) fields attrs Hl Hd f a Hin).
    + now apply at_end_set_tag.
Qed.

(** Unpacking under the same format reads the layout back. *)
Lemma tagged_unpack_partial (T : PodType) :
  tagged T = true ->
  forall v format t d post p tag,
    tag_type_of format = Some t -> legal_under t T v = true ->
    skipn p d = wire_under t T v ++ post ->
    unpack_partial T format (mkWorld d p tag)
    = (Ok v, mkWorld d (p + List.length (wire_under t T v)) tag).
Proof.
  induction T using PodType_nested_ind;
    intros Hp v format t d post p tag Hf Hl Hd; try discriminate Hp.
  - destruct v; try discriminate Hl. cbn [legal_under wire_under] in *.
    change (unpack_partial (Atomic a) format) with (atomic_unpack_partial a format).
    rewrite to_little_endian_length.
    apply atomic_unpack_in_range with (post := post);
      eauto using tag_type_of_concrete.
  - destruct v; try discriminate Hl. cbn [legal_under wire_under] in *.
    assert (Hu : unpack_partial AutoTagType format
                 = negotiate format (AutoTagType_from_bytes_partial format))
      by (destruct format; try discriminate Hf; reflexivity).
    rewrite Hu. change tag with (TAG_TYPE (mkWorld d p tag)) at 2.
    apply (negotiate_installed format t); [exact Hf|].
    unfold AutoTagType_from_bytes_partial, set_tag.
    cbn [buffer_data buffer_pos TAG_TYPE].
    rewrite to_little_endian_length.
    apply atomic_unpack_in_range with (post := post);
      eauto using tag_type_of_concrete.
  - destruct v as [| | | | |cls attrs]; try discriminate Hl.
    cbn [tagged] in Hp. apply andb_prop in Hp. destruct Hp as [Hp Hdis].
    cbn [legal_under] in Hl. apply andb_prop in Hl. destruct Hl as [Hc Hl].
    apply String.eqb_eq in Hc. subst cls.
    cbn [wire_under] in *.
    assert (Hu : unpack_partial (Dataclass name fields) format
                 = negotiate format
                     (dataclass_from_bytes_partial name fields format))
      by (destruct format; try discriminate Hf; reflexivity).
    rewrite Hu. change tag with (TAG_TYPE (mkWorld d p tag)) at 2.
    apply (negotiate_installed format t); [exact Hf|].
    unfold dataclass_from_bytes_partial, set_tag.
    cbn [buffer_data buffer_pos TAG_TYPE].
    erewrite bind_ok; [reflexivity|].
    apply layout_fields_unpack with (L := legal_under t) (post := post);
      try assumption.
    rewrite Forall_forall in H. apply Forall_forall.
    intros f Hin v post0 p0 Hv Hs.
    apply H with (t := t) (post := post0); try assumption.
    rewrite forallb_forall in Hp. now apply Hp.
Qed.

Lemma tagged_wire_length (T : PodType) :
  tagged T = true ->
  forall t v, legal_under t T v = true ->
              List.length (wire_under t T v) = size_under t T.
Proof.
  induction T using PodType_nested_ind; intros Hp t v Hl; try discriminate Hp.
  - destruct v; try discriminate Hl. apply to_little_endian_length.
  - destruct v; try discriminate Hl. apply to_little_endian_length.
  - destruct v as [| | | | |cls attrs]; try discriminate Hl.
    cbn [tagged] in Hp. apply andb_prop in Hp. destruct Hp as [Hp _].
    cbn [legal_under] in Hl. apply andb_prop in Hl. destruct Hl as [_ Hl].
    cbn [wire_under size_under].
    rewrite forallb_forall in Hp. rewrite Forall_forall in H.
    revert attrs Hl. induction fields as [|f fr IH]; intros [|a ar] Hl;
      simpl in Hl; try discriminate Hl; [reflexivity|].
    apply andb_prop in Hl. destruct Hl as [Hl Hr].
    apply andb_prop in Hl. destruct Hl as [_ Hv].
    cbn [wire_fields map list_sum fold_right]. rewrite length_app.
    rewrite (H f (or_introl eq_refl) (Hp f (or_introl eq_refl)) t _ Hv).
    f_equal. apply IH; try assumption.
    + intros x Hx. apply H. now right.
    + intros x Hx. apply Hp. now right.
Qed.

Lemma fields_calc_max_size_sum (calc : PodType -> result Z)
    (size : PodType -> nat) (fields : list (string * PodType)) :
  Forall (fun f => calc (snd f) = Ok (Z.of_nat (size (snd f)))) fields ->
  forall total,
    fields_calc_max_size calc fields total
    = Ok (total + Z.of_nat (list_sum (map (fun f => size (snd f)) fields))).
Proof.
  induction 1 as [|f fr Hf _ IH]; intros total; simpl.
  - now rewrite Z.add_0_r.
  - rewrite Hf. cbn [result_bind]. rewrite IH. f_equal. lia.
Qed.

(** The catalog's maximum size of a tagged descriptor, with a tag type
    installed, is the size of its layout under that tag type. *)
Lemma tagged_calc_max_size (T : PodType) :
  tagged T = true ->
  forall t, calc_max_size T (Some t) = Ok (Z.of_nat (size_under t T)).
Proof.
  induction T using PodType_nested_ind; intros Hp t; try discriminate Hp.
  - reflexivity.
  - reflexivity.
  - cbn [tagged] in Hp. apply andb_prop in Hp. destruct Hp as [Hp _].
    destruct (dataclass_hooks name fields VNone FORMAT_PASS (Some t))
      as (_ & Hsize & _).
    rewrite Hsize. unfold dataclass_calc_max_size. cbn [size_under].
    rewrite (fields_calc_max_size_sum _ (size_under t)); [reflexivity|].
    rewrite forallb_forall in Hp. rewrite Forall_forall in H.
    apply Forall_forall. intros f Hin. apply H; [exact Hin|now apply Hp].
Qed.

Lemma size_under_le (T : PodType) : (size_under U8 T <= size_under U64 T)%nat.
Proof.
  induction T using PodType_nested_ind; cbn [size_under]; simpl; try lia.
  induction H as [|f fr Hf _ IH]; simpl; lia.
Qed.

Lemma size_under_lt (T : PodType) :
  tagged T = true -> plain T = false ->
  (size_under U8 T < size_under U64 T)%nat.
Proof.
  induction T using PodType_nested_ind; intros Ht Hp;
    try discriminate Ht; try discriminate Hp.
  - simpl. lia.
  - cbn [tagged] in Ht. apply andb_prop in Ht. destruct Ht as [Ht Hd].
    cbn [plain] in Hp. rewrite Hd, andb_true_r in Hp.
    cbn [size_under]. clear Hd.
    induction H as [|f fr Hf _ IH]; [discriminate Hp|].
    cbn [forallb] in *. apply andb_prop in Ht. destruct Ht as [Htf Htr].
    cbn [map list_sum fold_right].
    pose proof (size_under_le (snd f)) as Hle.
    assert (Hrest : (list_sum (map (fun f => size_under U8 (snd f)) fr)
                     <= list_sum (map (fun f => size_under U64 (snd f)) fr))%nat).
    { clear. induction fr as [|g gr IHg]; simpl; [lia|].
      pose proof (size_under_le (snd g)). lia. }
    destruct (plain (snd f)) eqn:Epf.
    + cbn [andb] in Hp. specialize (IH Htr Hp). unfold list_sum in *. lia.
    + specialize (Hf Htf eq_refl). unfold list_sum in *. lia.
Qed.

Lemma plain_legal_fields (t : atomic) (fields : list (string * PodType)) :
  Forall (fun f => forall v, legal_under t (snd f) v = legal (snd f) v
                             /\ wire_under t (snd f) v = wire (snd f) v)
         fields ->
  forall attrs,
    legal_fields (legal_under t) fields attrs = legal_fields legal fields attrs
    /\ wire_fields (wire_under t) fields attrs = wire_fields wire fields attrs.
Proof.
  induction 1 as [|f fr Hf _ IH]; intros [|a ar]; simpl; try (split; reflexivity).
  destruct (Hf (snd a)) as [Hl Hw]. destruct (IH ar) as [Hlr Hwr].
  rewrite Hl, Hw, Hlr, Hwr. split; reflexivity.
Qed.

(** A descriptor without [AutoTagType] has one layout, whatever the tag
    type. *)
Lemma plain_layout (T : PodType) :
  plain T = true ->
  forall t v, legal_under t T v = legal T v /\ wire_under t T v = wire T v.
Proof.
  induction T using PodType_nested_ind; intros Hp t v; try discriminate Hp.
  - destruct v; split; reflexivity.
  - cbn [plain] in Hp. apply andb_prop in Hp. destruct Hp as [Hp _].
    destruct v as [| | | | |cls attrs]; try (split; reflexivity).
    cbn [legal_under legal wire_under wire].
    assert (HF : Forall (fun f => forall v,
                   legal_under t (snd f) v = legal (snd f) v
                   /\ wire_under t (snd f) v = wire (snd f) v) fields).
    { rewrite forallb_forall in Hp. rewrite Forall_forall in H.
      apply Forall_forall. intros f Hin v. apply H; [exact Hin|now apply Hp]. }
    destruct (plain_legal_fields t fields HF attrs) as [Hl Hw].
    rewrite Hl, Hw. split; reflexivity.
Qed.

Lemma plain_tagged (T : PodType) : plain T = true -> tagged T = true.
Proof.
  induction T using PodType_nested_ind; intros Hp; try discriminate Hp;
    try reflexivity.
  cbn [plain] in Hp. apply andb_prop in Hp. destruct Hp as [Hp Hd].
  cbn [tagged]. rewrite Hd, andb_true_r.
  rewrite forallb_forall in *. rewrite Forall_forall in H.
  intros f Hin. apply H; [exact Hin|now apply Hp].
Qed.

Lemma in_range_widen (n : Z) : in_range U8 n = true -> in_range U64 n = true.
Proof.
  unfold in_range. intros H. apply andb_prop in H. destruct H as [H0 H1].
  apply Z.leb_le in H0. apply Z.ltb_lt in H1.
  apply andb_true_intro. split; [now apply Z.leb_le|].
  apply Z.ltb_lt. simpl in *. lia.
Qed.

Lemma tagged_pack (T : PodType) (v : value) (format : Format) (t : atomic)
    (tag : option atomic) :
  tagged T = true -> tag_type_of format = Some t ->
  legal_under t T v = true ->
  pack T v format tag = (Ok (wire_under t T v), tag).
Proof.
  intros Hp Hf Hl. unfold pack.
  rewrite (tagged_pack_partial T Hp v format t (mkWorld [] 0 tag) Hf Hl)
    by reflexivity.
  reflexivity.
Qed.

Lemma tagged_unpack_whole (T : PodType) (v : value) (format : Format)
    (t : atomic) (tag : option atomic) :
  tagged T = true -> tag_type_of format = Some t ->
  legal_under t T v = true ->
  unpack_partial T format (mkWorld (wire_under t T v) 0 tag)
  = (Ok v, mkWorld (wire_under t T v) (List.length (wire_under t T v)) tag).
Proof.
  intros Hp Hf Hl.
  rewrite (tagged_unpack_partial T Hp v format t _ [] 0 tag Hf Hl)
    by (simpl; now rewrite app_nil_r).
  reflexivity.
Qed.

Lemma unpack_of_partial (T : PodType) (raw : bytes) (checked : bool)
    (format : Format) (tag : option atomic) (v : value) :
  unpack_partial T format (mkWorld raw 0 tag)
  = (Ok v, mkWorld raw (List.length raw) tag) ->
  unpack T raw checked format tag = (Ok v, tag).
Proof.
  intros H. unfold unpack. rewrite H. cbn [buffer_pos buffer_data TAG_TYPE].
  now rewrite Nat.ltb_irrefl, andb_false_r.
Qed.

(** Under [FORMAT_AUTO] the bytes packed under either format are decoded
    under a format that reads them back. *)
Lemma tagged_unpack_auto (T : PodType) (v : value) (format : Format)
    (t : atomic) (tag : option atomic) :
  tagged T = true -> tag_type_of format = Some t ->
  legal_under t T v = true ->
  unpack_partial T FORMAT_AUTO (mkWorld (wire_under t T v) 0 tag)
  = (Ok v, mkWorld (wire_under t T v) (List.length (wire_under t T v)) tag).
Proof.
  intros Hp Hf Hl.
  rewrite (unpack_partial_auto T _ _ (tagged_calc_max_size T Hp U64)).
  unfold selected_format, end_offset. cbn [buffer_data].
  rewrite (tagged_wire_length T Hp t v Hl).
  destruct format; try discriminate Hf; inversion Hf; subst t.
  - destruct (Z.of_nat (size_under U64 T) =? Z.of_nat (size_under U8 T)) eqn:E.
    + apply Z.eqb_eq in E.
      destruct (plain T) eqn:Epl.
      * destruct (plain_layout T Epl U8 v) as [Hl8 Hw8].
        destruct (plain_layout T Epl U64 v) as [Hl64 Hw64].
        rewrite <- (tagged_wire_length T Hp U8 v Hl).
        rewrite Hw8, <- Hw64.
        apply tagged_unpack_whole; auto. now rewrite Hl64, <- Hl8.
      * pose proof (size_under_lt T Hp Epl). lia.
    + rewrite <- (tagged_wire_length T Hp U8 v Hl).
      apply tagged_unpack_whole; auto.
  - rewrite Z.eqb_refl.
    rewrite <- (tagged_wire_length T Hp U64 v Hl).
    apply tagged_unpack_whole; auto.
Qed.

Lemma plain_calc_max_size_any (T : PodType) :
  plain T = true ->
  forall tag t, calc_max_size T tag = Ok (Z.of_nat (size_under t T)).
Proof.
  induction T using PodType_nested_ind; intros Hp tag t; try discriminate Hp.
  - reflexivity.
  - cbn [plain] in Hp. apply andb_prop in Hp. destruct Hp as [Hp _].
    destruct (dataclass_hooks name fields VNone FORMAT_PASS tag)
      as (_ & Hsize & _).
    rewrite Hsize. unfold dataclass_calc_max_size. cbn [size_under].
    rewrite (fields_calc_max_size_sum _ (size_under t)); [reflexivity|].
    rewrite forallb_forall in Hp. rewrite Forall_forall in H.
    apply Forall_forall. intros f Hin. apply H; [exact Hin|now apply Hp].
Qed.

Lemma tagged_calc_max_size_outside (T : PodType) :
  tagged T = true -> plain T = false -> calc_max_size T None = Raise size_error.
Proof.
  induction T using PodType_nested_ind; intros Ht Hp;
    try discriminate Ht; try discriminate Hp.
  - reflexivity.
  - cbn [tagged] in Ht. apply andb_prop in Ht. destruct Ht as [Ht Hd].
    cbn [plain] in Hp. rewrite Hd, andb_true_r in Hp.
    destruct (dataclass_hooks name fields VNone FORMAT_PASS None)
      as (_ & Hsize & _).
    rewrite Hsize. unfold dataclass_calc_max_size. clear Hsize Hd.
    generalize 0. induction H as [|f fr Hf _ IH]; intros total;
      [discriminate Hp|].
    cbn [forallb] in *. apply andb_prop in Ht. destruct Ht as [Htf Htr].
    cbn [fields_calc_max_size].
    destruct (plain (snd f)) eqn:Epf.
    + rewrite (plain_calc_max_size_any (snd f) Epf None U8).
      cbn [result_bind]. apply IH; assumption.
    + now rewrite (Hf Htf eq_refl).
Qed.

(** X1.  Round trip of the types the catalog can dispatch: for a type
    built from atomic integers, [AutoTagType] and dataclasses, and a value
    legal under the tag type of the format, [pack] under Canonical or
    ZeroCopy returns the layout of the value, and [unpack] of those bytes
    returns the value, under the same format and under Auto alike. *)
Theorem tagged_round_trip :
  forall (T : PodType) (v : value) (format : Format) (t : atomic)
         (checked : bool) (tag : option atomic),
    tagged T = true -> tag_type_of format = Some t ->
    legal_under t T v = true ->
    pack T v format tag = (Ok (wire_under t T v), tag) /\
    unpack T (wire_under t T v) checked format tag = (Ok v, tag) /\
    unpack T (wire_under t T v) checked FORMAT_AUTO tag = (Ok v, tag).
Proof.
  intros T v format t checked tag Ht Hf Hl. split; [|split].
  - now apply tagged_pack.
  - apply unpack_of_partial. now apply tagged_unpack_whole.
  - apply unpack_of_partial. now apply tagged_unpack_auto with (format := format).
Qed.

Lemma tagged_round_trip_witness :
  let E := Dataclass "E" [("kind", AutoTagType); ("x", Atomic U32)] in
  let v := VObj "E" [("kind", VInt 2); ("x", VInt 7)] in
  pack E v FORMAT_BORSCH None = (Ok [x02; x07; x00; x00; x00], None) /\
  unpack E [x02; x07; x00; x00; x00] true FORMAT_AUTO None = (Ok v, None).
Proof.
  cbv zeta.
  destruct (tagged_round_trip
              (Dataclass "E" [("kind", AutoTagType); ("x", Atomic U32)])
              (VObj "E" [("kind", VInt 2); ("x", VInt 7)])
              FORMAT_BORSCH U8 true None eq_refl eq_refl eq_refl)
    as (Hp & _ & Ha).
  split; [exact Hp|exact Ha].
Defined.

(** X2.  Sizes of the types the catalog can dispatch: the bytes [pack]
    returns are as many as [calc_max_size] reports with the tag type of
    the format installed; they are never more than the size reported under
    [U64], as many under ZeroCopy, and fewer under Canonical exactly when
    the type contains an [AutoTagType]. *)
Theorem tagged_packed_size :
  forall (T : PodType) (v : value) (format : Format) (t : atomic)
         (tag : option atomic),
    tagged T = true -> tag_type_of format = Some t ->
    legal_under t T v = true ->
    exists raw n64,
      pack T v format tag = (Ok raw, tag) /\
      calc_max_size T (Some t) = Ok (Z.of_nat (List.length raw)) /\
      calc_max_size T (Some U64) = Ok n64 /\
      Z.of_nat (List.length raw) <= n64 /\
      (format = FORMAT_ZERO_COPY -> Z.of_nat (List.length raw) = n64) /\
      (plain T = true -> Z.of_nat (List.length raw) = n64) /\
      (format = FORMAT_BORSCH -> plain T = false ->
       Z.of_nat (List.length raw) < n64).
Proof.
  intros T v format t tag Ht Hf Hl.
  exists (wire_under t T v), (Z.of_nat (size_under U64 T)).
  rewrite (tagged_wire_length T Ht t v Hl).
  split; [now apply tagged_pack|].
  split; [now apply tagged_calc_max_size|].
  split; [now apply tagged_calc_max_size|].
  pose proof (size_under_le T) as Hle.
  assert (Ht8 : t = U8 \/ t = U64)
    by (destruct format; try discriminate Hf; inversion Hf; auto).
  repeat split.
  - destruct Ht8; subst t; lia.
  - intros ->. inversion Hf. reflexivity.
  - intros Hp.
    pose proof (plain_calc_max_size_any T Hp None t) as H1.
    pose proof (plain_calc_max_size_any T Hp None U64) as H2.
    congruence.
  - intros -> Hp. inversion Hf. pose proof (size_under_lt T Ht Hp). lia.
Qed.

Lemma tagged_packed_size_witness :
  let E := Dataclass "E" [("kind", AutoTagType); ("x", Atomic U32)] in
  let v := VObj "E" [("kind", VInt 2); ("x", VInt 7)] in
  exists raw n64,
    pack E v FORMAT_BORSCH None = (Ok raw, None) /\
    calc_max_size E (Some U64) = Ok n64 /\
    Z.of_nat (List.length raw) < n64.
Proof.
  cbv zeta.
  destruct (tagged_packed_size
              (Dataclass "E" [("kind", AutoTagType); ("x", Atomic U32)])
              (VObj "E" [("kind", VInt 2); ("x", VInt 7)])
              FORMAT_BORSCH U8 None eq_refl eq_refl eq_refl)
    as (raw & n64 & Hp & _ & Hn & _ & _ & _ & Hlt).
  exists raw, n64. repeat split; try assumption.
  apply Hlt; reflexivity.
Defined.

(** X3.  Outside a negotiated call the tag slot is empty, and the maximum
    size of a type that contains an [AutoTagType] cannot be computed:
    [calc_max_size] raises the catalog's no-converter error; a type without
    one has the same maximum size whatever the slot holds. *)
Theorem calc_max_size_needs_tag_context :
  forall T : PodType,
    tagged T = true ->
    (plain T = false -> calc_max_size T None = Raise size_error) /\
    (plain T = true ->
     forall tag tag', calc_max_size T tag = calc_max_size T tag' /\
                      exists n, calc_max_size T tag = Ok n).
Proof.
  intros T Ht. split.
  - now apply tagged_calc_max_size_outside.
  - intros Hp tag tag'.
    rewrite (plain_calc_max_size_any T Hp tag U8),
      (plain_calc_max_size_any T Hp tag' U8).
    split; [reflexivity|eexists; reflexivity].
Qed.

Lemma calc_max_size_needs_tag_context_witness :
  calc_max_size (Dataclass "E" [("x", Atomic U32); ("kind", AutoTagType)]) None
  = Raise size_error /\
  exists n, calc_max_size (Dataclass "R" [("x", Atomic U32)]) None = Ok n.
Proof.
  split.
  - apply (calc_max_size_needs_tag_context
             (Dataclass "E" [("x", Atomic U32); ("kind", AutoTagType)])
             eq_refl); reflexivity.
  - apply (calc_max_size_needs_tag_context
             (Dataclass "R" [("x", Atomic U32)]) eq_refl); [reflexivity|exact None].
Defined.



(** ** Packing only appends *)

Lemma appends_ret {A} (a : A) : appends (ret a).
Proof. intros w H. split; [exact H|]. exists []. simpl. now rewrite app_nil_r. Qed.

Lemma appends_raise {A} (e : exn) : appends (@raise A e).
Proof. intros w H. split; [exact H|]. exists []. simpl. now rewrite app_nil_r. Qed.

Lemma appends_lift {A} (r : result A) : appends (lift r).
Proof. intros w H. split; [exact H|]. exists []. simpl. now rewrite app_nil_r. Qed.

Lemma appends_bind {A B} (m : M A) (k : A -> M B) :
  appends m -> (forall a, appends (k a)) -> appends (bind m k).
Proof.
  intros Hm Hk w Hw. unfold bind.
  destruct (Hm w Hw) as [He [b Hb]].
  destruct (m w) as [[a|e] w1]; simpl in *.
  - destruct (Hk a w1 He) as [He2 [b2 Hb2]]. split; [exact He2|].
    exists (b ++ b2). now rewrite Hb2, Hb, app_assoc.
  - split; [exact He|]. now exists b.
Qed.

Lemma appends_try_except {A} (m : M A) (h : exn -> exn) :
  appends m -> appends (try_except m h).
Proof.
  intros Hm w Hw. unfold try_except. specialize (Hm w Hw).
  destruct (m w) as [[a|e] w1]; exact Hm.
Qed.

Lemma appends_manager {A} (t : atomic) (body : M A) :
  appends body -> appends (AutoTagTypeValueManager t body).
Proof.
  intros Hb w Hw. unfold AutoTagTypeValueManager.
  specialize (Hb (set_tag (Some t) w) (at_end_set_tag _ _ Hw)).
  destruct (body (set_tag (Some t) w)) as [r w1]. simpl in *.
  destruct Hb as [He Hd]. split; [|exact Hd].
  unfold at_end in *. exact He.
Qed.

Lemma appends_negotiate {A} (format : Format) (step : M A) :
  appends step -> appends (negotiate format step).
Proof.
  intros Hs. destruct format; simpl;
    auto using appends_manager, appends_raise.
Qed.

Lemma appends_for_each {A} (l : list A) (body : A -> M unit) :
  (forall a, appends (body a)) -> appends (for_each l body).
Proof.
  intros Hb. induction l as [|a l IH]; simpl.
  - apply appends_ret.
  - apply appends_bind; auto.
Qed.

Lemma appends_buffer_write (b : bytes) : appends (buffer_write b).
Proof.
  intros w Hw. unfold buffer_write. simpl. rewrite Hw, write_at_end.
  split; [|now exists b].
  unfold at_end. simpl. now rewrite length_app.
Qed.

Lemma appends_py_write (obj : value) : appends (py_write obj).
Proof.
  destruct obj; simpl; auto using appends_raise, appends_buffer_write.
Qed.

Lemma appends_atomic_to_bytes_partial (a : atomic) (obj : value) :
  appends (atomic_to_bytes_partial a obj).
Proof.
  unfold atomic_to_bytes_partial. destruct obj; try apply appends_raise.
  destruct (_ && _); auto using appends_raise, appends_buffer_write.
Qed.

Lemma appends_atomic_pack_partial (a : atomic) (obj : value) (format : Format) :
  appends (atomic_pack_partial a obj format).
Proof.
  unfold atomic_pack_partial. apply appends_negotiate.
  apply appends_bind; [apply appends_lift|intros env].
  apply appends_bind; [apply appends_lift|intros o].
  apply appends_atomic_to_bytes_partial.
Qed.

Lemma appends_AutoTagType_to_bytes_partial (obj : value) (format : Format) :
  appends (AutoTagType_to_bytes_partial obj format).
Proof.
  intros w Hw. unfold AutoTagType_to_bytes_partial.
  destruct (TAG_TYPE w).
  - now apply appends_atomic_pack_partial.
  - now apply (appends_raise (A := unit)).
Qed.

Lemma appends_write_length (length_type : atomic) (max_length : Z)
    (obj : value) :
  appends (write_length length_type max_length obj).
Proof.
  unfold write_length. apply appends_bind; [apply appends_lift|intros n].
  destruct (_ >? _); [apply appends_raise|apply appends_atomic_pack_partial].
Qed.

Lemma appends_fields_to_bytes_partial
    (pack_ : PodType -> value -> M unit) (name : string)
    (fields : list (string * PodType)) (obj : value) :
  Forall (fun f => forall v, appends (pack_ (snd f) v)) fields ->
  appends (fields_to_bytes_partial pack_ name fields obj).
Proof.
  induction 1 as [|f fs Hf _ IH]; simpl; [apply appends_ret|].
  apply appends_bind; [|intros _; exact IH].
  unfold field_to_bytes_partial.
  destruct (py_getattr obj (fst f));
    auto using appends_raise, appends_try_except.
Qed.

Section ContainerHooksAppend.

Variable pack_elem : value -> M unit.
Hypothesis pack_elem_appends : forall elem, appends (pack_elem elem).

Lemma appends_fixed_len_array (obj : value) :
  appends (fixed_len_array_to_bytes_partial pack_elem obj).
Proof.
  unfold fixed_len_array_to_bytes_partial.
  apply appends_bind; [apply appends_lift|intros elems].
  now apply appends_for_each.
Qed.

Lemma appends_var_len_array (max_length : Z) (length_type : atomic)
    (obj : value) :
  appends (var_len_array_to_bytes_partial pack_elem max_length length_type obj).
Proof.
  unfold var_len_array_to_bytes_partial.
  apply appends_bind; [apply appends_write_length|intros _].
  apply appends_bind; [apply appends_lift|intros elems].
  now apply appends_for_each.
Qed.

End ContainerHooksAppend.

Lemma appends_fixed_len_bytes (length : nat) (obj : value) :
  appends (fixed_len_bytes_to_bytes_partial length obj).
Proof.
  unfold fixed_len_bytes_to_bytes_partial.
  apply appends_bind; [apply appends_lift|intros b].
  apply appends_buffer_write.
Qed.

Lemma appends_fixed_len_str (length : nat) (enc : encoding) (autopad : bool)
    (obj : value) :
  appends (fixed_len_str_to_bytes_partial length enc autopad obj).
Proof.
  unfold fixed_len_str_to_bytes_partial.
  apply appends_bind; [apply appends_lift|intros b].
  destruct (_ <? _)%nat; [apply appends_raise|].
  destruct (_ && _); [apply appends_raise|apply appends_buffer_write].
Qed.

Lemma appends_var_len_bytes (max_length : Z) (length_type : atomic)
    (obj : value) :
  appends (var_len_bytes_to_bytes_partial max_length length_type obj).
Proof.
  unfold var_len_bytes_to_bytes_partial.
  apply appends_bind; [apply appends_write_length|intros _].
  apply appends_py_write.
Qed.

Lemma appends_var_len_str (max_length : Z) (length_type : atomic)
    (enc : encoding) (obj : value) :
  appends (var_len_str_to_bytes_partial max_length length_type enc obj).
Proof.
  unfold var_len_str_to_bytes_partial.
  apply appends_bind; [apply appends_write_length|intros _].
  apply appends_bind; [apply appends_lift|intros b].
  apply appends_buffer_write.
Qed.

Lemma appends_pack_partial (T : PodType) :
  forall obj format, appends (pack_partial T obj format).
Proof.
  induction T using PodType_nested_ind; intros obj format;
    cbn [pack_partial]; apply appends_negotiate;
    (apply appends_bind; [apply appends_lift|intros env]);
    (apply appends_bind; [apply appends_lift|intros o]).
  - apply appends_atomic_to_bytes_partial.
  - apply appends_AutoTagType_to_bytes_partial.
  - apply appends_fields_to_bytes_partial.
    eapply Forall_impl; [|eassumption]. intros f Hf v. apply Hf.
  - apply appends_fixed_len_array. intros elem. apply IHT.
  - apply appends_fixed_len_bytes.
  - apply appends_fixed_len_str.
  - apply appends_var_len_array. intros elem. apply IHT.
  - apply appends_var_len_bytes.
  - apply appends_var_len_str.
Qed.

(** X5.  Packing is append-only.  On a buffer written front to back,
    every catalog pack step and every container pack hook, whether it
    returns or raises, leaves the bytes already written as they are and the
    cursor at the end: what it wrote is a suffix. *)
Theorem pack_only_appends :
  forall (T : PodType) (obj : value) (format : Format) (w : world),
    at_end w ->
    let after m := snd (m w) in
    let extends w' :=
      at_end w' /\ exists b, buffer_data w' = buffer_data w ++ b in
    extends (after (pack_partial T obj format)) /\
    extends (after (fixed_len_array_to_bytes_partial
                      (fun elem => pack_partial T elem FORMAT_BORSCH) obj)) /\
    (forall max_length length_type,
        extends (after (var_len_array_to_bytes_partial
                          (fun elem => pack_partial T elem FORMAT_BORSCH)
                          max_length length_type obj)) /\
        extends (after (var_len_bytes_to_bytes_partial
                          max_length length_type obj)) /\
        forall enc,
          extends (after (var_len_str_to_bytes_partial
                            max_length length_type enc obj))) /\
    (forall length,
        extends (after (fixed_len_bytes_to_bytes_partial length obj)) /\
        forall enc autopad,
          extends (after (fixed_len_str_to_bytes_partial
                            length enc autopad obj))).
Proof.
  intros T obj format w Hw after extends. subst after extends. cbv beta.
  assert (He : forall elem, appends (pack_partial T elem FORMAT_BORSCH))
    by (intros elem; apply appends_pack_partial).
  split; [now apply appends_pack_partial|].
  split; [now apply appends_fixed_len_array|].
  split.
  - intros max_length length_type.
    split; [now apply appends_var_len_array|].
    split; [now apply appends_var_len_bytes|].
    intros enc. now apply appends_var_len_str.
  - intros length. split; [now apply appends_fixed_len_bytes|].
    intros enc autopad. now apply appends_fixed_len_str.
Qed.

Lemma pack_only_appends_witness :
  let R := Dataclass "R" [("a", Atomic U8); ("b", Atomic U8)] in
  let w := mkWorld [x01; x02] 2 None in
  let w' := snd (pack_partial R (VObj "R" [("a", VInt 5)]) FORMAT_BORSCH w) in
  at_end w' /\ exists b, buffer_data w' = [x01; x02] ++ b.
Proof.
  cbv zeta.
  apply (pack_only_appends
           (Dataclass "R" [("a", Atomic U8); ("b", Atomic U8)])
           (VObj "R" [("a", VInt 5)]) FORMAT_BORSCH
           (mkWorld [x01; x02] 2 None)).
  reflexivity.
Defined.

(** ** Unpacking only reads, forward *)

Lemma reads_forward_ret {A} (a : A) : reads_forward (ret a).
Proof. intros w. simpl. repeat split; lia. Qed.

Lemma reads_forward_raise {A} (e : exn) : reads_forward (@raise A e).
Proof. intros w. simpl. repeat split; lia. Qed.

Lemma reads_forward_lift {A} (r : result A) : reads_forward (lift r).
Proof. intros w. simpl. repeat split; lia. Qed.

Lemma reads_forward_bind {A B} (m : M A) (k : A -> M B) :
  reads_forward m -> (forall a, reads_forward (k a)) ->
  reads_forward (bind m k).
Proof.
  intros Hm Hk w. unfold bind.
  destruct (Hm w) as (Hd & Hp & Hq).
  destruct (m w) as [[a|e] w1]; simpl in *.
  - destruct (Hk a w1) as (Hd2 & Hp2 & Hq2).
    rewrite Hd in Hd2, Hq2. repeat split; [exact Hd2|lia|lia].
  - repeat split; assumption.
Qed.

Lemma reads_forward_try_except {A} (m : M A) (h : exn -> exn) :
  reads_forward m -> reads_forward (try_except m h).
Proof.
  intros Hm w. unfold try_except. specialize (Hm w).
  destruct (m w) as [[a|e] w1]; exact Hm.
Qed.

Lemma reads_forward_manager {A} (t : atomic) (body : M A) :
  reads_forward body -> reads_forward (AutoTagTypeValueManager t body).
Proof.
  intros Hb w. unfold AutoTagTypeValueManager.
  specialize (Hb (set_tag (Some t) w)).
  destruct (body (set_tag (Some t) w)) as [r w1]. simpl in *. exact Hb.
Qed.

Lemma reads_forward_negotiate {A} (format : Format) (step : M A) :
  reads_forward step -> reads_forward (negotiate format step).
Proof.
  intros Hs. destruct format; simpl;
    auto using reads_forward_manager, reads_forward_raise.
Qed.

Lemma reads_forward_collect (n : nat) (body : M value) :
  reads_forward body -> reads_forward (collect n body).
Proof.
  intros Hb. induction n as [|n IH]; simpl.
  - apply reads_forward_ret.
  - apply reads_forward_bind; [exact Hb|intros v].
    apply reads_forward_bind; [exact IH|intros r]. apply reads_forward_ret.
Qed.

Lemma reads_forward_buffer_read (n : nat) : reads_forward (buffer_read n).
Proof.
  intros w. unfold buffer_read. simpl.
  rewrite length_firstn, length_skipn. repeat split; lia.
Qed.

Lemma reads_forward_buffer_read_int (n : Z) : reads_forward (buffer_read_int n).
Proof.
  intros w. unfold buffer_read_int.
  destruct (n <? 0); apply reads_forward_buffer_read.
Qed.

(** The probe of [FORMAT_AUTO] leaves the buffer as it found it when the
    size is defined with [U64] installed. *)
Lemma reads_forward_auto_or (format : Format)
    (max_size : option atomic -> result Z) (n : Z) :
  max_size (Some U64) = Ok n -> reads_forward (auto_or format max_size).
Proof.
  intros Hn w. destruct format; try apply reads_forward_ret.
  unfold auto_or. rewrite (detect_format_ok max_size n w Hn). simpl.
  repeat split; lia.
Qed.

Lemma reads_forward_atomic_from_bytes_partial (a : atomic) :
  reads_forward (atomic_from_bytes_partial a).
Proof.
  unfold atomic_from_bytes_partial.
  apply reads_forward_bind; [apply reads_forward_buffer_read|intros b].
  apply reads_forward_ret.
Qed.

Lemma reads_forward_atomic_unpack_partial (a : atomic) (format : Format) :
  reads_forward (atomic_unpack_partial a format).
Proof.
  unfold atomic_unpack_partial.
  apply reads_forward_bind;
    [apply (reads_forward_auto_or _ _ (Z.of_nat (atomic_size a))); reflexivity
    |intros format'].
  apply reads_forward_negotiate.
  apply reads_forward_bind; [apply reads_forward_lift|intros env].
  apply reads_forward_bind; [apply reads_forward_lift|intros _].
  apply reads_forward_atomic_from_bytes_partial.
Qed.

Lemma reads_forward_AutoTagType_from_bytes_partial (format : Format) :
  reads_forward (AutoTagType_from_bytes_partial format).
Proof.
  intros w. unfold AutoTagType_from_bytes_partial.
  destruct (TAG_TYPE w).
  - apply reads_forward_atomic_unpack_partial.
  - apply (reads_forward_raise (A := value)).
Qed.

Lemma reads_forward_read_length (length_type : atomic) (max_length : Z) :
  reads_forward (read_length length_type max_length).
Proof.
  unfold read_length.
  apply reads_forward_bind;
    [apply reads_forward_atomic_unpack_partial|intros v].
  destruct v; try apply reads_forward_raise.
  destruct (_ >? _); [apply reads_forward_raise|apply reads_forward_ret].
Qed.

Lemma reads_forward_fields_from_bytes_partial
    (unpack_ : PodType -> M value) (name : string)
    (fields : list (string * PodType)) :
  Forall (fun f => reads_forward (unpack_ (snd f))) fields ->
  reads_forward (fields_from_bytes_partial unpack_ name fields).
Proof.
  induction 1 as [|f fs Hf _ IH]; simpl; [apply reads_forward_ret|].
  apply reads_forward_bind;
    [unfold field_from_bytes_partial; now apply reads_forward_try_except
    |intros v].
  apply reads_forward_bind; [exact IH|intros vs]. apply reads_forward_ret.
Qed.

Section ContainerHooksRead.

Variable unpack_elem : M value.
Hypothesis unpack_elem_reads : reads_forward unpack_elem.

Lemma reads_forward_fixed_len_array (length : nat) :
  reads_forward (fixed_len_array_from_bytes_partial unpack_elem length).
Proof.
  unfold fixed_len_array_from_bytes_partial.
  apply reads_forward_bind; [now apply reads_forward_collect|intros r].
  apply reads_forward_ret.
Qed.

Lemma reads_forward_var_len_array (max_length : Z) (length_type : atomic) :
  reads_forward
    (var_len_array_from_bytes_partial unpack_elem max_length length_type).
Proof.
  unfold var_len_array_from_bytes_partial.
  apply reads_forward_bind; [apply reads_forward_read_length|intros n].
  apply reads_forward_bind; [now apply reads_forward_collect|intros r].
  apply reads_forward_ret.
Qed.

End ContainerHooksRead.

Lemma reads_forward_fixed_len_bytes (length : nat) :
  reads_forward (fixed_len_bytes_from_bytes_partial length).
Proof.
  unfold fixed_len_bytes_from_bytes_partial.
  apply reads_forward_bind; [apply reads_forward_buffer_read|intros b].
  apply reads_forward_ret.
Qed.

Lemma reads_forward_fixed_len_str (length : nat) (enc : encoding)
    (autopad : bool) :
  reads_forward (fixed_len_str_from_bytes_partial length enc autopad).
Proof.
  unfold fixed_len_str_from_bytes_partial.
  apply reads_forward_bind; [apply reads_forward_buffer_read|intros b].
  apply reads_forward_lift.
Qed.

Lemma reads_forward_var_len_bytes (max_length : Z) (length_type : atomic) :
  reads_forward (var_len_bytes_from_bytes_partial max_length length_type).
Proof.
  unfold var_len_bytes_from_bytes_partial.
  apply reads_forward_bind; [apply reads_forward_read_length|intros n].
  apply reads_forward_bind; [apply reads_forward_buffer_read_int|intros b].
  apply reads_forward_ret.
Qed.

Lemma reads_forward_var_len_str (max_length : Z) (length_type : atomic)
    (enc : encoding) :
  reads_forward (var_len_str_from_bytes_partial max_length length_type enc).
Proof.
  unfold var_len_str_from_bytes_partial.
  apply reads_forward_bind; [apply reads_forward_read_length|intros n].
  apply reads_forward_bind; [apply reads_forward_buffer_read_int|intros b].
  apply reads_forward_lift.
Qed.

Lemma reads_forward_unpack_partial (T : PodType) :
  forall format, reads_forward (unpack_partial T format).
Proof.
  induction T using PodType_nested_ind; intros format;
    cbn [unpack_partial];
    (apply reads_forward_bind;
     [match goal with
      | |- reads_forward (auto_or _ (calc_max_size ?T')) =>
        destruct (calc_max_size_some T' U64) as [n Hn];
        apply (reads_forward_auto_or _ _ n Hn)
      end
     |intros format']);
    apply reads_forward_negotiate;
    (apply reads_forward_bind; [apply reads_forward_lift|intros env]);
    (apply reads_forward_bind; [apply reads_forward_lift|intros _]).
  - apply reads_forward_atomic_from_bytes_partial.
  - apply reads_forward_AutoTagType_from_bytes_partial.
  - apply reads_forward_bind; [|intros vs; apply reads_forward_ret].
    apply reads_forward_fields_from_bytes_partial.
    eapply Forall_impl; [|eassumption]. intros f Hf. apply Hf.
  - apply reads_forward_fixed_len_array. apply IHT.
  - apply reads_forward_fixed_len_bytes.
  - apply reads_forward_fixed_len_str.
  - apply reads_forward_var_len_array. apply IHT.
  - apply reads_forward_var_len_bytes.
  - apply reads_forward_var_len_str.
Qed.

(** X6.  Unpacking only reads, and only forward.  Every catalog unpack
    step, the probe of Auto included, and every container unpack hook,
    whether it returns or raises, leaves the data of the buffer unchanged,
    never moves the cursor back and never moves it past the end of the
    data. *)
Theorem unpack_reads_forward :
  forall (T : PodType) (format : Format) (w : world),
    let ok w' :=
      buffer_data w' = buffer_data w /\
      (buffer_pos w <= buffer_pos w')%nat /\
      (buffer_pos w' <= Nat.max (buffer_pos w) (List.length (buffer_data w)))%nat
    in
    ok (snd (unpack_partial T format w)) /\
    (forall length,
        ok (snd (fixed_len_array_from_bytes_partial
                   (unpack_partial T FORMAT_AUTO) length w)) /\
        ok (snd (fixed_len_bytes_from_bytes_partial length w)) /\
        forall enc autopad,
          ok (snd (fixed_len_str_from_bytes_partial length enc autopad w))) /\
    (forall max_length length_type,
        ok (snd (var_len_array_from_bytes_partial
                   (unpack_partial T FORMAT_AUTO) max_length length_type w)) /\
        ok (snd (var_len_bytes_from_bytes_partial max_length length_type w)) /\
        forall enc,
          ok (snd (var_len_str_from_bytes_partial
                     max_length length_type enc w))).
Proof.
  intros T format w ok. subst ok. cbv beta.
  split; [apply reads_forward_unpack_partial|]. split.
  - intros length.
    split; [apply reads_forward_fixed_len_array;
            apply reads_forward_unpack_partial|].
    split; [apply reads_forward_fixed_len_bytes|].
    intros enc autopad. apply reads_forward_fixed_len_str.
  - intros max_length length_type.
    split; [apply reads_forward_var_len_array;
            apply reads_forward_unpack_partial|].
    split; [apply reads_forward_var_len_bytes|].
    intros enc. apply reads_forward_var_len_str.
Qed.

(** ** The container hooks, called as declared, on plain elements *)

Lemma plain_wire_length (T : PodType) (v : value) :
  plain T = true -> legal T v = true ->
  List.length (wire T v) = size_under U8 T.
Proof.
  intros Hp Hl. destruct (plain_layout T Hp U8 v) as [Hl8 Hw8].
  rewrite <- Hw8. apply tagged_wire_length; [now apply plain_tagged|].
  now rewrite Hl8.
Qed.

Lemma plain_unpack_partial_auto (T : PodType) (v : value) (d post : bytes)
    (p : nat) (tag : option atomic) :
  plain T = true -> legal T v = true ->
  skipn p d = wire T v ++ post ->
  unpack_partial T FORMAT_AUTO (mkWorld d p tag)
  = (Ok v, mkWorld d (p + List.length (wire T v)) tag).
Proof.
  intros Hp Hl Hd.
  rewrite (unpack_partial_auto T _ _ (plain_calc_max_size T Hp v _ Hl)).
  apply plain_unpack_partial with (post := post); auto.
  unfold selected_format. destruct (_ =? _); reflexivity.
Qed.

Lemma wire_elements_length (T : PodType) (elems : list value) :
  plain T = true -> forallb (legal T) elems = true ->
  List.length (wire_elements T elems)
  = (List.length elems * size_under U8 T)%nat.
Proof.
  intros Hp. induction elems as [|e es IH]; intros Hl; [reflexivity|].
  cbn [forallb] in Hl. apply andb_prop in Hl. destruct Hl as [He Hes].
  unfold wire_elements in *. cbn [flat_map List.length].
  rewrite length_app, (plain_wire_length T e Hp He), (IH Hes). lia.
Qed.

(** The loop of the array pack hooks appends the elements in order. *)
Lemma pack_elements (T : PodType) (elems : list value) (w : world) :
  plain T = true -> forallb (legal T) elems = true -> at_end w ->
  for_each elems (fun elem => pack_partial T elem FORMAT_BORSCH) w
  = (Ok tt, appended w (wire_elements T elems)).
Proof.
  intros Hp. revert w. induction elems as [|e es IH]; intros w Hl Hw.
  - simpl. unfold ret. now rewrite appended_nil.
  - cbn [forallb] in Hl. apply andb_prop in Hl. destruct Hl as [He Hes].
    cbn [for_each].
    rewrite (bind_ok _ _ _ _ _
               (plain_pack_partial T Hp e FORMAT_BORSCH w He eq_refl Hw)).
    rewrite (IH _ Hes (appended_at_end _ _)).
    now rewrite appended_appended.
Qed.

(** The loop of the array unpack hooks reads them back, each element
    under Auto. *)
Lemma unpack_elements (T : PodType) (elems : list value) (d post : bytes)
    (tag : option atomic) :
  plain T = true -> forallb (legal T) elems = true ->
  forall p,
    skipn p d = wire_elements T elems ++ post ->
    collect (List.length elems) (unpack_partial T FORMAT_AUTO) (mkWorld d p tag)
    = (Ok elems, mkWorld d (p + List.length (wire_elements T elems)) tag).
Proof.
  intros Hp. induction elems as [|e es IH]; intros Hl p Hd.
  - simpl. unfold ret. now rewrite Nat.add_0_r.
  - cbn [forallb] in Hl. apply andb_prop in Hl. destruct Hl as [He Hes].
    unfold wire_elements in *. cbn [flat_map List.length collect] in *.
    rewrite <- app_assoc in Hd.
    rewrite (bind_ok _ _ _ _ _
               (plain_unpack_partial_auto T e d _ p tag Hp He Hd)).
    assert (Hrest : skipn (p + List.length (wire T e)) d
                    = flat_map (wire T) es ++ post).
    { rewrite Nat.add_comm, <- skipn_skipn, Hd.
      rewrite skipn_app, Nat.sub_diag, skipn_all. reflexivity. }
    rewrite (bind_ok _ _ _ _ _ (IH Hes _ Hrest)).
    unfold ret. now rewrite length_app, Nat.add_assoc.
Qed.

Lemma write_length_ok (length_type : atomic) (max_length : Z) (obj : value)
    (n : nat) (w : world) :
  py_len obj = Ok (Z.of_nat n) -> Z.of_nat n <= max_length ->
  in_range length_type (Z.of_nat n) = true -> at_end w ->
  write_length length_type max_length obj w
  = (Ok tt, appended w (length_prefix length_type n)).
Proof.
  intros Hlen Hmax Hr Hw. unfold write_length.
  rewrite (bind_ok _ _ w w (Z.of_nat n)) by (unfold lift; now rewrite Hlen).
  assert (E : (Z.of_nat n >? max_length) = false)
    by (rewrite Z.gtb_ltb; apply Z.ltb_ge; lia).
  rewrite E. now apply atomic_pack_in_range.
Qed.

Lemma read_length_ok (length_type : atomic) (max_length : Z) (n : nat)
    (d post : bytes) (p : nat) (tag : option atomic) :
  Z.of_nat n <= max_length ->
  in_range length_type (Z.of_nat n) = true ->
  skipn p d = length_prefix length_type n ++ post ->
  read_length length_type max_length (mkWorld d p tag)
  = (Ok (Z.of_nat n), mkWorld d (p + atomic_size length_type) tag).
Proof.
  intros Hmax Hr Hd. unfold read_length.
  rewrite (bind_ok _ _ _ _ _
             (atomic_unpack_in_range length_type (Z.of_nat n) FORMAT_AUTO
                d post p tag Hr (or_intror eq_refl) Hd)).
  assert (E : (Z.of_nat n >? max_length) = false)
    by (rewrite Z.gtb_ltb; apply Z.ltb_ge; lia).
  now rewrite E.
Qed.

Lemma skipn_past_prefix {A} (pre l : list A) : skipn (List.length pre) (pre ++ l) = l.
Proof. now rewrite skipn_app, Nat.sub_diag, skipn_all. Qed.

Lemma buffer_write_at_end (b : bytes) (w : world) :
  at_end w -> buffer_write b w = (Ok tt, appended w b).
Proof.
  intros Hw. unfold buffer_write, appended, set_buffer.
  now rewrite Hw, write_at_end.
Qed.

Lemma length_prefix_length (length_type : atomic) (n : nat) :
  List.length (length_prefix length_type n) = atomic_size length_type.
Proof. apply to_little_endian_length. Qed.

Lemma skipn_past_length_prefix (pre l : bytes) (length_type : atomic) (n : nat) :
  skipn (List.length pre + atomic_size length_type)
        (pre ++ length_prefix length_type n ++ l) = l.
Proof.
  rewrite Nat.add_comm, <- skipn_skipn, skipn_past_prefix.
  rewrite <- (length_prefix_length length_type n). apply skipn_past_prefix.
Qed.

(** X7.  The fixed array hooks, called as declared, on elements that are
    integers or records of integers.  The pack hook writes the elements of
    the list in order, without prefix and without comparing their number
    with the declared length; the bytes are as many as the elements times
    the element size, so they are the reported maximum size only for a list
    of the declared length.  For such a list the unpack hook reads the
    list back. *)
Theorem fixed_len_array_hooks :
  forall (T : PodType) (length : nat) (elems : list value) (w : world)
         (post : bytes),
    plain T = true -> forallb (legal T) elems = true -> at_end w ->
    let packed := wire_elements T elems in
    let d := buffer_data w ++ packed ++ post in
    fixed_len_array_to_bytes_partial
      (fun elem => pack_partial T elem FORMAT_BORSCH) (VList elems) w
    = (Ok tt, appended w packed) /\
    List.length packed = (List.length elems * size_under U8 T)%nat /\
    calc_max_size (FixedLenArray T length) (TAG_TYPE w)
    = Ok (Z.of_nat (size_under U8 T) * Z.of_nat length) /\
    (List.length elems = length ->
     fixed_len_array_from_bytes_partial (unpack_partial T FORMAT_AUTO) length
       (mkWorld d (buffer_pos w) (TAG_TYPE w))
     = (Ok (VList elems),
        mkWorld d (buffer_pos w + List.length packed) (TAG_TYPE w))).
Proof.
  intros T length elems w post Hp Hl Hw packed d. subst packed d.
  split; [|split; [|split]].
  - unfold fixed_len_array_to_bytes_partial.
    rewrite (bind_ok _ _ w w elems) by reflexivity.
    now apply pack_elements.
  - now apply wire_elements_length.
  - cbn [calc_max_size].
    rewrite (plain_calc_max_size_any T Hp (TAG_TYPE w) U8). reflexivity.
  - intros <-. unfold fixed_len_array_from_bytes_partial.
    erewrite bind_ok; [reflexivity|].
    apply unpack_elements with (post := post); auto.
    rewrite Hw. apply skipn_past_prefix.
Qed.

Lemma fixed_len_array_hooks_witness :
  let w := mkWorld [] 0 None in
  fixed_len_array_to_bytes_partial
    (fun elem => pack_partial (Atomic U8) elem FORMAT_BORSCH)
    (VList [VInt 1; VInt 2; VInt 3]) w
  = (Ok tt, appended w [x01; x02; x03]) /\
  calc_max_size (FixedLenArray (Atomic U8) 2) None = Ok 2.
Proof.
  cbv zeta.
  destruct (fixed_len_array_hooks (Atomic U8) 2 [VInt 1; VInt 2; VInt 3]
              (mkWorld [] 0 None) [] eq_refl eq_refl eq_refl)
    as (H1 & _ & H3 & _).
  split; [exact H1|exact H3].
Defined.

(** X8.  The variable array hooks, called as declared, on elements that
    are integers or records of integers.  For a list no longer than
    [max_length] whose length fits the length type, the pack hook writes
    the little-endian length and then the elements in order; the unpack
    hook reads the list back; and the bytes written are at most the
    maximum size the catalog reports for the type. *)
Theorem var_len_array_hooks :
  forall (T : PodType) (max_length : Z) (length_type : atomic)
         (elems : list value) (w : world) (post : bytes),
    plain T = true -> forallb (legal T) elems = true -> at_end w ->
    Z.of_nat (List.length elems) <= max_length ->
    in_range length_type (Z.of_nat (List.length elems)) = true ->
    let packed :=
      length_prefix length_type (List.length elems) ++ wire_elements T elems in
    let d := buffer_data w ++ packed ++ post in
    var_len_array_to_bytes_partial
      (fun elem => pack_partial T elem FORMAT_BORSCH)
      max_length length_type (VList elems) w
    = (Ok tt, appended w packed) /\
    var_len_array_from_bytes_partial (unpack_partial T FORMAT_AUTO)
      max_length length_type (mkWorld d (buffer_pos w) (TAG_TYPE w))
    = (Ok (VList elems),
       mkWorld d (buffer_pos w + List.length packed) (TAG_TYPE w)) /\
    exists n,
      calc_max_size (Vec T max_length length_type) (TAG_TYPE w) = Ok n /\
      Z.of_nat (List.length packed) <= n.
Proof.
  intros T max_length length_type elems w post Hp Hl Hw Hmax Hr packed d.
  subst packed d. split; [|split].
  - unfold var_len_array_to_bytes_partial.
    rewrite (bind_ok _ _ _ _ _
               (write_length_ok length_type max_length (VList elems)
                  (List.length elems) w eq_refl Hmax Hr Hw)).
    rewrite (bind_ok _ _ _ _ elems) by reflexivity.
    rewrite pack_elements; auto using appended_at_end.
    now rewrite appended_appended.
  - unfold var_len_array_from_bytes_partial.
    rewrite <- app_assoc, Hw.
    erewrite bind_ok;
      [|apply read_length_ok
          with (n := List.length elems) (post := wire_elements T elems ++ post);
        auto; apply skipn_past_prefix].
    rewrite Nat2Z.id.
    erewrite bind_ok;
      [|apply unpack_elements with (post := post); auto;
        apply skipn_past_length_prefix].
    unfold ret.
    rewrite length_app, length_prefix_length, Nat.add_assoc. reflexivity.
  - cbn [calc_max_size].
    rewrite (plain_calc_max_size_any T Hp (TAG_TYPE w) U8).
    eexists. split; [reflexivity|].
    rewrite length_app, length_prefix_length, wire_elements_length by auto.
    nia.
Qed.

Lemma var_len_array_hooks_witness :
  let w := mkWorld [x05] 1 None in
  var_len_array_to_bytes_partial
    (fun elem => pack_partial (Atomic U8) elem FORMAT_BORSCH) 16 U32
    (VList [VInt 1; VInt 2; VInt 3]) w
  = (Ok tt, appended w [x03; x00; x00; x00; x01; x02; x03]).
Proof.
  cbv zeta.
  apply (var_len_array_hooks (Atomic U8) 16 U32 [VInt 1; VInt 2; VInt 3]
           (mkWorld [x05] 1 None) []); try reflexivity.
  simpl. lia.
Defined.

(** X9.  The variable bytes hooks, called as declared.  For a byte
    string no longer than [max_length] whose length fits the length type,
    the pack hook writes the little-endian length and then the bytes; the
    unpack hook reads the byte string back; and the bytes written are at
    most the maximum size the catalog reports for the type. *)
Theorem var_len_bytes_hooks :
  forall (max_length : Z) (length_type : atomic) (b : bytes) (w : world)
         (post : bytes),
    at_end w ->
    Z.of_nat (List.length b) <= max_length ->
    in_range length_type (Z.of_nat (List.length b)) = true ->
    let packed := length_prefix length_type (List.length b) ++ b in
    let d := buffer_data w ++ packed ++ post in
    var_len_bytes_to_bytes_partial max_length length_type (VBytes b) w
    = (Ok tt, appended w packed) /\
    var_len_bytes_from_bytes_partial max_length length_type
      (mkWorld d (buffer_pos w) (TAG_TYPE w))
    = (Ok (VBytes b),
       mkWorld d (buffer_pos w + List.length packed) (TAG_TYPE w)) /\
    exists n,
      calc_max_size (Bytes max_length length_type) (TAG_TYPE w) = Ok n /\
      Z.of_nat (List.length packed) <= n.
Proof.
  intros max_length length_type b w post Hw Hmax Hr packed d.
  subst packed d. split; [|split].
  - unfold var_len_bytes_to_bytes_partial.
    rewrite (bind_ok _ _ _ _ _
               (write_length_ok length_type max_length (VBytes b)
                  (List.length b) w eq_refl Hmax Hr Hw)).
    unfold py_write.
    rewrite buffer_write_at_end by apply appended_at_end.
    now rewrite appended_appended.
  - unfold var_len_bytes_from_bytes_partial.
    rewrite <- app_assoc, Hw.
    erewrite bind_ok;
      [|apply read_length_ok
          with (n := List.length b) (post := b ++ post);
        auto; apply skipn_past_prefix].
    unfold buffer_read_int.
    assert (E : (Z.of_nat (List.length b) <? 0) = false)
      by (apply Z.ltb_ge; lia).
    rewrite E, Nat2Z.id.
    unfold bind, buffer_read, ret, set_buffer.
    cbn [buffer_data buffer_pos TAG_TYPE].
    rewrite skipn_past_length_prefix.
    rewrite firstn_app, Nat.sub_diag, firstn_O, app_nil_r, firstn_all.
    rewrite length_app, length_prefix_length, Nat.add_assoc. reflexivity.
  - cbn [calc_max_size]. eexists. split; [reflexivity|].
    unfold length_prefix. rewrite length_app, to_little_endian_length. lia.
Qed.

Lemma var_len_bytes_hooks_witness :
  let w := mkWorld [] 0 None in
  var_len_bytes_to_bytes_partial 16 U32 (VBytes [x61; x62]) w
  = (Ok tt, appended w [x02; x00; x00; x00; x61; x62]) /\
  var_len_bytes_from_bytes_partial 16 U32
    (mkWorld [x02; x00; x00; x00; x61; x62] 0 None)
  = (Ok (VBytes [x61; x62]), mkWorld [x02; x00; x00; x00; x61; x62] 6 None).
Proof.
  cbv zeta.
  destruct (var_len_bytes_hooks 16 U32 [x61; x62] (mkWorld [] 0 None) []
              eq_refl) as (H1 & H2 & _);
    [simpl; lia|reflexivity|].
  split; [exact H1|exact H2].
Defined.

(** X10.  The fixed bytes hooks, called as declared.  The unpack hook
    returns the next [N] bytes, or what is left of the data when that is
    less, and never raises.  A byte string of at most [N] bytes comes back
    from pack followed by unpack padded with zero bytes to [N] bytes: it
    comes back as it was exactly when it has [N] bytes. *)
Theorem fixed_len_bytes_hooks :
  forall (length : nat) (b : bytes) (w : world) (post : bytes),
    fixed_len_bytes_from_bytes_partial length w
    = (Ok (VBytes (firstn length (skipn (buffer_pos w) (buffer_data w)))),
       set_buffer (buffer_data w)
         (buffer_pos w
          + Nat.min length (List.length (buffer_data w) - buffer_pos w)) w) /\
    (at_end w -> (List.length b <= length)%nat ->
     let padded := b ++ repeat x00 (length - List.length b) in
     let d := buffer_data w ++ padded ++ post in
     fixed_len_bytes_to_bytes_partial length (VBytes b) w
     = (Ok tt, appended w padded) /\
     fixed_len_bytes_from_bytes_partial length
       (mkWorld d (buffer_pos w) (TAG_TYPE w))
     = (Ok (VBytes padded), mkWorld d (buffer_pos w + length) (TAG_TYPE w)) /\
     (padded = b <-> List.length b = length)).
Proof.
  intros length b w post. split.
  - unfold fixed_len_bytes_from_bytes_partial, bind, buffer_read, ret.
    now rewrite length_firstn, length_skipn.
  - intros Hw Hlen padded d.
    assert (Hpl : List.length padded = length)
      by (subst padded; rewrite length_app, repeat_length; lia).
    split; [|split].
    + unfold fixed_len_bytes_to_bytes_partial, bind, lift, py_ljust,
        buffer_write, ljust. fold padded.
      rewrite Hw, write_at_end. unfold appended. reflexivity.
    + unfold fixed_len_bytes_from_bytes_partial, bind, buffer_read, ret,
        set_buffer. cbn [buffer_data buffer_pos TAG_TYPE].
      assert (Hf : firstn length (padded ++ post) = padded).
      { rewrite <- Hpl, firstn_app, Nat.sub_diag, firstn_O, app_nil_r.
        apply firstn_all. }
      subst d. rewrite Hw, skipn_past_prefix, Hf, Hpl. reflexivity.
    + split.
      * intros E. rewrite E in Hpl. exact Hpl.
      * intros E. subst padded. rewrite E, Nat.sub_diag. simpl.
        apply app_nil_r.
Qed.

Lemma fixed_len_bytes_hooks_witness :
  let w := mkWorld [] 0 None in
  fixed_len_bytes_to_bytes_partial 3 (VBytes [x61]) w
  = (Ok tt, appended w [x61; x00; x00]) /\
  fixed_len_bytes_from_bytes_partial 3 (mkWorld [x61; x00; x00] 0 None)
  = (Ok (VBytes [x61; x00; x00]), mkWorld [x61; x00; x00] 3 None).
Proof.
  cbv zeta.
  destruct (fixed_len_bytes_hooks 3 [x61] (mkWorld [] 0 None) [])
    as (_ & H).
  destruct (H eq_refl) as (H1 & H2 & _); [simpl; lia|].
  split; [exact H1|exact H2].
Defined.

(** ** Text codecs: decoding inverts encoding *)

Ltac div_lia := zify; Z.to_euclidean_division_equations; lia.

Lemma to_N_byte_of_N (n : N) : (n < 256)%N -> Byte.to_N (byte_of_N n) = n.
Proof.
  intros Hn. unfold byte_of_N. rewrite N.mod_small by exact Hn.
  destruct (Byte.of_N n) as [b|] eqn:E.
  - now apply Byte.to_of_N.
  - apply Byte.of_N_None_iff in E. lia.
Qed.

Lemma byte_of_N_nonzero (n : N) :
  (n < 256)%N -> n <> 0%N -> byte_of_N n <> x00.
Proof.
  intros Hn Hz E. apply (f_equal Byte.to_N) in E.
  rewrite to_N_byte_of_N in E by exact Hn. simpl in E. contradiction.
Qed.

Lemma some_inj {A : Type} (x y : A) : Some x = Some y -> x = y.
Proof. intros H. congruence. Qed.

Lemma utf8_decode_encode_char (c : N) (bc : bytes) (rest : list N) :
  utf8_encode_char c = Some bc ->
  utf8_decode (map Byte.to_N bc ++ rest)
  = option_map (cons c) (utf8_decode rest).
Proof.
  unfold utf8_encode_char.
  destruct (c <? 0x80)%N eqn:E1.
  { intros H; apply some_inj in H; subst bc.
    apply N.ltb_lt in E1.
    cbn [map app]. rewrite to_N_byte_of_N by lia.
    cbn [utf8_decode]. apply N.ltb_lt in E1. now rewrite E1. }
  apply N.ltb_ge in E1.
  destruct (c <? 0x800)%N eqn:E2.
  { intros H; apply some_inj in H; subst bc.
    apply N.ltb_lt in E2.
    cbn [map app]. rewrite !to_N_byte_of_N by div_lia.
    remember (0xC0 + c / 0x40)%N as b0 eqn:Hb0.
    remember (0x80 + c mod 0x40)%N as b1 eqn:Hb1.
    cbn [utf8_decode].
    assert (T1 : (b0 <? 0x80)%N = false) by (apply N.ltb_ge; div_lia).
    assert (T2 : ((0xC2 <=? b0) && (b0 <=? 0xDF))%N = true)
      by (apply andb_true_intro; split; apply N.leb_le; div_lia).
    assert (T3 : is_continuation b1 = true)
      by (apply andb_true_intro; split; apply N.leb_le; div_lia).
    rewrite T1, T2, T3.
    replace ((b0 - 0xC0) * 0x40 + (b1 - 0x80))%N with c by div_lia.
    reflexivity. }
  apply N.ltb_ge in E2.
  destruct (c <? 0x10000)%N eqn:E3.
  { destruct ((0xD800 <=? c) && (c <=? 0xDFFF))%N eqn:Es; [discriminate|].
    intros H; apply some_inj in H; subst bc.
    apply N.ltb_lt in E3.
    assert (Hs : (c < 0xD800 \/ 0xDFFF < c)%N).
    { apply andb_false_iff in Es. destruct Es as [Es|Es].
      - left. now apply N.leb_gt in Es.
      - right. now apply N.leb_gt in Es. }
    cbn [map app]. rewrite !to_N_byte_of_N by div_lia.
    remember (0xE0 + c / 0x1000)%N as b0 eqn:Hb0.
    remember (0x80 + (c / 0x40) mod 0x40)%N as b1 eqn:Hb1.
    remember (0x80 + c mod 0x40)%N as b2 eqn:Hb2.
    cbn [utf8_decode].
    assert (T1 : (b0 <? 0x80)%N = false) by (apply N.ltb_ge; div_lia).
    assert (T2 : ((0xC2 <=? b0) && (b0 <=? 0xDF))%N = false)
      by (apply andb_false_iff; right; apply N.leb_gt; div_lia).
    assert (T3 : ((0xE0 <=? b0) && (b0 <=? 0xEF))%N = true)
      by (apply andb_true_intro; split; apply N.leb_le; div_lia).
    assert (Hc : ((b0 - 0xE0) * 0x1000 + (b1 - 0x80) * 0x40 + (b2 - 0x80))%N
                 = c) by div_lia.
    rewrite T1, T2, T3. cbv zeta. rewrite Hc.
    assert (T4 : is_continuation b1 = true)
      by (apply andb_true_intro; split; apply N.leb_le; div_lia).
    assert (T5 : is_continuation b2 = true)
      by (apply andb_true_intro; split; apply N.leb_le; div_lia).
    assert (T6 : (0x800 <=? c)%N = true) by (now apply N.leb_le).
    rewrite T4, T5, T6, Es. reflexivity. }
  apply N.ltb_ge in E3.
  destruct (c <? 0x110000)%N eqn:E4; [|discriminate].
  intros H; apply some_inj in H; subst bc.
  apply N.ltb_lt in E4.
  cbn [map app]. rewrite !to_N_byte_of_N by div_lia.
  remember (0xF0 + c / 0x40000)%N as b0 eqn:Hb0.
  remember (0x80 + (c / 0x1000) mod 0x40)%N as b1 eqn:Hb1.
  remember (0x80 + (c / 0x40) mod 0x40)%N as b2 eqn:Hb2.
  remember (0x80 + c mod 0x40)%N as b3 eqn:Hb3.
  cbn [utf8_decode].
  assert (T1 : (b0 <? 0x80)%N = false) by (apply N.ltb_ge; div_lia).
  assert (T2 : ((0xC2 <=? b0) && (b0 <=? 0xDF))%N = false)
    by (apply andb_false_iff; right; apply N.leb_gt; div_lia).
  assert (T3 : ((0xE0 <=? b0) && (b0 <=? 0xEF))%N = false)
    by (apply andb_false_iff; right; apply N.leb_gt; div_lia).
  assert (T4 : ((0xF0 <=? b0) && (b0 <=? 0xF4))%N = true)
    by (apply andb_true_intro; split; apply N.leb_le; div_lia).
  assert (Hc : ((b0 - 0xF0) * 0x40000 + (b1 - 0x80) * 0x1000
                + (b2 - 0x80) * 0x40 + (b3 - 0x80))%N = c) by div_lia.
  rewrite T1, T2, T3, T4. cbv zeta. rewrite Hc.
  assert (T5 : is_continuation b1 = true)
    by (apply andb_true_intro; split; apply N.leb_le; div_lia).
  assert (T6 : is_continuation b2 = true)
    by (apply andb_true_intro; split; apply N.leb_le; div_lia).
  assert (T7 : is_continuation b3 = true)
    by (apply andb_true_intro; split; apply N.leb_le; div_lia).
  assert (T8 : (0x10000 <=? c)%N = true) by (now apply N.leb_le).
  assert (T9 : (c <? 0x110000)%N = true) by (now apply N.ltb_lt).
  rewrite T5, T6, T7, T8, T9. reflexivity.
Qed.

Lemma utf8_decode_encode (s : pystr) (b : bytes) :
  encode_str UTF_8 s = Some b -> utf8_decode (map Byte.to_N b) = Some s.
Proof.
  revert b. induction s as [|c s IH]; intros b H; simpl in H.
  - inversion H. reflexivity.
  - destruct (utf8_encode_char c) as [bc|] eqn:Ec; [|discriminate].
    destruct (encode_str UTF_8 s) as [bs|]; [|discriminate].
    inversion H; subst b.
    rewrite map_app, (utf8_decode_encode_char c bc _ Ec), (IH bs eq_refl).
    reflexivity.
Qed.

Lemma single_byte_encode (enc : encoding) (bound : N) (s : pystr) (b : bytes) :
  (bound <= 256)%N ->
  (forall c, encode_char enc c
             = if (c <? bound)%N then Some [byte_of_N c] else None) ->
  encode_str enc s = Some b ->
  map Byte.to_N b = s /\ Forall (fun c => (c < bound)%N) s.
Proof.
  intros Hb Henc. revert b. induction s as [|c s IH]; intros b H; simpl in H.
  - inversion H. split; [reflexivity|constructor].
  - rewrite Henc in H. destruct (c <? bound)%N eqn:E; [|discriminate].
    destruct (encode_str enc s) as [bs|]; [|discriminate].
    inversion H; subst b. apply N.ltb_lt in E.
    destruct (IH bs eq_refl) as [Hm Hf].
    split; [|now constructor].
    cbn [app map]. rewrite to_N_byte_of_N by lia. now rewrite Hm.
Qed.

(** [encoded.decode(encoding)] gives back the string [encoded] came from. *)
Lemma decode_encode (enc : encoding) (s : pystr) (b : bytes) :
  encode_str enc s = Some b -> decode_bytes enc b = Some s.
Proof.
  intros H. destruct enc; unfold decode_bytes.
  - now apply utf8_decode_encode.
  - destruct (single_byte_encode ASCII 0x80 s b) as [Hm Hf];
      [lia|reflexivity|exact H|].
    rewrite Hm.
    assert (E : forallb (fun c => (c <? 0x80)%N) s = true).
    { apply forallb_forall. rewrite Forall_forall in Hf.
      intros c Hc. apply N.ltb_lt. now apply Hf. }
    now rewrite E.
  - destruct (single_byte_encode LATIN_1 0x100 s b) as [Hm Hf];
      [lia|reflexivity|exact H|].
    now rewrite Hm.
Qed.

Lemma encode_char_zero (enc : encoding) : encode_char enc 0 = Some [x00].
Proof. destruct enc; reflexivity. Qed.

Lemma encode_char_nonzero (enc : encoding) (c : N) (bc : bytes) :
  encode_char enc c = Some bc -> c <> 0%N -> ~ In x00 bc.
Proof.
  intros H Hc.
  assert (Hall : forall x, In x bc ->
                   exists n, x = byte_of_N n /\ (n < 256)%N /\ n <> 0%N).
  { destruct enc; cbn [encode_char] in H; unfold utf8_encode_char in H;
      repeat match type of H with
             | (if ?t then _ else _) = _ =>
               let E := fresh "E" in destruct t eqn:E;
               try apply N.ltb_lt in E; try apply N.ltb_ge in E
             end;
      try discriminate H; apply some_inj in H; subst bc;
      intros x Hx; cbn [In] in Hx;
      repeat match type of Hx with
             | _ \/ _ => destruct Hx as [Hx|Hx]
             end;
      try contradiction; subst x; eexists; (split; [reflexivity|]);
      div_lia. }
  intros Hin. destruct (Hall _ Hin) as (n & Hx & Hn & Hz).
  symmetry in Hx. now apply byte_of_N_nonzero in Hx.
Qed.

Lemma first_zero_padding (k : nat) : first_zero (repeat x00 k) = O.
Proof. destruct k; reflexivity. Qed.

Lemma first_zero_app (b rest : bytes) :
  ~ In x00 b -> first_zero (b ++ rest) = (List.length b + first_zero rest)%nat.
Proof.
  induction b as [|x b IH]; intros Hb; [reflexivity|].
  cbn [app first_zero List.length].
  destruct (Byte.eqb x x00) eqn:E.
  - apply Byte.byte_dec_bl in E. subst x. exfalso. apply Hb. now left.
  - rewrite IH; [reflexivity|]. intros Hin. apply Hb. now right.
Qed.

(** What the autopad cut keeps of a padded encoding: the encoding of the
    string up to its first zero code point. *)
Lemma autopad_cut (enc : encoding) (s : pystr) (b : bytes) (k : nat) :
  encode_str enc s = Some b ->
  encode_str enc (before_zero s)
  = Some (firstn (first_zero (b ++ repeat x00 k)) (b ++ repeat x00 k)).
Proof.
  revert b. induction s as [|c s IH]; intros b H; cbn [encode_str] in H.
  - inversion H. cbn [app before_zero]. now rewrite first_zero_padding.
  - destruct (encode_char enc c) as [bc|] eqn:Ec; [|discriminate].
    destruct (encode_str enc s) as [bs|] eqn:Es; [|discriminate].
    inversion H; subst b. cbn [before_zero].
    destruct (c =? 0)%N eqn:Ez.
    + apply N.eqb_eq in Ez. subst c. rewrite encode_char_zero in Ec.
      inversion Ec; subst bc. reflexivity.
    + apply N.eqb_neq in Ez.
      pose proof (encode_char_nonzero enc c bc Ec Ez) as Hnz.
      rewrite <- app_assoc, (first_zero_app bc _ Hnz).
      rewrite firstn_app, firstn_all2 by lia.
      replace (List.length bc + first_zero (bs ++ repeat x00 k)
               - List.length bc)%nat
        with (first_zero (bs ++ repeat x00 k)) by lia.
      cbn [encode_str]. rewrite Ec, (IH bs eq_refl). reflexivity.
Qed.

Lemma before_zero_id (s : pystr) : ~ In 0%N s -> before_zero s = s.
Proof.
  induction s as [|c s IH]; intros H; [reflexivity|].
  cbn [before_zero]. destruct (c =? 0)%N eqn:E.
  - apply N.eqb_eq in E. subst c. exfalso. apply H. now left.
  - rewrite IH; [reflexivity|]. intros Hin. apply H. now right.
Qed.

Lemma before_zero_fixed (s : pystr) : before_zero s = s <-> ~ In 0%N s.
Proof.
  split; [|apply before_zero_id].
  induction s as [|c s IH]; intros E Hin; [contradiction|].
  cbn [before_zero] in E. destruct (c =? 0)%N eqn:Ez; [discriminate|].
  apply N.eqb_neq in Ez. destruct Hin as [Hin|Hin]; [congruence|].
  apply IH; [congruence|exact Hin].
Qed.

(** A successful UTF-8 decoding has at most one code point per byte, and
    exactly one per byte only when every code point is below U+0080. *)
Lemma utf8_decode_length (n : nat) :
  forall (b : list N) (s : pystr),
    (List.length b <= n)%nat -> utf8_decode b = Some s ->
    (List.length s <= List.length b)%nat /\
    (List.length s = List.length b -> Forall (fun c => (c < 0x80)%N) s).
Proof.
  induction n as [|n IH]; intros b s Hn H.
  - destruct b; [|simpl in Hn; lia]. apply some_inj in H. subst s.
    split; [simpl; lia|constructor].
  - destruct b as [|b0 r0]; [apply some_inj in H; subst s;
                              split; [simpl; lia|constructor]|].
    cbn [utf8_decode] in H. cbn [List.length] in Hn.
    destruct (b0 <? 0x80)%N eqn:E0.
    { destruct (utf8_decode r0) as [s'|] eqn:Er; [|discriminate].
      apply some_inj in H. subst s.
      destruct (IH r0 s' ltac:(lia) Er) as [Hle Heq].
      cbn [List.length]. split; [lia|].
      intros E. constructor; [now apply N.ltb_lt|apply Heq; lia]. }
    destruct ((0xC2 <=? b0) && (b0 <=? 0xDF))%N.
    { destruct r0 as [|b1 r1]; [discriminate|].
      destruct (is_continuation b1); [|discriminate].
      destruct (utf8_decode r1) as [s'|] eqn:Er; [|discriminate].
      apply some_inj in H. subst s. cbn [List.length] in *.
      destruct (IH r1 s' ltac:(lia) Er) as [Hle _]. split; lia. }
    destruct ((0xE0 <=? b0) && (b0 <=? 0xEF))%N.
    { destruct r0 as [|b1 [|b2 r2]]; try discriminate.
      cbv zeta in H.
      match type of H with
      | (if ?t then _ else _) = _ => destruct t; [|discriminate]
      end.
      destruct (utf8_decode r2) as [s'|] eqn:Er; [|discriminate].
      apply some_inj in H. subst s. cbn [List.length] in *.
      destruct (IH r2 s' ltac:(lia) Er) as [Hle _]. split; lia. }
    destruct ((0xF0 <=? b0) && (b0 <=? 0xF4))%N; [|discriminate].
    destruct r0 as [|b1 [|b2 [|b3 r3]]]; try discriminate.
    cbv zeta in H.
    match type of H with
    | (if ?t then _ else _) = _ => destruct t; [|discriminate]
    end.
    destruct (utf8_decode r3) as [s'|] eqn:Er; [|discriminate].
    apply some_inj in H. subst s. cbn [List.length] in *.
    destruct (IH r3 s' ltac:(lia) Er) as [Hle _]. split; lia.
Qed.

Lemma low_encode_length (enc : encoding) (s : pystr) (b : bytes) :
  Forall (fun c => (c < 0x80)%N) s -> encode_str enc s = Some b ->
  List.length b = List.length s.
Proof.
  intros Hs. revert b. induction Hs as [|c s Hc Hs IH]; intros b H.
  - apply some_inj in H. now subst b.
  - cbn [encode_str] in H.
    assert (Ec : encode_char enc c = Some [byte_of_N c]).
    { apply N.ltb_lt in Hc.
      destruct enc; cbn [encode_char]; unfold utf8_encode_char;
        try rewrite Hc; try reflexivity.
      apply N.ltb_lt in Hc.
      assert (E : (c <? 0x100)%N = true) by (apply N.ltb_lt; lia).
      now rewrite E. }
    rewrite Ec in H.
    destruct (encode_str enc s) as [bs|]; [|discriminate].
    apply some_inj in H. subst b. cbn [app List.length].
    now rewrite (IH bs eq_refl).
Qed.

(** When the encoding has more bytes than the string has code points, the
    first [len(s)] bytes of the encoding do not decode to the string. *)
Lemma decode_prefix_differs (enc : encoding) (s : pystr) (encoded : bytes) :
  encode_str enc s = Some encoded ->
  List.length encoded <> List.length s ->
  decode_bytes enc (firstn (List.length s) encoded) <> Some s.
Proof.
  intros He Hne Hd.
  pose proof (encode_str_length enc s encoded He) as Hle.
  destruct enc.
  - unfold decode_bytes in Hd.
    destruct (utf8_decode_length _ _ _ (Nat.le_refl _) Hd) as [_ Hlow].
    rewrite length_map, length_firstn in Hlow.
    apply Hne, (low_encode_length UTF_8); [apply Hlow; lia|exact He].
  - destruct (single_byte_encode ASCII 0x80 s encoded) as [Hm Hf];
      [lia|reflexivity|exact He|].
    apply Hne. rewrite <- Hm. now rewrite length_map.
  - destruct (single_byte_encode LATIN_1 0x100 s encoded) as [Hm Hf];
      [lia|reflexivity|exact He|].
    apply Hne. rewrite <- Hm. now rewrite length_map.
Qed.

(** X11.  The fixed string hooks, called as declared, compose to a cut at
    the first zero code point.  For a string whose encoding fits [N] bytes
    (with [autopad], or filling them exactly) the pack hook appends the
    encoding zero-padded to [N] bytes, and the unpack hook reads from those
    bytes the string up to its first zero code point when [autopad] is on,
    and the string itself when it is off.  So with [autopad] a string comes
    back unchanged exactly when it holds no zero code point. *)
Theorem fixed_len_str_hooks :
  forall (length : nat) (enc : encoding) (autopad : bool) (s : pystr)
         (encoded : bytes) (w : world) (post : bytes),
    at_end w ->
    encode_str enc s = Some encoded ->
    (List.length encoded <= length)%nat ->
    autopad = true \/ List.length encoded = length ->
    let padded := ljust encoded length in
    let d := buffer_data w ++ padded ++ post in
    fixed_len_str_to_bytes_partial length enc autopad (VStr s) w
    = (Ok tt, appended w padded) /\
    fixed_len_str_from_bytes_partial length enc autopad
      (mkWorld d (buffer_pos w) (TAG_TYPE w))
    = (Ok (VStr (if autopad then before_zero s else s)),
       mkWorld d (buffer_pos w + length) (TAG_TYPE w)) /\
    (before_zero s = s <-> ~ In 0%N s).
Proof.
  intros length enc autopad s encoded w post Hw He Hlen Hpad padded d.
  assert (Hpl : List.length padded = length)
    by (subst padded; rewrite ljust_length; lia).
  split; [|split].
  - unfold fixed_len_str_to_bytes_partial, bind, lift, py_encode.
    rewrite He.
    assert (E1 : (length <? List.length encoded)%nat = false)
      by (apply Nat.ltb_ge; lia).
    assert (E2 : (List.length encoded <? length)%nat && negb autopad = false).
    { destruct Hpad as [->|Heq]; [apply andb_false_r|].
      rewrite Heq, Nat.ltb_irrefl. reflexivity. }
    rewrite E1, E2. now apply buffer_write_at_end.
  - unfold fixed_len_str_from_bytes_partial, bind, buffer_read, lift,
      set_buffer. cbn [buffer_data buffer_pos TAG_TYPE].
    assert (Hf : firstn length (padded ++ post) = padded).
    { rewrite <- Hpl at 1.
      rewrite firstn_app, Nat.sub_diag, firstn_O, app_nil_r.
      apply firstn_all. }
    subst d. rewrite Hw, skipn_past_prefix, Hf, Hpl.
    assert (Hdec : py_decode
                     (if autopad then firstn (first_zero padded) padded
                      else padded) enc
                   = Ok (VStr (if autopad then before_zero s else s))).
    { unfold py_decode. destruct autopad.
      - subst padded. unfold ljust.
        now rewrite (decode_encode enc _ _
                       (autopad_cut enc s encoded _ He)).
      - destruct Hpad as [Hpad|Heq]; [discriminate|].
        subst padded. unfold ljust.
        rewrite Heq, Nat.sub_diag. cbn [repeat]. rewrite app_nil_r.
        now rewrite (decode_encode enc s encoded He). }
    f_equal. exact Hdec.
  - apply before_zero_fixed.
Qed.

Lemma fixed_len_str_hooks_witness :
  let w := mkWorld [] 0 None in
  let s := [0x61; 0; 0x62]%N in
  let packed := [x61; x00; x62; x00] in
  fixed_len_str_to_bytes_partial 4 UTF_8 true (VStr s) w
  = (Ok tt, appended w packed) /\
  fixed_len_str_from_bytes_partial 4 UTF_8 true (mkWorld packed 0 None)
  = (Ok (VStr [0x61%N]), mkWorld packed 4 None).
Proof.
  cbv zeta.
  destruct (fixed_len_str_hooks 4 UTF_8 true [0x61; 0; 0x62]%N
              [x61; x00; x62] (mkWorld [] 0 None) [] eq_refl eq_refl)
    as (H1 & H2 & _); [simpl; lia|now left|].
  split; [exact H1|exact H2].
Defined.

(** X12.  The variable string hooks, called as declared.  The pack hook
    bounds and writes the number of code points, then the encoding; the
    unpack hook reads back as many bytes as there were code points.  So a
    string whose encoding has one byte per code point comes back unchanged
    with the cursor after its bytes, and any other string does not come back
    and leaves the cursor inside its bytes.  The maximum size the catalog
    reports bounds the bytes written only when the encoding is no longer
    than [max_length]. *)
Theorem var_len_str_hooks :
  forall (max_length : Z) (length_type : atomic) (enc : encoding)
         (s : pystr) (encoded : bytes) (w : world) (post : bytes),
    at_end w ->
    encode_str enc s = Some encoded ->
    Z.of_nat (List.length s) <= max_length ->
    in_range length_type (Z.of_nat (List.length s)) = true ->
    let packed := length_prefix length_type (List.length s) ++ encoded in
    let d := buffer_data w ++ packed ++ post in
    let read := firstn (List.length s) encoded in
    let stop := (buffer_pos w + atomic_size length_type + List.length s)%nat in
    var_len_str_to_bytes_partial max_length length_type enc (VStr s) w
    = (Ok tt, appended w packed) /\
    var_len_str_from_bytes_partial max_length length_type enc
      (mkWorld d (buffer_pos w) (TAG_TYPE w))
    = (py_decode read enc, mkWorld d stop (TAG_TYPE w)) /\
    (List.length encoded = List.length s ->
     py_decode read enc = Ok (VStr s) /\
     stop = (buffer_pos w + List.length packed)%nat) /\
    (List.length encoded <> List.length s ->
     py_decode read enc <> Ok (VStr s) /\
     (stop < buffer_pos w + List.length packed)%nat) /\
    exists n,
      calc_max_size (Str max_length length_type enc) (TAG_TYPE w) = Ok n /\
      (Z.of_nat (List.length encoded) <= max_length ->
       Z.of_nat (List.length packed) <= n) /\
      (max_length < Z.of_nat (List.length encoded) ->
       n < Z.of_nat (List.length packed)).
Proof.
  intros max_length length_type enc s encoded w post Hw He Hmax Hr
         packed d read stop.
  pose proof (encode_str_length enc s encoded He) as Hle.
  assert (Hpk : List.length packed
                = (atomic_size length_type + List.length encoded)%nat)
    by (subst packed; now rewrite length_app, length_prefix_length).
  split; [|split; [|split; [|split]]].
  - unfold var_len_str_to_bytes_partial.
    rewrite (bind_ok _ _ _ _ _
               (write_length_ok length_type max_length (VStr s)
                  (List.length s) w eq_refl Hmax Hr Hw)).
    unfold bind, lift, py_encode. rewrite He.
    rewrite buffer_write_at_end by apply appended_at_end.
    now rewrite appended_appended.
  - unfold var_len_str_from_bytes_partial.
    subst d packed. rewrite <- app_assoc, Hw.
    erewrite bind_ok;
      [|apply read_length_ok
          with (n := List.length s) (post := encoded ++ post);
        auto; apply skipn_past_prefix].
    unfold buffer_read_int.
    assert (E : (Z.of_nat (List.length s) <? 0) = false)
      by (apply Z.ltb_ge; lia).
    rewrite E, Nat2Z.id.
    unfold bind, buffer_read, lift, set_buffer.
    cbn [buffer_data buffer_pos TAG_TYPE].
    rewrite skipn_past_length_prefix.
    assert (Hf : firstn (List.length s) (encoded ++ post) = read).
    { subst read. rewrite firstn_app.
      replace (List.length s - List.length encoded)%nat with O by lia.
      now rewrite firstn_O, app_nil_r. }
    rewrite Hf.
    assert (Hrl : List.length read = List.length s)
      by (subst read; rewrite length_firstn; lia).
    rewrite Hrl. subst stop. rewrite Hw. reflexivity.
  - intros Heq. split; [|subst stop; lia].
    subst read. rewrite <- Heq, firstn_all. unfold py_decode.
    now rewrite (decode_encode enc s encoded He).
  - intros Hne. split; [|subst stop; lia].
    unfold py_decode.
    destruct (decode_bytes enc read) as [s'|] eqn:Ed; [|discriminate].
    intros E. apply (decode_prefix_differs enc s encoded He Hne).
    subst read. rewrite Ed. congruence.
  - cbn [calc_max_size]. eexists. split; [reflexivity|].
    rewrite Hpk. split; intros H; lia.
Qed.

Lemma var_len_str_hooks_witness :
  let w := mkWorld [] 0 None in
  let packed := [x01; x00; x00; x00; xc3; xa9] in
  var_len_str_to_bytes_partial 1 U32 UTF_8 (VStr [0xE9%N]) w
  = (Ok tt, appended w packed) /\
  var_len_str_from_bytes_partial 1 U32 UTF_8 (mkWorld packed 0 None)
  = (Raise (UnicodeError "codec can't decode byte"), mkWorld packed 5 None).
Proof.
  cbv zeta.
  destruct (var_len_str_hooks 1 U32 UTF_8 [0xE9%N] [xc3; xa9]
              (mkWorld [] 0 None) [] eq_refl eq_refl)
    as (H1 & H2 & _); [simpl; lia|reflexivity|].
  split; [exact H1|exact H2].
Defined.

(** ** The static check and the size of static types *)

Lemma fields_is_static_verdict (fields : list (string * PodType)) :
  Forall (fun f =>
            (is_static (snd f) = Ok true <-> fixed_size (snd f) = true) /\
            (forall e, is_static (snd f) = Raise e
                       -> e = AttributeError IS_STATIC)) fields ->
  (fields_is_static is_static fields = Ok true
   <-> forallb (fun f => fixed_size (snd f)) fields = true) /\
  (forall e, fields_is_static is_static fields = Raise e
             -> e = AttributeError IS_STATIC).
Proof.
  induction 1 as [|f fr [Hiff Hraise] _ [IHiff IHraise]];
    cbn [fields_is_static forallb].
  - split; [tauto|discriminate].
  - destruct (is_static (snd f)) as [[|]|e0] eqn:Ef; cbn [result_bind].
    + rewrite (proj1 Hiff eq_refl). cbn [andb]. split; assumption.
    + destruct (fixed_size (snd f)) eqn:Efx.
      * destruct Hiff as [_ Hiff]. discriminate (Hiff eq_refl).
      * cbn [andb]. split; [split; discriminate|discriminate].
    + destruct (fixed_size (snd f)) eqn:Efx.
      * destruct Hiff as [_ Hiff]. discriminate (Hiff eq_refl).
      * cbn [andb]. split; [split; discriminate|].
        intros e He. apply Hraise. congruence.
Qed.

Lemma fields_calc_max_size_fixed (fields : list (string * PodType)) :
  Forall (fun f => fixed_size (snd f) = true ->
                   exists n, 0 <= n /\
                             forall tag, calc_max_size (snd f) tag = Ok n)
         fields ->
  forallb (fun f => fixed_size (snd f)) fields = true ->
  exists m, 0 <= m /\
            forall tag total,
              fields_calc_max_size (fun ty => calc_max_size ty tag)
                                   fields total
              = Ok (total + m).
Proof.
  induction 1 as [|f fr Hf _ IH]; cbn [forallb]; intros Hfx.
  - exists 0. split; [lia|]. intros tag total. cbn. now rewrite Z.add_0_r.
  - apply andb_prop in Hfx. destruct Hfx as [Hfx Hrest].
    destruct (Hf Hfx) as (n & Hn & Hsize).
    destruct (IH Hrest) as (m & Hm & Hsum).
    exists (n + m). split; [lia|]. intros tag total.
    cbn [fields_calc_max_size]. rewrite Hsize. cbn [result_bind].
    rewrite Hsum. f_equal. lia.
Qed.

Lemma is_static_verdict (T : PodType) :
  (is_static T = Ok true <-> fixed_size T = true) /\
  (forall e, is_static T = Raise e -> e = AttributeError IS_STATIC).
Proof.
  induction T using PodType_nested_ind;
    try (cbn; split; [split; congruence|congruence]).
  - destruct (dataclass_hooks name fields VNone FORMAT_PASS None)
      as (Hst & _).
    rewrite Hst. unfold dataclass_is_static. cbn [fixed_size].
    now apply fields_is_static_verdict.
  - exact IHT.
Qed.

Lemma fixed_size_calc_max_size (T : PodType) :
  fixed_size T = true ->
  exists n, 0 <= n /\ forall tag, calc_max_size T tag = Ok n.
Proof.
  induction T using PodType_nested_ind; intros Hfx; try discriminate Hfx.
  - exists (Z.of_nat (atomic_size a)). split; [lia|reflexivity].
  - destruct (fields_calc_max_size_fixed fields H Hfx) as (m & Hm & Hsum).
    exists m. split; [exact Hm|]. intros tag.
    destruct (dataclass_hooks name fields VNone FORMAT_PASS tag)
      as (_ & Hsize & _).
    rewrite Hsize. unfold dataclass_calc_max_size. now rewrite Hsum.
  - destruct (IHT Hfx) as (n & Hn & Hsize).
    exists (n * Z.of_nat length). split; [nia|]. intros tag.
    cbn [calc_max_size]. cbn. now rewrite Hsize.
  - exists (Z.of_nat length). split; [lia|reflexivity].
  - exists (Z.of_nat length). split; [lia|reflexivity].
Qed.

(** X13.  The static check of the catalog.  [is_static] answers [True]
    exactly for the types with no [AutoTagType] and no variable container
    inside; the only error it raises is the missing [_is_static] attribute
    of a variable array; and a type it calls static has one maximum size,
    whatever the tag slot holds.  In a dataclass the fields are asked in
    order and the first that is not static settles the answer. *)
Theorem is_static_means_fixed_size :
  forall T : PodType,
    (is_static T = Ok true <-> fixed_size T = true) /\
    (forall e, is_static T = Raise e -> e = AttributeError IS_STATIC) /\
    (is_static T = Ok true ->
     exists n, 0 <= n /\ forall tag, calc_max_size T tag = Ok n) /\
    (forall name pre f post,
        T = Dataclass name (pre ++ f :: post) ->
        forallb (fun g => fixed_size (snd g)) pre = true ->
        is_static T = (match is_static (snd f) with
                       | Ok true => is_static (Dataclass name post)
                       | r => r
                       end)).
Proof.
  intros T. destruct (is_static_verdict T) as [Hiff Hraise].
  split; [exact Hiff|split; [exact Hraise|split]].
  - intros Hst. apply fixed_size_calc_max_size. now apply Hiff.
  - intros name pre f post -> Hpre.
    destruct (dataclass_hooks name (pre ++ f :: post) VNone FORMAT_PASS None)
      as (Hst & _).
    destruct (dataclass_hooks name post VNone FORMAT_PASS None)
      as (Hst' & _).
    rewrite Hst, Hst'. unfold dataclass_is_static. clear Hst Hst' Hiff Hraise.
    induction pre as [|g pre IH]; cbn [app fields_is_static].
    + destruct (is_static (snd f)) as [[|]|e]; reflexivity.
    + cbn [forallb] in Hpre. apply andb_prop in Hpre.
      destruct Hpre as [Hg Hpre].
      rewrite (proj2 (proj1 (is_static_verdict (snd g))) Hg).
      cbn [result_bind]. now apply IH.
Qed.

(** ** The pass-through format *)

Lemma pass_fields_pack (t : atomic) (name : string) (obj : value)
    (fields : list (string * PodType)) :
  Forall (fun f => forall v w,
              legal_under t (snd f) v = true -> at_end w ->
              TAG_TYPE w = Some t ->
              pack_partial (snd f) v FORMAT_PASS w
              = (Ok tt, appended w (wire_under t (snd f) v))) fields ->
  forall attrs w,
    legal_fields (legal_under t) fields attrs = true ->
    (forall f a, In (f, a) (combine fields attrs) ->
                 py_getattr obj (fst f) = Ok (snd a)) ->
    at_end w -> TAG_TYPE w = Some t ->
    fields_to_bytes_partial (fun ty v => pack_partial ty v FORMAT_PASS)
                            name fields obj w
    = (Ok tt, appended w (wire_fields (wire_under t) fields attrs)).
Proof.
  induction 1 as [|f fr Hf _ IH]; intros [|a ar] w Hl Hget Hend Htag;
    simpl in Hl; try discriminate Hl.
  - simpl. unfold ret. now rewrite appended_nil.
  - apply andb_prop in Hl. destruct Hl as [Hl Hr].
    apply andb_prop in Hl. destruct Hl as [_ Hv].
    cbn [fields_to_bytes_partial wire_fields].
    assert (Hstep : field_to_bytes_partial
                      (fun ty v => pack_partial ty v FORMAT_PASS) name obj f w
                    = (Ok tt, appended w (wire_under t (snd f) (snd a)))).
    { unfold field_to_bytes_partial.
      rewrite (Hget f a) by (left; reflexivity).
      unfold try_except. now rewrite Hf. }
    rewrite (bind_ok _ _ _ _ _ Hstep).
    rewrite (IH ar (appended w (wire_under t (snd f) (snd a))) Hr).
    + now rewrite appended_appended.
    + intros f' a' Hin. apply Hget. right. exact Hin.
    + apply appended_at_end.
    + exact Htag.
Qed.

(** Under [FORMAT_PASS] the catalog installs nothing: a tagged descriptor
    is laid out under the tag type the slot already holds. *)
Lemma pass_pack_partial (T : PodType) :
  tagged T = true ->
  forall v t w,
    legal_under t T v = true -> at_end w -> TAG_TYPE w = Some t ->
    pack_partial T v FORMAT_PASS w = (Ok tt, appended w (wire_under t T v)).
Proof.
  induction T using PodType_nested_ind; intros Hp v t w Hl Hend Htag;
    try discriminate Hp.
  - destruct v; try discriminate Hl. cbn [legal_under wire_under] in *.
    change (pack_partial (Atomic a) (VInt n) FORMAT_PASS)
      with (atomic_pack_partial a (VInt n) FORMAT_PASS).
    now apply atomic_pack_in_range.
  - destruct v; try discriminate Hl. cbn [legal_under wire_under] in *.
    change (pack_partial AutoTagType (VInt n) FORMAT_PASS w)
      with (AutoTagType_to_bytes_partial (VInt n) FORMAT_PASS w).
    unfold AutoTagType_to_bytes_partial. rewrite Htag.
    now apply atomic_pack_in_range.
  - destruct v as [| | | | |cls attrs]; try discriminate Hl.
    cbn [tagged] in Hp. apply andb_prop in Hp. destruct Hp as [Hp Hd].
    cbn [legal_under] in Hl. apply andb_prop in Hl. destruct Hl as [Hc Hl].
    cbn [wire_under].
    destruct (dataclass_hooks name fields (VObj cls attrs) FORMAT_PASS None)
      as (_ & _ & Hpack & _).
    rewrite Hpack. cbn [negotiate]. unfold dataclass_to_bytes_partial.
    apply pass_fields_pack; try assumption.
    + rewrite Forall_forall in H. apply Forall_forall.
      intros f Hin v w0 Hv He Ht0.
      apply H; try assumption.
      rewrite forallb_forall in Hp. now apply Hp.
    + intros f a Hin. unfold py_getattr.
      now rewrite (assoc_in_lockstep (legal_under t) fields attrs Hl Hd f a Hin).
Qed.

Lemma pass_unpack_partial (T : PodType) :
  tagged T = true ->
  forall v t d post p,
    legal_under t T v = true ->
    skipn p d = wire_under t T v ++ post ->
    unpack_partial T FORMAT_PASS (mkWorld d p (Some t))
    = (Ok v, mkWorld d (p + List.length (wire_under t T v)) (Some t)).
Proof.
  induction T using PodType_nested_ind;
    intros Hp v t d post p Hl Hd; try discriminate Hp.
  - destruct v; try discriminate Hl. cbn [legal_under wire_under] in *.
    change (unpack_partial (Atomic a) FORMAT_PASS)
      with (atomic_unpack_partial a FORMAT_PASS).
    rewrite to_little_endian_length.
    apply atomic_unpack_in_range with (post := post); auto.
  - destruct v; try discriminate Hl. cbn [legal_under wire_under] in *.
    change (unpack_partial AutoTagType FORMAT_PASS (mkWorld d p (Some t)))
      with (AutoTagType_from_bytes_partial FORMAT_PASS (mkWorld d p (Some t))).
    unfold AutoTagType_from_bytes_partial. cbn [TAG_TYPE].
    rewrite to_little_endian_length.
    apply atomic_unpack_in_range with (post := post); auto.
  - destruct v as [| | | | |cls attrs]; try discriminate Hl.
    cbn [tagged] in Hp. apply andb_prop in Hp. destruct Hp as [Hp Hdis].
    cbn [legal_under] in Hl. apply andb_prop in Hl. destruct Hl as [Hc Hl].
    apply String.eqb_eq in Hc. subst cls.
    cbn [wire_under] in *.
    change (unpack_partial (Dataclass name fields) FORMAT_PASS
              (mkWorld d p (Some t)))
      with (dataclass_from_bytes_partial name fields FORMAT_PASS
              (mkWorld d p (Some t))).
    unfold dataclass_from_bytes_partial.
    erewrite bind_ok; [reflexivity|].
    apply layout_fields_unpack with (L := legal_under t) (post := post);
      try assumption.
    rewrite Forall_forall in H. apply Forall_forall.
    intros f Hin v post0 p0 Hv Hs.
    apply H with (post := post0); try assumption.
    rewrite forallb_forall in Hp. now apply Hp.
Qed.

Lemma pass_fields_pack_outside (name : string) (obj : value)
    (fields : list (string * PodType)) :
  Forall (fun f => tagged (snd f) = true -> plain (snd f) = false ->
                   forall v w, TAG_TYPE w = None ->
                     exists e,
                       fst (pack_partial (snd f) v FORMAT_PASS w) = Raise e)
         fields ->
  forallb (fun f => tagged (snd f)) fields = true ->
  forallb (fun f => plain (snd f)) fields = false ->
  forall w, TAG_TYPE w = None ->
    exists e,
      fst (fields_to_bytes_partial (fun ty v => pack_partial ty v FORMAT_PASS)
                                   name fields obj w) = Raise e.
Proof.
  induction 1 as [|f fr Hf _ IH]; cbn [forallb]; intros Ht Hp w Hw;
    [discriminate Hp|].
  apply andb_prop in Ht. destruct Ht as [Htf Htr].
  cbn [fields_to_bytes_partial]. unfold bind.
  destruct (field_to_bytes_partial _ name obj f w) as [[[]|e] w1] eqn:Ef;
    [|eexists; reflexivity].
  unfold field_to_bytes_partial in Ef.
  destruct (py_getattr obj (fst f)) as [val|e0]; [|discriminate Ef].
  unfold try_except in Ef.
  pose proof (keeps_tag_pack_partial (snd f) val FORMAT_PASS w) as Hk.
  destruct (pack_partial (snd f) val FORMAT_PASS w) as [[[]|e1] w'] eqn:Ep;
    [|discriminate Ef].
  assert (w' = w1) by congruence. subst w'.
  cbn [snd] in Hk.
  destruct (plain (snd f)) eqn:Epl.
  - cbn [andb] in Hp. apply IH; try assumption. congruence.
  - destruct (Hf Htf eq_refl val w Hw) as [e He].
    rewrite Ep in He. discriminate He.
Qed.

Lemma pass_pack_partial_outside (T : PodType) :
  tagged T = true -> plain T = false ->
  forall v w, TAG_TYPE w = None ->
    exists e, fst (pack_partial T v FORMAT_PASS w) = Raise e.
Proof.
  induction T using PodType_nested_ind; intros Ht Hp v w Hw;
    try discriminate Ht; try discriminate Hp.
  - change (pack_partial AutoTagType v FORMAT_PASS w)
      with (AutoTagType_to_bytes_partial v FORMAT_PASS w).
    unfold AutoTagType_to_bytes_partial. rewrite Hw. eexists; reflexivity.
  - cbn [tagged] in Ht. apply andb_prop in Ht. destruct Ht as [Ht Hd].
    cbn [plain] in Hp. rewrite Hd, andb_true_r in Hp.
    destruct (dataclass_hooks name fields v FORMAT_PASS None)
      as (_ & _ & Hpack & _).
    rewrite Hpack. cbn [negotiate]. unfold dataclass_to_bytes_partial.
    now apply pass_fields_pack_outside.
Qed.

Lemma pass_fields_unpack_outside (name : string)
    (fields : list (string * PodType)) :
  Forall (fun f => tagged (snd f) = true -> plain (snd f) = false ->
                   forall w, TAG_TYPE w = None ->
                     exists e,
                       fst (unpack_partial (snd f) FORMAT_PASS w) = Raise e)
         fields ->
  forallb (fun f => tagged (snd f)) fields = true ->
  forallb (fun f => plain (snd f)) fields = false ->
  forall w, TAG_TYPE w = None ->
    exists e,
      fst (fields_from_bytes_partial (fun ty => unpack_partial ty FORMAT_PASS)
                                     name fields w) = Raise e.
Proof.
  induction 1 as [|f fr Hf _ IH]; cbn [forallb]; intros Ht Hp w Hw;
    [discriminate Hp|].
  apply andb_prop in Ht. destruct Ht as [Htf Htr].
  cbn [fields_from_bytes_partial]. unfold bind at 1.
  destruct (field_from_bytes_partial _ name f w) as [[val|e] w1] eqn:Ef;
    [|eexists; reflexivity].
  unfold field_from_bytes_partial, try_except in Ef.
  pose proof (keeps_tag_unpack_partial (snd f) FORMAT_PASS w) as Hk.
  destruct (unpack_partial (snd f) FORMAT_PASS w) as [[val'|e1] w'] eqn:Ep;
    [|discriminate Ef].
  assert (w' = w1) by congruence. subst w'.
  cbn [snd] in Hk.
  destruct (plain (snd f)) eqn:Epl.
  - cbn [andb] in Hp.
    destruct (IH Htr Hp w1 ltac:(congruence)) as [e He].
    unfold bind.
    destruct (fields_from_bytes_partial _ name fr w1) as [[vals|e2] w2];
      [discriminate He|eexists; reflexivity].
  - destruct (Hf Htf eq_refl w Hw) as [e He].
    rewrite Ep in He. discriminate He.
Qed.

Lemma pass_unpack_partial_outside (T : PodType) :
  tagged T = true -> plain T = false ->
  forall w, TAG_TYPE w = None ->
    exists e, fst (unpack_partial T FORMAT_PASS w) = Raise e.
Proof.
  induction T using PodType_nested_ind; intros Ht Hp w Hw;
    try discriminate Ht; try discriminate Hp.
  - change (unpack_partial AutoTagType FORMAT_PASS w)
      with (AutoTagType_from_bytes_partial FORMAT_PASS w).
    unfold AutoTagType_from_bytes_partial. rewrite Hw. eexists; reflexivity.
  - cbn [tagged] in Ht. apply andb_prop in Ht. destruct Ht as [Ht Hd].
    cbn [plain] in Hp. rewrite Hd, andb_true_r in Hp.
    change (unpack_partial (Dataclass name fields) FORMAT_PASS w)
      with (dataclass_from_bytes_partial name fields FORMAT_PASS w).
    unfold dataclass_from_bytes_partial.
    destruct (pass_fields_unpack_outside name fields H Ht Hp w Hw) as [e He].
    unfold bind.
    destruct (fields_from_bytes_partial _ name fields w) as [[vals|e2] w2];
      [discriminate He|eexists; reflexivity].
Qed.

(** X14.  The pass-through format installs no tag type: the members of
    type [AutoTagType] use what the slot already holds.  With a tag type in
    the slot, [pack] and [unpack] under [FORMAT_PASS] lay a value out and
    read it back under that tag type.  With the slot empty, as at the top
    level, a type without [AutoTagType] packs as under any format, while
    for a type with one inside every [pack] and every [unpack] raises,
    whatever the value or the bytes. *)
Theorem format_pass_uses_the_slot :
  forall (T : PodType) (v : value) (t : atomic) (checked : bool),
    tagged T = true -> legal_under t T v = true ->
    pack T v FORMAT_PASS (Some t) = (Ok (wire_under t T v), Some t) /\
    unpack T (wire_under t T v) checked FORMAT_PASS (Some t)
    = (Ok v, Some t) /\
    (plain T = true ->
     pack T v FORMAT_PASS None = (Ok (wire_under t T v), None)) /\
    (plain T = false ->
     (forall obj, exists e, pack T obj FORMAT_PASS None = (Raise e, None)) /\
     (forall raw, exists e,
         unpack T raw checked FORMAT_PASS None = (Raise e, None))).
Proof.
  intros T v t checked Ht Hl. split; [|split; [|split]].
  - unfold pack.
    rewrite (pass_pack_partial T Ht v t (mkWorld [] 0 (Some t)) Hl)
      by reflexivity.
    reflexivity.
  - apply unpack_of_partial.
    rewrite (pass_unpack_partial T Ht v t _ [] 0 Hl)
      by (simpl; now rewrite app_nil_r).
    reflexivity.
  - intros Hp. destruct (plain_layout T Hp t v) as [Hlv Hwv].
    unfold pack.
    rewrite (plain_pack_partial T Hp v FORMAT_PASS (mkWorld [] 0 None))
      by (try reflexivity; now rewrite <- Hlv).
    now rewrite Hwv.
  - intros Hp. split.
    + intros obj. unfold pack.
      destruct (pass_pack_partial_outside T Ht Hp obj (mkWorld [] 0 None)
                  eq_refl) as [e He].
      pose proof (keeps_tag_pack_partial T obj FORMAT_PASS
                    (mkWorld [] 0 None)) as Hk.
      destruct (pack_partial T obj FORMAT_PASS (mkWorld [] 0 None))
        as [r w'].
      cbn [fst snd TAG_TYPE] in *. subst r. rewrite Hk.
      eexists; reflexivity.
    + intros raw. unfold unpack.
      destruct (pass_unpack_partial_outside T Ht Hp (mkWorld raw 0 None)
                  eq_refl) as [e He].
      pose proof (keeps_tag_unpack_partial T FORMAT_PASS
                    (mkWorld raw 0 None)) as Hk.
      destruct (unpack_partial T FORMAT_PASS (mkWorld raw 0 None))
        as [r w'].
      cbn [fst snd TAG_TYPE] in *. subst r. rewrite Hk.
      eexists; reflexivity.
Qed.

Lemma format_pass_uses_the_slot_witness :
  let E := Dataclass "E" [("x", Atomic U32); ("kind", AutoTagType)] in
  let v := VObj "E" [("x", VInt 7); ("kind", VInt 1)] in
  pack E v FORMAT_PASS (Some U64)
  = (Ok (wire_under U64 E v), Some U64) /\
  exists e, pack E v FORMAT_PASS None = (Raise e, None).
Proof.
  cbv zeta.
  destruct (format_pass_uses_the_slot
              (Dataclass "E" [("x", Atomic U32); ("kind", AutoTagType)])
              (VObj "E" [("x", VInt 7); ("kind", VInt 1)]) U64 false
              eq_refl eq_refl) as (H1 & _ & _ & H4).
  split; [exact H1|].
  destruct (H4 eq_refl) as [Hpack _]. apply Hpack.
Defined.

(** ** Containers behind the catalog *)

(** X15.  The catalog cannot call the hooks of a container.  For every
    generated container class, [pack_partial] and [unpack_partial] raise
    before the hook body runs, on every object and under every format,
    leaving buffer and slot as they were: [TypeError] for the keyword
    [format] the hook does not declare, or [ValueError] when the format
    itself is refused first.  So [pack] and [unpack] of a container always
    raise, and the array hooks, even called as declared, cannot handle
    elements of a container type: the fixed array raises at its first
    element, the variable array after it has written the length prefix. *)
Theorem catalog_cannot_call_container_hooks :
  forall (C : PodType) (w : world),
    is_container C = true ->
    (forall obj format,
        pack_partial C obj format w
        = (Raise (if concrete format then keyword_error else format_error),
           w)) /\
    (forall format,
        unpack_partial C format w
        = (Raise (match format with
                  | FORMAT_OTHER _ => format_error
                  | _ => keyword_error
                  end), w)) /\
    (forall obj format tag,
        exists e, pack C obj format tag = (Raise e, tag)) /\
    (forall raw checked format tag,
        exists e, unpack C raw checked format tag = (Raise e, tag)) /\
    (forall x l,
        fixed_len_array_to_bytes_partial
          (fun elem => pack_partial C elem FORMAT_BORSCH) (VList (x :: l)) w
        = (Raise keyword_error, w)) /\
    (forall n,
        fixed_len_array_from_bytes_partial
          (unpack_partial C FORMAT_AUTO) (S n) w
        = (Raise keyword_error, w)) /\
    (forall x l max_length length_type,
        at_end w ->
        Z.of_nat (S (List.length l)) <= max_length ->
        in_range length_type (Z.of_nat (S (List.length l))) = true ->
        var_len_array_to_bytes_partial
          (fun elem => pack_partial C elem FORMAT_BORSCH)
          max_length length_type (VList (x :: l)) w
        = (Raise keyword_error,
           appended w (length_prefix length_type (S (List.length l))))).
Proof.
  intros C w HC.
  split; [|split; [|split; [|split; [|split; [|split]]]]].
  - intros obj format. now apply container_pack_partial.
  - intros format. now apply container_unpack_partial.
  - intros obj format tag. unfold pack.
    rewrite container_pack_partial by exact HC. eexists; reflexivity.
  - intros raw checked format tag. unfold unpack.
    rewrite container_unpack_partial by exact HC. eexists; reflexivity.
  - intros x l.
    unfold fixed_len_array_to_bytes_partial, bind, lift.
    cbn [py_iter for_each]. unfold bind.
    now rewrite container_pack_partial by exact HC.
  - intros n.
    unfold fixed_len_array_from_bytes_partial. cbn [collect]. unfold bind.
    now rewrite container_unpack_partial by exact HC.
  - intros x l max_length length_type Hw Hmax Hr.
    unfold var_len_array_to_bytes_partial.
    rewrite (bind_ok _ _ _ _ _
               (write_length_ok length_type max_length (VList (x :: l))
                  (S (List.length l)) w eq_refl Hmax Hr Hw)).
    unfold bind, lift. cbn [py_iter for_each]. unfold bind.
    now rewrite container_pack_partial by exact HC.
Qed.

Lemma catalog_cannot_call_container_hooks_witness :
  let w := mkWorld [x07] 1 None in
  pack_partial (FixedLenBytes 2) (VBytes [x61; x62]) FORMAT_BORSCH w
  = (Raise keyword_error, w) /\
  unpack_partial (Str 16 U32 UTF_8) FORMAT_AUTO w = (Raise keyword_error, w).
Proof.
  cbv zeta. split.
  - destruct (catalog_cannot_call_container_hooks (FixedLenBytes 2)
                (mkWorld [x07] 1 None) eq_refl) as (H & _).
    exact (H (VBytes [x61; x62]) FORMAT_BORSCH).
  - destruct (catalog_cannot_call_container_hooks (Str 16 U32 UTF_8)
                (mkWorld [x07] 1 None) eq_refl) as (_ & H & _).
    exact (H FORMAT_AUTO).
Defined.

(** ** The JSON hooks of the byte containers *)

Lemma byte_of_N_to_N (x : byte) : byte_of_N (Byte.to_N x) = x.
Proof.
  unfold byte_of_N. pose proof (Byte.to_N_bounded x) as Hb.
  rewrite N.mod_small by lia. now rewrite Byte.of_to_N.
Qed.

Lemma bytes_of_ints_of_bytes (b : bytes) :
  bytes_of_ints (map (fun x => VInt (Z_of_byte x)) b) = Ok b.
Proof.
  induction b as [|x b IH]; [reflexivity|].
  cbn [map bytes_of_ints].
  pose proof (Byte.to_N_bounded x) as Hb.
  assert (E : (0 <=? Z_of_byte x) && (Z_of_byte x <? 256) = true).
  { unfold Z_of_byte. apply andb_true_intro.
    split; [apply Z.leb_le|apply Z.ltb_lt]; lia. }
  rewrite E, IH. cbn [result_bind]. unfold Z_of_byte.
  now rewrite N2Z.id, byte_of_N_to_N.
Qed.

Lemma bytes_of_ints_inv (l : list value) :
  forall b, bytes_of_ints l = Ok b ->
            l = map (fun x => VInt (Z_of_byte x)) b.
Proof.
  induction l as [|v l IH]; intros b H.
  - cbn in H. injection H as <-. reflexivity.
  - cbn [bytes_of_ints] in H. destruct v; try discriminate H.
    destruct ((0 <=? n) && (n <? 256)) eqn:E; [|discriminate H].
    destruct (bytes_of_ints l) as [b'|] eqn:El; [|discriminate H].
    cbn [result_bind] in H. apply andb_prop in E. destruct E as [E0 E1].
    apply Z.leb_le in E0. apply Z.ltb_lt in E1.
    assert (Hb : b = byte_of_N (Z.to_N n) :: b') by congruence.
    subst b. cbn [map]. rewrite <- (IH b' eq_refl). f_equal. f_equal.
    unfold Z_of_byte. rewrite to_N_byte_of_N by lia. lia.
Qed.

(** X16.  The JSON hooks of the two byte containers invert each other.
    [_to_dict] turns a byte string into the list of its byte values and
    [_from_dict] turns that list back into the byte string; a list that
    [_from_dict] accepts is the list [_to_dict] gives for its result.
    [_from_dict] accepts any number of bytes: neither the length of the
    fixed type nor [max_length] of the variable type is checked. *)
Theorem bytes_dict_hooks :
  forall b : bytes,
    let ints := VList (map (fun x => VInt (Z_of_byte x)) b) in
    fixed_len_bytes_to_dict (VBytes b) = Ok ints /\
    fixed_len_bytes_from_dict ints = Ok (VBytes b) /\
    var_len_bytes_to_dict (VBytes b) = Ok ints /\
    var_len_bytes_from_dict ints = Ok (VBytes b) /\
    (forall l, fixed_len_bytes_from_dict (VList l) = Ok (VBytes b) ->
               fixed_len_bytes_to_dict (VBytes b) = Ok (VList l)) /\
    (forall l, var_len_bytes_from_dict (VList l) = Ok (VBytes b) ->
               var_len_bytes_to_dict (VBytes b) = Ok (VList l)).
Proof.
  intros b ints. subst ints.
  assert (Hinv : forall l,
             result_bind (py_bytes (VList l)) (fun b0 => Ok (VBytes b0))
             = Ok (VBytes b) ->
             py_list (VBytes b) = Ok (VList l)).
  { intros l H. cbn [py_bytes] in H.
    destruct (bytes_of_ints l) as [b'|] eqn:El; [|discriminate H].
    cbn [result_bind] in H. assert (b' = b) by congruence. subst b'.
    now rewrite (bytes_of_ints_inv l b El). }
  unfold fixed_len_bytes_to_dict, fixed_len_bytes_from_dict,
    var_len_bytes_to_dict, var_len_bytes_from_dict.
  repeat split; try exact Hinv; try reflexivity;
    cbn [py_bytes]; rewrite bytes_of_ints_of_bytes; reflexivity.
Qed.

(** ** Bodies shorter than their prefix *)

(** X17.  The unpack hooks of the variable bytes and string types do not
    check that the body announced by the prefix is there.  After a prefix
    [n] within the bounds they take the next [n] bytes, or all that is left
    when that is less, and return them (decoded, for a string) with the
    cursor after what was taken: a truncated body gives a shorter value, not
    an error of the hook. *)
Theorem var_len_body_not_checked :
  forall (max_length : Z) (length_type : atomic) (n : nat)
         (d rest : bytes) (p : nat) (tag : option atomic),
    Z.of_nat n <= max_length ->
    in_range length_type (Z.of_nat n) = true ->
    skipn p d = length_prefix length_type n ++ rest ->
    let body := firstn n rest in
    let stop := (p + atomic_size length_type
                 + Nat.min n (List.length rest))%nat in
    var_len_bytes_from_bytes_partial max_length length_type (mkWorld d p tag)
    = (Ok (VBytes body), mkWorld d stop tag) /\
    (forall enc,
        var_len_str_from_bytes_partial max_length length_type enc
          (mkWorld d p tag)
        = (py_decode body enc, mkWorld d stop tag)) /\
    ((List.length rest < n)%nat ->
     body = rest /\ stop = List.length d).
Proof.
  intros max_length length_type n d rest p tag Hmax Hr Hd body stop.
  assert (Hrest : skipn (p + atomic_size length_type) d = rest).
  { rewrite Nat.add_comm, <- skipn_skipn, Hd.
    rewrite <- (length_prefix_length length_type n).
    apply skipn_past_prefix. }
  assert (E : (Z.of_nat n <? 0) = false) by (apply Z.ltb_ge; lia).
  assert (Hbl : List.length body = Nat.min n (List.length rest))
    by (subst body; apply length_firstn).
  split; [|split].
  - unfold var_len_bytes_from_bytes_partial.
    rewrite (bind_ok _ _ _ _ _
               (read_length_ok length_type max_length n d rest p tag
                  Hmax Hr Hd)).
    unfold buffer_read_int. rewrite E, Nat2Z.id.
    unfold bind, buffer_read, ret, set_buffer.
    cbn [buffer_data buffer_pos TAG_TYPE].
    rewrite Hrest. fold body. now rewrite Hbl.
  - intros enc. unfold var_len_str_from_bytes_partial.
    rewrite (bind_ok _ _ _ _ _
               (read_length_ok length_type max_length n d rest p tag
                  Hmax Hr Hd)).
    unfold buffer_read_int. rewrite E, Nat2Z.id.
    unfold bind, buffer_read, lift, set_buffer.
    cbn [buffer_data buffer_pos TAG_TYPE].
    rewrite Hrest. fold body. now rewrite Hbl.
  - intros Hshort. split.
    + subst body. apply firstn_all2. lia.
    + subst stop.
      assert (Hlen : List.length (skipn p d)
                     = (atomic_size length_type + List.length rest)%nat)
        by (rewrite Hd, length_app, length_prefix_length; reflexivity).
      rewrite length_skipn in Hlen.
      pose proof (length_prefix_length length_type n) as Hpl.
      assert (Hp : (p <= List.length d)%nat).
      { destruct (Nat.le_gt_cases p (List.length d)) as [Hle|Hgt];
          [exact Hle|].
        rewrite skipn_all2 in Hd by lia.
        apply (f_equal (@List.length byte)) in Hd.
        rewrite length_app, Hpl in Hd. cbn [List.length] in Hd.
        destruct length_type; cbn in Hd; lia. }
      lia.
Qed.

Lemma var_len_body_not_checked_witness :
  let d := [x03; x00; x00; x00; x61] in
  var_len_bytes_from_bytes_partial 16 U32 (mkWorld d 0 None)
  = (Ok (VBytes [x61]), mkWorld d 5 None) /\
  var_len_str_from_bytes_partial 16 U32 ASCII (mkWorld d 0 None)
  = (Ok (VStr [0x61%N]), mkWorld d 5 None).
Proof.
  cbv zeta.
  destruct (var_len_body_not_checked 16 U32 3
              [x03; x00; x00; x00; x61] [x61] 0 None)
    as (H1 & H2 & _); [simpl; lia|reflexivity|reflexivity|].
  split; [exact H1|exact (H2 ASCII)].
Defined.
